(** * Direct construction of a DFA from a regular expression

    A shallow embedding of [Laboratorio#4.py]: the class [RegexToDFA]
    (augmentation, shunting-yard translation, syntax tree, nullable /
    firstpos / lastpos / followpos, direct DFA construction, partition
    refinement, simulation), followed by the properties proved about it.

    Conventions of the embedding.
    - A Python one-character [str] is its Unicode code point, a [N];
      a [str] is a list of code points.
    - A Python [set] of ints is a [gset]; its iteration order is not
      specified by the language, and every loop over such a set in the
      source computes an order-independent result.  The set of characters
      [self.alphabet] is iterated by two stateful loops, so the object
      carries it as the duplicate-free list of its elements in iteration
      order, and that order is left arbitrary (see [set_order]).
    - A Python [dict] is an association list in insertion order (the order
      of [items()]), with the in-place update of an existing key.
    - A Python list used as a stack has its top at the head of the list.
    - A raised exception is the result [Raise e]; the two [while] loops run
      on fuel and [Timeout] is the result of too little fuel.  The limits
      of the interpreter (recursion depth, memory) are not modelled. *)

From stdpp Require Import gmap list strings.

Set Default Proof Using "Type".
#[local] Set Warnings "-clear-no-such-hyp".

(** ** Characters and strings *)

Abbreviation char := N (only parsing).
Abbreviation str := (list N) (only parsing).

Fixpoint of_string (s : string) : str :=
  match s with
  | EmptyString => []
  | String a s' => Ascii.N_of_ascii a :: of_string s'
  end.

Definition c_lparen : char := 40%N.   (* '(' *)
Definition c_rparen : char := 41%N.   (* ')' *)
Definition c_star   : char := 42%N.   (* '*' *)
Definition c_plus   : char := 43%N.   (* '+' *)
Definition c_qmark  : char := 63%N.   (* '?' *)
Definition c_bar    : char := 124%N.  (* '|' *)
Definition c_hash   : char := 35%N.   (* '#' *)
Definition c_dot    : char := 183%N.  (* the middle dot U+00B7 *)
Definition c_eps    : char := 949%N.  (* the Greek small epsilon U+03B5 *)

(** [c in s] for a one-character [c]. *)
Definition in_str (c : char) (s : str) : bool := bool_decide (c ∈ s).

(** ** Exceptions *)

Inductive exn := ValueError | AttributeError | IndexError | KeyError.

Inductive res (A : Type) :=
  | Ok (a : A)
  | Raise (e : exn)
  | Timeout.
Arguments Ok {A} a.
Arguments Raise {A} e.
Arguments Timeout {A}.

#[global] Instance res_ret : MRet res := λ A a, Ok a.
#[global] Instance res_bind : MBind res := λ A B f m,
  match m with
  | Ok a => f a
  | Raise e => Raise e
  | Timeout => Timeout
  end.

(** A [for] loop whose body may raise. *)
Fixpoint for_each {A S : Type} (body : S → A → res S) (s : S) (l : list A) : res S :=
  match l with
  | [] => Ok s
  | x :: l' => s' ← body s x; for_each body s' l'
  end.

(** [l[i]] for [0 <= i]. *)
Definition index {A} (l : list A) (i : nat) : res A :=
  match l !! i with
  | Some x => Ok x
  | None => Raise IndexError
  end.

(** ** Dictionaries in insertion order *)

Section dict.
Context {K V : Type} `{EqDecision K}.

Fixpoint dict_get (d : list (K * V)) (k : K) : option V :=
  match d with
  | [] => None
  | (k', v) :: d' => if decide (k' = k) then Some v else dict_get d' k
  end.

(** [d[k] = v] *)
Fixpoint dict_set (d : list (K * V)) (k : K) (v : V) : list (K * V) :=
  match d with
  | [] => [(k, v)]
  | (k', v') :: d' =>
      if decide (k' = k) then (k', v) :: d' else (k', v') :: dict_set d' k v
  end.

(** [d[k]], raising [KeyError] on a missing key. *)
Definition dict_item (d : list (K * V)) (k : K) : res V :=
  match dict_get d k with
  | Some v => Ok v
  | None => Raise KeyError
  end.
End dict.

(** ** The syntax tree

    A reference to a [Node] object or [None].  The attributes are those set
    by [Node.__init__]; [position] and [nullable] start as [None].  A set of
    positions can hold [None], because [{node.position}] is built from an
    attribute that may be [None]; hence [gset (option nat)]. *)

Abbreviation posset := (gset (option nat)) (only parsing).

Inductive Node :=
  | PyNone
  | Obj (data : char) (left right : Node)
        (nullable : option bool) (firstpos lastpos : posset)
        (position : option nat).

(** [Node(data)] *)
Definition new_node (data : char) : Node :=
  Obj data PyNone PyNone None ∅ ∅ None.

Definition get_nullable (n : Node) : res (option bool) :=
  match n with
  | PyNone => Raise AttributeError
  | Obj _ _ _ nl _ _ _ => Ok nl
  end.

Definition get_firstpos (n : Node) : res posset :=
  match n with
  | PyNone => Raise AttributeError
  | Obj _ _ _ _ fp _ _ => Ok fp
  end.

Definition get_lastpos (n : Node) : res posset :=
  match n with
  | PyNone => Raise AttributeError
  | Obj _ _ _ _ _ lp _ => Ok lp
  end.

(** Truth value of a [nullable] attribute ([None] and [False] are falsy). *)
Definition truthy (b : option bool) : bool :=
  match b with
  | Some true => true
  | _ => false
  end.

(** ** The automaton record and the compiler object *)

Record automaton := Automaton {
  states : nat;
  initial : nat;
  final_states : gset nat;
  transitions : list ((nat * char) * nat)
}.

Record RegexToDFA := Build {
  original_regex : str;
  augmented_regex : str;
  alphabet : list char;
  pos_to_symbol : list (nat * char);
  next_pos : nat;
  followpos : gmap (option nat) (gset (option nat));
  syntax_tree : Node;
  dfa : option automaton;
  minimized_dfa : option automaton
}.

(** The characters kept by the comprehension of [__init__]. *)
Definition alphabet_chars (regex : str) : list char :=
  filter (λ c, in_str c (of_string "()*|+?" ++ [c_dot; c_hash]) = false) regex.

(** [order] is an iteration order of [set(l)]. *)
Definition set_order (l order : list char) : Prop :=
  NoDup order ∧ ∀ c, c ∈ order ↔ c ∈ l.

(** [RegexToDFA(regex)]; [order] is the iteration order of [self.alphabet]. *)
Definition init (regex : str) (order : list char) : RegexToDFA :=
  {| original_regex := regex;
     augmented_regex := of_string "(" ++ regex ++ of_string ")#";
     alphabet := order;
     pos_to_symbol := [];
     next_pos := 1;
     followpos := ∅;
     syntax_tree := PyNone;
     dfa := None;
     minimized_dfa := None |}.

(** ** [infix_to_postfix] *)

(** The first loop: explicit concatenation. *)
Definition explicit_step (regex : str) (explicit_regex : str) (i : nat) : res str :=
  ci ← index regex i;
  let explicit_regex := explicit_regex ++ [ci] in
  if negb (in_str ci (of_string "(|")) then
    cj ← index regex (i + 1);
    if negb (in_str cj (of_string ")|*+?")) then Ok (explicit_regex ++ [c_dot])
    else Ok explicit_regex
  else Ok explicit_regex.

Definition explicit_concat (regex : str) : res str :=
  explicit_regex ← for_each (explicit_step regex) [] (seq 0 (length regex - 1));
  match last regex with
  | Some c => Ok (explicit_regex ++ [c])
  | None => Raise IndexError
  end.

(** [precedence.get(c, 0)] *)
Definition precedence (c : char) : nat :=
  if decide (c = c_bar) then 1
  else if decide (c = c_dot) then 2
  else if in_str c (of_string "*+?") then 3
  else 0.

(** [while stack and stack[-1] != '(': output.append(stack.pop())] *)
Fixpoint pop_to_paren (output stack : str) : str * str :=
  match stack with
  | [] => (output, [])
  | top :: rest =>
      if decide (top = c_lparen) then (output, stack)
      else pop_to_paren (output ++ [top]) rest
  end.

(** The [while] of the operator case. *)
Fixpoint pop_higher (c : char) (output stack : str) : str * str :=
  match stack with
  | [] => (output, [])
  | top :: rest =>
      if decide (top = c_lparen) then (output, stack)
      else if decide (precedence c ≤ precedence top)
           then pop_higher c (output ++ [top]) rest
           else (output, stack)
  end.

Definition shunt_step (st : str * str) (c : char) : str * str :=
  let '(output, stack) := st in
  if negb (in_str c (of_string "()|*+?" ++ [c_dot])) then (output ++ [c], stack)
  else if decide (c = c_lparen) then (output, c :: stack)
  else if decide (c = c_rparen) then
    let '(output, stack) := pop_to_paren output stack in
    match stack with
    | top :: rest => if decide (top = c_lparen) then (output, rest) else (output, stack)
    | [] => (output, stack)
    end
  else
    let '(output, stack) := pop_higher c output stack in
    (output, c :: stack).

Definition infix_to_postfix (regex : str) : res str :=
  regex ← explicit_concat regex;
  let '(output, stack) := foldl shunt_step ([], []) regex in
  Ok (output ++ stack).

(** ** [build_syntax_tree]

    The loop state is the node stack together with the object, whose
    [next_pos] and [pos_to_symbol] the leaf case updates. *)

Definition with_position (self : RegexToDFA) (c : char) : RegexToDFA :=
  {| original_regex := original_regex self;
     augmented_regex := augmented_regex self;
     alphabet := alphabet self;
     pos_to_symbol := dict_set (pos_to_symbol self) (next_pos self) c;
     next_pos := next_pos self + 1;
     followpos := followpos self;
     syntax_tree := syntax_tree self;
     dfa := dfa self;
     minimized_dfa := minimized_dfa self |}.

Definition build_step (st : list Node * RegexToDFA) (c : char)
  : res (list Node * RegexToDFA) :=
  let '(stack, self) := st in
  if in_str c (of_string "*+?") then
    match stack with
    | [] => Raise ValueError
    | child :: stack => Ok (Obj c child PyNone None ∅ ∅ None :: stack, self)
    end
  else if in_str c [c_bar; c_dot] then
    match stack with
    | r :: l :: stack => Ok (Obj c l r None ∅ ∅ None :: stack, self)
    | _ => Raise ValueError
    end
  else if decide (c ≠ c_eps) then
    Ok (Obj c PyNone PyNone None ∅ ∅ (Some (next_pos self)) :: stack,
        with_position self c)
  else
    Ok (new_node c :: stack, self).

Definition build_syntax_tree (self : RegexToDFA) (postfix : str)
  : res (Node * RegexToDFA) :=
  '(stack, self) ← for_each build_step ([], self) postfix;
  match stack with
  | [root] => Ok (root, self)
  | _ => Raise ValueError
  end.

(** ** [calculate_tree_properties]

    The method mutates the nodes; here it returns the tree with the
    attributes filled in.  The three [if] chains are kept apart, as in the
    source; a node whose [data] matches no branch keeps the attribute it
    had.

    The method calls itself once for each level of the tree, and Python
    raises [RecursionError] when the calls nest deeper than the
    interpreter allows.  That bound is not part of this model: the
    function below is the method on the trees it can walk to the bottom,
    and what is proved of it is proved of the calls that return. *)

Definition calc_nullable (sigma : list char) (d : char) (l r : Node)
    (old : option bool) : res (option bool) :=
  if decide (d = c_eps) then Ok (Some true)
  else if in_str d sigma || bool_decide (d = c_hash) then Ok (Some false)
  else if decide (d = c_bar) then
    a ← get_nullable l;
    if truthy a then Ok a else get_nullable r
  else if decide (d = c_dot) then
    a ← get_nullable l;
    if truthy a then get_nullable r else Ok a
  else if in_str d (of_string "*?") then Ok (Some true)
  else if decide (d = c_plus) then get_nullable l
  else Ok old.

Definition calc_firstpos (sigma : list char) (d : char) (l r : Node)
    (position : option nat) (old : posset) : res posset :=
  if decide (d = c_eps) then Ok ∅
  else if in_str d sigma || bool_decide (d = c_hash) then Ok {[ position ]}
  else if decide (d = c_bar) then
    a ← get_firstpos l; b ← get_firstpos r; Ok (a ∪ b)
  else if decide (d = c_dot) then
    n ← get_nullable l;
    if truthy n then a ← get_firstpos l; b ← get_firstpos r; Ok (a ∪ b)
    else get_firstpos l
  else if in_str d (of_string "*+?") then get_firstpos l
  else Ok old.

Definition calc_lastpos (sigma : list char) (d : char) (l r : Node)
    (position : option nat) (old : posset) : res posset :=
  if decide (d = c_eps) then Ok ∅
  else if in_str d sigma || bool_decide (d = c_hash) then Ok {[ position ]}
  else if decide (d = c_bar) then
    a ← get_lastpos l; b ← get_lastpos r; Ok (a ∪ b)
  else if decide (d = c_dot) then
    n ← get_nullable r;
    if truthy n then a ← get_lastpos l; b ← get_lastpos r; Ok (a ∪ b)
    else get_lastpos r
  else if in_str d (of_string "*+?") then get_lastpos l
  else Ok old.

Fixpoint calculate_tree_properties (sigma : list char) (node : Node) : res Node :=
  match node with
  | PyNone => Ok PyNone
  | Obj d l r nl fp lp pos =>
      l ← calculate_tree_properties sigma l;
      r ← calculate_tree_properties sigma r;
      nl ← calc_nullable sigma d l r nl;
      fp ← calc_firstpos sigma d l r pos fp;
      lp ← calc_lastpos sigma d l r pos lp;
      Ok (Obj d l r nl fp lp pos)
  end.

(** ** [calculate_followpos]

    [self.followpos] is a [defaultdict(set)]: reading a missing key yields
    the empty set (and stores it, which no later read can tell apart from
    the key being absent).

    Like [calculate_tree_properties] the method calls itself once for each
    level of the tree; the bound that Python puts on nested calls is not
    modelled, and what is proved of the function below is proved of the
    calls that return. *)

Definition fp_get (fp : gmap (option nat) posset) (i : option nat) : posset :=
  default ∅ (fp !! i).

(** [for i in from: followpos[i] = followpos[i].union(<target>.firstpos)];
    the attribute of the loop body is read at each iteration. *)
Definition fp_add_all (target : res posset) (fp : gmap (option nat) posset)
    (from : posset) : res (gmap (option nat) posset) :=
  for_each (λ fp i, t ← target; Ok (<[ i := fp_get fp i ∪ t ]> fp)) fp (elements from).

Fixpoint calculate_followpos (fp : gmap (option nat) posset) (node : Node)
  : res (gmap (option nat) posset) :=
  match node with
  | PyNone => Ok fp
  | Obj d l r _ first last _ =>
      fp ← (if decide (d = c_dot) then
              from ← get_lastpos l; fp_add_all (get_firstpos r) fp from
            else Ok fp);
      fp ← (if in_str d (of_string "*+") then fp_add_all (Ok first) fp last
            else Ok fp);
      fp ← calculate_followpos fp l;
      calculate_followpos fp r
  end.

(** ** [parse_regex] *)

Definition with_tree (self : RegexToDFA) (tree : Node)
    (fp : gmap (option nat) posset) : RegexToDFA :=
  {| original_regex := original_regex self;
     augmented_regex := augmented_regex self;
     alphabet := alphabet self;
     pos_to_symbol := pos_to_symbol self;
     next_pos := next_pos self;
     followpos := fp;
     syntax_tree := tree;
     dfa := dfa self;
     minimized_dfa := minimized_dfa self |}.

Definition parse_regex (self : RegexToDFA) : res RegexToDFA :=
  postfix ← infix_to_postfix (augmented_regex self);
  '(tree, self) ← build_syntax_tree self postfix;
  tree ← calculate_tree_properties (alphabet self) tree;
  fp ← calculate_followpos (followpos self) tree;
  Ok (with_tree self tree fp).

(** ** [construct_dfa] *)

(** The search for the position of the end marker over [items()]. *)
Fixpoint find_end_pos (items : list (nat * char)) : option nat :=
  match items with
  | [] => None
  | (pos, symbol) :: items =>
      if decide (symbol = c_hash) then Some pos else find_end_pos items
  end.

(** [self.pos_to_symbol.get(pos)]; the keys of the table are ints. *)
Definition symbol_at (table : list (nat * char)) (pos : option nat) : option char :=
  p ← pos; dict_get table p.

(** Move(state, symbol): the union of [followpos[pos]] over the positions
    of the state mapped to the symbol. *)
Definition move (self : RegexToDFA) (current_state : posset) (symbol : char) : posset :=
  foldl (λ next pos,
           if decide (symbol_at (pos_to_symbol self) pos = Some symbol)
           then next ∪ fp_get (followpos self) pos
           else next)
        ∅ (elements current_state).

(** The variables of the loop. *)
Record construction := Construction {
  c_states : list (posset * nat);
  c_unmarked : list posset;
  c_transitions : list ((nat * char) * nat);
  c_final : gset nat
}.

(** The body of [for symbol in self.alphabet]. *)
Definition symbol_step (self : RegexToDFA) (current_state : posset)
    (st : construction) (symbol : char) : res construction :=
  let next_state := move self current_state symbol in
  if decide (next_state = ∅) then Ok st
  else
    let '(states, unmarked) :=
      match dict_get (c_states st) next_state with
      | None => (dict_set (c_states st) next_state (length (c_states st)),
                 c_unmarked st ++ [next_state])
      | Some _ => (c_states st, c_unmarked st)
      end in
    src ← dict_item states current_state;
    dest ← dict_item states next_state;
    Ok (Construction states unmarked
          (dict_set (c_transitions st) (src, symbol) dest) (c_final st)).

Fixpoint construct_loop (fuel : nat) (self : RegexToDFA) (end_pos : nat)
    (st : construction) : res construction :=
  match c_unmarked st with
  | [] => Ok st
  | current_state :: unmarked =>
      match fuel with
      | 0 => Timeout
      | S fuel =>
          final ← (if decide (Some end_pos ∈ current_state)
                   then q ← dict_item (c_states st) current_state;
                        Ok (c_final st ∪ {[ q ]})
                   else Ok (c_final st));
          st ← for_each (symbol_step self current_state)
                 (Construction (c_states st) unmarked (c_transitions st) final)
                 (alphabet self);
          construct_loop fuel self end_pos st
      end
  end.

(** The method up to the end of its [while] loop. *)
Definition construct_states (fuel : nat) (self : RegexToDFA) : res construction :=
  initial_state ← get_firstpos (syntax_tree self);
  match find_end_pos (pos_to_symbol self) with
  | None => Raise ValueError
  | Some end_pos =>
      construct_loop fuel self end_pos
        (Construction [(initial_state, 0)] [initial_state] [] ∅)
  end.

Definition with_dfa (self : RegexToDFA) (d : automaton) : RegexToDFA :=
  {| original_regex := original_regex self;
     augmented_regex := augmented_regex self;
     alphabet := alphabet self;
     pos_to_symbol := pos_to_symbol self;
     next_pos := next_pos self;
     followpos := followpos self;
     syntax_tree := syntax_tree self;
     dfa := Some d;
     minimized_dfa := minimized_dfa self |}.

Definition construct_dfa (fuel : nat) (self : RegexToDFA) : res RegexToDFA :=
  st ← construct_states fuel self;
  Ok (with_dfa self
        (Automaton (length (c_states st)) 0 (c_final st) (c_transitions st))).

(** ** [minimize_dfa] *)

(** The body of [for state in range(num_states)]. *)
Definition add_predecessor (transitions : list ((nat * char) * nat))
    (symbol : char) (current_set predecessors : gset nat) (state : nat) : gset nat :=
  match dict_get transitions (state, symbol) with
  | Some dest =>
      if decide (dest ∈ current_set) then predecessors ∪ {[ state ]}
      else predecessors
  | None => predecessors
  end.

(** The states that reach [current_set] on [symbol]. *)
Definition predecessors (transitions : list ((nat * char) * nat)) (num_states : nat)
    (symbol : char) (current_set : gset nat) : gset nat :=
  foldl (add_predecessor transitions symbol current_set) ∅ (seq 0 num_states).

(** [l.remove(x)] for an [x] that occurs in [l]. *)
Fixpoint remove_first (x : gset nat) (l : list (gset nat)) : list (gset nat) :=
  match l with
  | [] => []
  | y :: l' => if decide (y = x) then l' else y :: remove_first x l'
  end.

(** The body of [for partition in partitions]. *)
Definition split_step (predecessors : gset nat)
    (st : list (gset nat) * list (gset nat)) (partition : gset nat)
  : list (gset nat) * list (gset nat) :=
  let '(new_partitions, workset) := st in
  let intersection := partition ∩ predecessors in
  let difference := partition ∖ predecessors in
  if decide (intersection ≠ ∅ ∧ difference ≠ ∅) then
    let new_partitions := new_partitions ++ [intersection; difference] in
    if decide (partition ∈ workset) then
      (new_partitions, remove_first partition workset ++ [intersection; difference])
    else if decide (size intersection ≤ size difference) then
      (new_partitions, workset ++ [intersection])
    else
      (new_partitions, workset ++ [difference])
  else (new_partitions ++ [partition], workset).

(** The body of [for symbol in self.alphabet]. *)
Definition refine_step (transitions : list ((nat * char) * nat)) (num_states : nat)
    (current_set : gset nat) (st : list (gset nat) * list (gset nat)) (symbol : char)
  : list (gset nat) * list (gset nat) :=
  let '(partitions, workset) := st in
  foldl (split_step (predecessors transitions num_states symbol current_set))
        ([], workset) partitions.

Fixpoint refine_loop (fuel : nat) (sigma : list char)
    (transitions : list ((nat * char) * nat)) (num_states : nat)
    (partitions workset : list (gset nat)) : res (list (gset nat)) :=
  match workset with
  | [] => Ok partitions
  | current_set :: workset =>
      match fuel with
      | 0 => Timeout
      | S fuel =>
          let '(partitions, workset) :=
            foldl (refine_step transitions num_states current_set)
                  (partitions, workset) sigma in
          refine_loop fuel sigma transitions num_states partitions workset
      end
  end.

(** The two initial blocks, the empty ones dropped. *)
Definition initial_partitions (num_states : nat) (final_states : gset nat)
  : list (gset nat) :=
  filter (λ p, p ≠ ∅) [set_seq 0 num_states ∖ final_states; final_states].

(** The body of [for i, partition in enumerate(partitions)]. *)
Definition assign_block (m : gmap nat nat) (item : nat * gset nat) : gmap nat nat :=
  let '(i, partition) := item in
  foldl (λ m state, <[ state := i ]> m) m (elements partition).

(** [state_mapping], a dict that is only ever looked up. *)
Definition state_mapping (partitions : list (gset nat)) : gmap nat nat :=
  foldl assign_block ∅ (imap pair partitions).

Definition mapping_item (m : gmap nat nat) (state : nat) : res nat :=
  match m !! state with
  | Some i => Ok i
  | None => Raise KeyError
  end.

(** The body of [for (src, symbol), dest in transitions.items()]. *)
Definition remap_step (m : gmap nat nat)
    (new_transitions : list ((nat * char) * nat)) (item : (nat * char) * nat)
  : res (list ((nat * char) * nat)) :=
  let '((src, symbol), dest) := item in
  new_src ← mapping_item m src;
  new_dest ← mapping_item m dest;
  Ok (dict_set new_transitions (new_src, symbol) new_dest).

Definition remap_transitions (m : gmap nat nat)
    (transitions : list ((nat * char) * nat)) : res (list ((nat * char) * nat)) :=
  for_each (remap_step m) [] transitions.

(** The body of [for final_state in final_states]. *)
Definition remap_final_step (m : gmap nat nat) (new_final_states : gset nat)
    (final_state : nat) : res (gset nat) :=
  q ← mapping_item m final_state;
  Ok (new_final_states ∪ {[ q ]}).

Definition remap_final (m : gmap nat nat) (final_states : gset nat) : res (gset nat) :=
  for_each (remap_final_step m) ∅ (elements final_states).

Definition minimize (fuel : nat) (sigma : list char) (d : automaton) : res automaton :=
  let partitions := initial_partitions (states d) (final_states d) in
  partitions ← refine_loop fuel sigma (transitions d) (states d) partitions partitions;
  let m := state_mapping partitions in
  new_transitions ← remap_transitions m (transitions d);
  new_final_states ← remap_final m (final_states d);
  new_initial ← mapping_item m (initial d);
  Ok (Automaton (length partitions) new_initial new_final_states new_transitions).

Definition with_minimized (self : RegexToDFA) (d : automaton) : RegexToDFA :=
  {| original_regex := original_regex self;
     augmented_regex := augmented_regex self;
     alphabet := alphabet self;
     pos_to_symbol := pos_to_symbol self;
     next_pos := next_pos self;
     followpos := followpos self;
     syntax_tree := syntax_tree self;
     dfa := dfa self;
     minimized_dfa := Some d |}.

Definition minimize_dfa (fuel : nat) (self : RegexToDFA) : res RegexToDFA :=
  match dfa self with
  | None => Raise ValueError
  | Some d =>
      m ← minimize fuel (alphabet self) d;
      Ok (with_minimized self m)
  end.

(** ** [simulate_dfa] *)

(** A [for] loop whose body may [return]. *)
Inductive flow (R S : Type) :=
  | Return (r : R)
  | Continue (s : S).
Arguments Return {R S} r.
Arguments Continue {R S} s.

Fixpoint for_return {A R S : Type} (body : S → A → flow R S) (s : S) (l : list A)
  : flow R S :=
  match l with
  | [] => Continue s
  | x :: l' =>
      match body s x with
      | Return r => Return r
      | Continue s' => for_return body s' l'
      end
  end.

(** The automaton picked by the first [if] chain. *)
Definition chosen_dfa (self : RegexToDFA) (minimized : bool) : res automaton :=
  match (if minimized then minimized_dfa self else None), dfa self with
  | Some d, _ => Ok d
  | None, Some d => Ok d
  | None, None => Raise ValueError
  end.

Definition simulate_step (sigma : list char) (d : automaton)
    (current_state : nat) (c : char) : flow bool nat :=
  if negb (in_str c sigma) then Return false
  else match dict_get (transitions d) (current_state, c) with
       | Some q => Continue q
       | None => Return false
       end.

Definition simulate (sigma : list char) (d : automaton) (input_string : str) : bool :=
  match for_return (simulate_step sigma d) (initial d) input_string with
  | Return r => r
  | Continue current_state => bool_decide (current_state ∈ final_states d)
  end.

Definition simulate_dfa (self : RegexToDFA) (input_string : str) (minimized : bool)
  : res bool :=
  d ← chosen_dfa self minimized;
  Ok (simulate (alphabet self) d input_string).

(** ** [process] *)

Definition process (fuel : nat) (self : RegexToDFA) : res RegexToDFA :=
  self ← parse_regex self;
  self ← construct_dfa fuel self;
  minimize_dfa fuel self.

(** ** Definitions used to state the properties *)

(** The explicit-concatenation pass as the specification words it: a
    concatenation operator goes between two adjacent characters exactly
    when the first is neither ['('] nor ['|'] and the second is none of
    [')'], ['|'], ['*'], ['+'], ['?']. *)
Definition concat_between (c1 c2 : char) : bool :=
  negb (bool_decide (c1 = c_lparen) || bool_decide (c1 = c_bar)) &&
  negb (bool_decide (c2 = c_rparen) || bool_decide (c2 = c_bar) ||
        bool_decide (c2 = c_star) || bool_decide (c2 = c_plus) ||
        bool_decide (c2 = c_qmark)).

Fixpoint insert_concat (regex : str) : str :=
  match regex with
  | [] => []
  | c1 :: rest =>
      match rest with
      | [] => [c1]
      | c2 :: _ =>
          if concat_between c1 c2 then c1 :: c_dot :: insert_concat rest
          else c1 :: insert_concat rest
      end
  end.

(** The node stack is too short for the operator token [c]. *)
Definition stack_underflow (c : char) (stack : list Node) : Prop :=
  (c ∈ [c_star; c_plus; c_qmark] ∧ stack = []) ∨
  (c ∈ [c_bar; c_dot] ∧ length stack < 2).

(** Some token of [postfix] is consumed on a stack that is too short for
    it, the loop having started in state [st]. *)
Definition underflow_in (st : list Node * RegexToDFA) (postfix : str) : Prop :=
  ∃ pre c suf stack self',
    postfix = pre ++ c :: suf ∧
    for_each build_step st pre = Ok (stack, self') ∧
    stack_underflow c stack.

(** The number of nodes on the stack after the tokens of a postfix string
    have been consumed, counted on the tokens alone and starting from [n]
    nodes: a symbol adds a node, a unary operator puts one node for one, a
    binary operator one node for two.  [None] when an operator comes while
    the stack holds fewer nodes than it takes. *)
Fixpoint nodes_after (n : nat) (tokens : str) : option nat :=
  match tokens with
  | [] => Some n
  | c :: tokens =>
      if decide (c ∈ [c_star; c_plus; c_qmark]) then
        if decide (n = 0) then None else nodes_after n tokens
      else if decide (c ∈ [c_bar; c_dot]) then
        if decide (n < 2) then None else nodes_after (n - 1) tokens
      else nodes_after (S n) tokens
  end.

(** An operator token of [postfix] is consumed on a stack that is too
    short: a unary one on an empty stack, or a binary one on fewer than two
    nodes. *)
Definition lacks_operand (postfix : str) : Prop :=
  ∃ pre c suf n,
    postfix = pre ++ c :: suf ∧ nodes_after 0 pre = Some n ∧
    ((c ∈ [c_star; c_plus; c_qmark] ∧ n = 0) ∨ (c ∈ [c_bar; c_dot] ∧ n < 2)).

(** The conditions under which a postfix string is reported as malformed:
    an operator lacks an operand, or the tokens leave other than exactly
    one node. *)
Definition malformed (postfix : str) : Prop :=
  lacks_operand postfix ∨ ∃ n, nodes_after 0 postfix = Some n ∧ n ≠ 1.

(** The leaves of a tree from left to right, each with its symbol and its
    [position] attribute. *)
Fixpoint leaves (n : Node) : list (char * option nat) :=
  match n with
  | PyNone => []
  | Obj d l r _ _ _ pos =>
      match l, r with
      | PyNone, PyNone => [(d, pos)]
      | _, _ => leaves l ++ leaves r
      end
  end.

(** The tokens of a postfix string that are not operators. *)
Definition symbol_tokens (postfix : str) : str :=
  filter (λ c, c ∉ [c_star; c_plus; c_qmark; c_bar; c_dot]) postfix.

(** The leaves expected from a list of symbol tokens, when the next free
    position is [k]. *)
Fixpoint numbered (k : nat) (ds : str) : list (char * option nat) :=
  match ds with
  | [] => []
  | d :: ds =>
      if decide (d = c_eps) then (d, None) :: numbered k ds
      else (d, Some k) :: numbered (S k) ds
  end.

(** A leaf occurrence that is not the empty-string marker. *)
Definition real (x : char * option nat) : Prop := x.1 ≠ c_eps.

(** The table entries that a list of leaves stands for. *)
Definition table_of (L : list (char * option nat)) : list (nat * char) :=
  omap (λ x, (λ p, (p, x.1)) <$> x.2) L.

(** The leaves below a node stack, bottom of the stack first. *)
Definition stack_leaves (stack : list Node) : list (char * option nat) :=
  concat (leaves <$> reverse stack).

(** What holds of the builder's loop state once the tokens [pre] are
    consumed, for an object that started with an empty table. *)
Definition build_inv (pre : str) (st : list Node * RegexToDFA) : Prop :=
  Forall (λ n, n ≠ PyNone) st.1 ∧
  stack_leaves st.1 = numbered 1 (symbol_tokens pre) ∧
  pos_to_symbol st.2 = table_of (numbered 1 (symbol_tokens pre)) ∧
  next_pos st.2 = 1 + length (pos_to_symbol st.2).

(** The nodes of a tree, root first. *)
Fixpoint subnodes (n : Node) : list Node :=
  match n with
  | PyNone => []
  | Obj _ l r _ _ _ _ => n :: subnodes l ++ subnodes r
  end.

(** An evaluated leaf for the symbol [d] at position [p]. *)
Definition leaf (d : char) (p : nat) : Node :=
  Obj d PyNone PyNone (Some false) {[ Some p ]} {[ Some p ]} (Some p).

(** [path sigma d q w q']: reading [w] from state [q], every character
    being in the alphabet and having a transition, ends in state [q']. *)
Inductive path (sigma : list char) (d : automaton) : nat → str → nat → Prop :=
  | path_nil q : path sigma d q [] q
  | path_cons q c q' w q'' :
      c ∈ sigma →
      dict_get (transitions d) (q, c) = Some q' →
      path sigma d q' w q'' →
      path sigma d q (c :: w) q''.

(** Every position that a state of the constructed automaton can hold:
    those of the initial state and those in the range of [followpos]. *)
Definition universe (self : RegexToDFA) (initial_state : posset) : posset :=
  initial_state ∪ ⋃ (map_to_list (followpos self)).*2.

(** The pair [(S, s)] has been handled by the construction loop: [S] was
    taken off the worklist and, if it is the state [cur] being expanded,
    [s] is among the symbols [done] already treated. *)
Definition ready (self : RegexToDFA) (cur : posset) (done : list char)
    (st : construction) (S : posset) (s : char) : Prop :=
  (S ∉ c_unmarked st) ∧ s ∈ alphabet self ∧ (S = cur → s ∈ done).

(** The invariant of the construction loop; [popped] counts the states
    taken off the worklist so far. *)
Record cinv (self : RegexToDFA) (end_pos : nat) (initial_state : posset)
    (cur : posset) (done : list char) (popped : nat) (st : construction)
  : Prop := {
  ci_ids : (c_states st).*2 = seq 0 (length (c_states st));
  ci_keys : NoDup (c_states st).*1;
  ci_unmarked : NoDup (c_unmarked st);
  ci_unmarked_keys : ∀ S, S ∈ c_unmarked st → S ∈ (c_states st).*1;
  ci_count : length (c_states st) = length (c_unmarked st) + popped;
  ci_universe : ∀ S, S ∈ (c_states st).*1 → S ⊆ universe self initial_state;
  ci_initial : dict_get (c_states st) initial_state = Some 0;
  ci_trans_keys : NoDup (c_transitions st).*1;
  ci_trans : ∀ q s q',
    dict_get (c_transitions st) (q, s) = Some q' →
    ∃ S, dict_get (c_states st) S = Some q ∧ ready self cur done st S s ∧
         move self S s ≠ ∅ ∧
         dict_get (c_states st) (move self S s) = Some q';
  ci_expanded : ∀ S s q,
    ready self cur done st S s →
    dict_get (c_states st) S = Some q →
    move self S s ≠ ∅ →
    ∃ q', dict_get (c_states st) (move self S s) = Some q' ∧
          dict_get (c_transitions st) (q, s) = Some q';
  ci_final : ∀ q,
    q ∈ c_final st ↔
    ∃ S, dict_get (c_states st) S = Some q ∧ (S ∉ c_unmarked st) ∧
         Some end_pos ∈ S
}.

(** The call [r] returned the boolean [b]. *)
Definition returns (r : res bool) (b : bool) : bool :=
  match r with
  | Ok b' => bool_decide (b' = b)
  | _ => false
  end.

(** The facts checked on the outcome [r] of compiling [(a|b)*abb]. *)
Definition classic_checks (r : res RegexToDFA) : bool :=
  match r with
  | Ok final =>
      match minimized_dfa final with
      | Some m =>
          bool_decide (states m = 4) &&
          returns (simulate_dfa final (of_string "abb") true) true &&
          returns (simulate_dfa final (of_string "aabb") true) true &&
          returns (simulate_dfa final (of_string "babb") true) true &&
          returns (simulate_dfa final (of_string "ab") true) false &&
          returns (simulate_dfa final (of_string "abbb") true) false &&
          returns (simulate_dfa final (of_string "abba") true) false
      | None => false
      end
  | _ => false
  end.

(** The automaton has a functional transition table whose entries stay
    within its states, and its initial state is one of its states. *)
Definition wf_dfa (d : automaton) : Prop :=
  NoDup (transitions d).*1 ∧
  (∀ q s q', dict_get (transitions d) (q, s) = Some q' →
             q < states d ∧ q' < states d) ∧
  initial d < states d.

(** No block of [P] is cut by the predecessors of [X] on [c]. *)
Definition stable (T : list ((nat * char) * nat)) (n : nat)
    (P : list (gset nat)) (X : gset nat) (c : char) : Prop :=
  ∀ B, B ∈ P → B ⊆ predecessors T n c X ∨ B ## predecessors T n c X.

(** Every block of [P'] lies within a block of [P]. *)
Definition refines (P' P : list (gset nat)) : Prop :=
  ∀ B', B' ∈ P' → ∃ B, B ∈ P ∧ B' ⊆ B.

(** [P'] is stable for every set of the worklist and every symbol. *)
Definition wstable (T : list ((nat * char) * nat)) (n : nat) (sigma : list char)
    (P' W : list (gset nat)) : Prop :=
  ∀ X c, X ∈ W → c ∈ sigma → stable T n P' X c.

(** The invariant of the refinement loop: a refinement of [P] that is
    stable for the worklist, and for the splitter [A] on the symbols still
    to come, is stable for every block of [P]. *)
Definition hinv (T : list ((nat * char) * nat)) (n : nat) (sigma : list char)
    (P W : list (gset nat)) (A : gset nat) (rest : list char) : Prop :=
  ∀ P', refines P' P → wstable T n sigma P' W →
        (∀ c, c ∈ rest → stable T n P' A c) →
        ∀ C c, C ∈ P → c ∈ sigma → stable T n P' C c.

(** The blocks a block [B] leaves when split by [X]. *)
Definition pieces (X B : gset nat) : list (gset nat) :=
  if decide (B ∩ X ≠ ∅ ∧ B ∖ X ≠ ∅) then [B ∩ X; B ∖ X] else [B].

(** The sets of a list are pairwise disjoint. *)
Fixpoint pairwise_disjoint (P : list (gset nat)) : Prop :=
  match P with
  | [] => True
  | B :: P => (∀ B', B' ∈ P → B ## B') ∧ pairwise_disjoint P
  end.

(** [P] is a partition of [Q] into non-empty blocks. *)
Definition partition_of (P : list (gset nat)) (Q : gset nat) : Prop :=
  (∀ B, B ∈ P → B ≠ ∅) ∧ pairwise_disjoint P ∧ ⋃ P = Q.

(** The objects of the worked examples. *)
Definition classic_final : RegexToDFA :=
  match process 4 (init (of_string "(a|b)*abb") (of_string "ab")) with
  | Ok final => final
  | _ => init [] []
  end.

Definition classic_parsed : RegexToDFA :=
  match parse_regex (init (of_string "(a|b)*abb") (of_string "ab")) with
  | Ok parsed => parsed
  | _ => init [] []
  end.

Definition classic_built : RegexToDFA :=
  match construct_dfa 4 classic_parsed with
  | Ok built => built
  | _ => init [] []
  end.

Definition star_parsed : RegexToDFA :=
  match parse_regex (init (of_string "(ab)*") (of_string "ab")) with
  | Ok parsed => parsed
  | _ => init [] []
  end.

Definition eps_final : RegexToDFA :=
  match process 4 (init [97%N; c_eps] [97%N; c_eps]) with
  | Ok final => final
  | _ => init [] []
  end.

(** The child of the star node in the evaluated tree of [(ab)*]. *)
Definition star_child : Node :=
  Obj c_dot (leaf 97 1) (leaf 98 2) (Some false) {[ Some 1 ]} {[ Some 2 ]} None.

(** A two-state automaton that reads one [a]. *)
Definition one_a : automaton := Automaton 2 0 {[ 1 ]} [((0, 97%N), 1)].

(** The occurrences of ['#'] in a string. *)
Definition hashes (l : str) : str := filter (λ c, c = c_hash) l.

(** The entries of a table for the end marker. *)
Definition marker_entries (table : list (nat * char)) : list (nat * char) :=
  filter (λ x, x.2 = c_hash) table.

(** A character that the translator sends straight to its output. *)
Definition operand (c : N) : Prop :=
  c ∉ [c_lparen; c_rparen; c_bar; c_star; c_plus; c_qmark; c_dot].

(** A character other than a parenthesis. *)
Definition not_paren (c : N) : Prop := c ≠ c_lparen ∧ c ≠ c_rparen.

(** The nodes of a tree in postorder, by their [data]. *)
Fixpoint postorder (n : Node) : list N :=
  match n with
  | PyNone => []
  | Obj d l r _ _ _ _ => postorder l ++ postorder r ++ [d]
  end.

(** The parentheses of [s] match, [n] of them being open where it starts. *)
Fixpoint balanced (n : nat) (s : list N) : bool :=
  match s with
  | [] => bool_decide (n = 0)
  | c :: s =>
      if decide (c = c_lparen) then balanced (S n) s
      else if decide (c = c_rparen) then
        match n with
        | 0 => false
        | S n => balanced n s
        end
      else balanced n s
  end.

(** A tree as the builder makes them: a leaf, a unary operator over one
    tree, or a binary operator over two. *)
Fixpoint shaped (n : Node) : Prop :=
  match n with
  | PyNone => False
  | Obj d l r _ _ _ _ =>
      if in_str d [c_star; c_plus; c_qmark] then shaped l ∧ r = PyNone
      else if in_str d [c_bar; c_dot] then shaped l ∧ shaped r
      else l = PyNone ∧ r = PyNone
  end.

(** Every state of the construction other than the first was entered by a
    transition from a state numbered before it. *)
Definition rinv (self : RegexToDFA) (st : construction) : Prop :=
  ∀ S q, dict_get (c_states st) S = Some q → q ≠ 0 →
    ∃ q0 s, q0 < q ∧ s ∈ alphabet self ∧
            dict_get (c_transitions st) (q0, s) = Some q.

(** What reading [w] from state [q] gives: nothing when the simulator
    returns early, on a character outside the alphabet or without a
    transition, and otherwise whether the state reached is final. *)
Definition outcome (sigma : list N) (d : automaton) (q : nat) (w : list N)
  : option bool :=
  match for_return (simulate_step sigma d) q w with
  | Return _ => None
  | Continue q' => Some (bool_decide (q' ∈ final_states d))
  end.

(** With a state of [B], [B] holds the states of [Q] related to it. *)
Definition saturated (E : nat → nat → Prop) (Q B : gset nat) : Prop :=
  ∀ q q', q ∈ B → q' ∈ Q → E q q' → q' ∈ B.

(** ** Regular expressions and the strings they match *)

Inductive re :=
  | Eps
  | Sym (c : N)
  | Alt (r1 r2 : re)
  | Cat (r1 r2 : re)
  | Star (r : re)
  | Plus (r : re)
  | Opt (r : re).

(** The concatenations of strings of [L]. *)
Inductive star_of {A} (L : list A → Prop) : list A → Prop :=
  | star_nil : star_of L []
  | star_app u v : L u → star_of L v → star_of L (u ++ v).

Fixpoint matches (r : re) (w : list N) : Prop :=
  match r with
  | Eps => w = []
  | Sym c => w = [c]
  | Alt r1 r2 => matches r1 w ∨ matches r2 w
  | Cat r1 r2 => ∃ u v, w = u ++ v ∧ matches r1 u ∧ matches r2 v
  | Star r => star_of (matches r) w
  | Plus r => ∃ u v, w = u ++ v ∧ matches r u ∧ star_of (matches r) v
  | Opt r => w = [] ∨ matches r w
  end.

(** A character that can stand for itself in an expression: not an
    operator, a parenthesis, the end marker or the empty-string marker. *)
Definition symbol (c : N) : Prop :=
  c ∉ [c_lparen; c_rparen; c_star; c_bar; c_plus; c_qmark; c_dot; c_hash; c_eps].

(** [written l s r]: the string [s] is a way of writing [r], and can stand
    without parentheses where an operand of level [l] is expected.  The
    levels are 1 for an alternation, 2 for a concatenation, 3 for a
    repetition and 4 for a symbol or a parenthesized expression. *)
Inductive written : nat → list N → re → Prop :=
  | written_eps : written 4 [c_eps] Eps
  | written_sym c : symbol c → written 4 [c] (Sym c)
  | written_paren s r :
      written 1 s r → written 4 ([c_lparen] ++ s ++ [c_rparen]) r
  | written_star s r : written 3 s r → written 3 (s ++ [c_star]) (Star r)
  | written_plus s r : written 3 s r → written 3 (s ++ [c_plus]) (Plus r)
  | written_opt s r : written 3 s r → written 3 (s ++ [c_qmark]) (Opt r)
  | written_cat s1 r1 s2 r2 :
      written 2 s1 r1 → written 3 s2 r2 → written 2 (s1 ++ s2) (Cat r1 r2)
  | written_alt s1 r1 s2 r2 :
      written 1 s1 r1 → written 2 s2 r2 →
      written 1 (s1 ++ [c_bar] ++ s2) (Alt r1 r2)
  | written_up l s r : written (S l) s r → written l s r.

(** The symbols of an expression, from left to right. *)
Fixpoint syms (r : re) : list N :=
  match r with
  | Eps => []
  | Sym c => [c]
  | Alt r1 r2 | Cat r1 r2 => syms r1 ++ syms r2
  | Star r | Plus r | Opt r => syms r
  end.

(** The postfix form of an expression. *)
Fixpoint post (r : re) : list N :=
  match r with
  | Eps => [c_eps]
  | Sym c => [c]
  | Alt r1 r2 => post r1 ++ post r2 ++ [c_bar]
  | Cat r1 r2 => post r1 ++ post r2 ++ [c_dot]
  | Star r => post r ++ [c_star]
  | Plus r => post r ++ [c_plus]
  | Opt r => post r ++ [c_qmark]
  end.

(** The tree of an expression as the builder leaves it, its symbols
    numbered from [k]. *)
Fixpoint bare (k : nat) (r : re) : Node :=
  match r with
  | Eps => new_node c_eps
  | Sym c => Obj c PyNone PyNone None ∅ ∅ (Some k)
  | Alt r1 r2 =>
      Obj c_bar (bare k r1) (bare (k + length (syms r1)) r2) None ∅ ∅ None
  | Cat r1 r2 =>
      Obj c_dot (bare k r1) (bare (k + length (syms r1)) r2) None ∅ ∅ None
  | Star r => Obj c_star (bare k r) PyNone None ∅ ∅ None
  | Plus r => Obj c_plus (bare k r) PyNone None ∅ ∅ None
  | Opt r => Obj c_qmark (bare k r) PyNone None ∅ ∅ None
  end.

(** The top of the operator stack lets an operand of level [l] through:
    it is ['('] or binds less tightly. *)
Definition low (l : nat) (stack : list N) : Prop :=
  match stack with
  | [] => True
  | top :: _ => top = c_lparen ∨ precedence top < l
  end.

(** A character that the builder makes a numbered leaf of. *)
Definition leafy (c : N) : Prop :=
  (c ∉ [c_star; c_plus; c_qmark; c_bar; c_dot]) ∧ c ≠ c_eps.

(** ** The attributes of an expression

    [nullable], [firstpos], [lastpos] and [followpos] by their textbook
    equations, for an expression whose symbols are numbered from [k]. *)

Fixpoint re_null (r : re) : bool :=
  match r with
  | Eps => true
  | Sym _ => false
  | Alt r1 r2 => re_null r1 || re_null r2
  | Cat r1 r2 => re_null r1 && re_null r2
  | Star _ => true
  | Plus r => re_null r
  | Opt _ => true
  end.

Fixpoint re_first (k : nat) (r : re) : gset (option nat) :=
  match r with
  | Eps => ∅
  | Sym _ => {[ Some k ]}
  | Alt r1 r2 => re_first k r1 ∪ re_first (k + length (syms r1)) r2
  | Cat r1 r2 =>
      if re_null r1 then re_first k r1 ∪ re_first (k + length (syms r1)) r2
      else re_first k r1
  | Star r | Plus r | Opt r => re_first k r
  end.

Fixpoint re_last (k : nat) (r : re) : gset (option nat) :=
  match r with
  | Eps => ∅
  | Sym _ => {[ Some k ]}
  | Alt r1 r2 => re_last k r1 ∪ re_last (k + length (syms r1)) r2
  | Cat r1 r2 =>
      if re_null r2 then re_last k r1 ∪ re_last (k + length (syms r1)) r2
      else re_last (k + length (syms r1)) r2
  | Star r | Plus r | Opt r => re_last k r
  end.

Fixpoint re_follow (k : nat) (r : re) (i : option nat) : gset (option nat) :=
  match r with
  | Eps | Sym _ => ∅
  | Alt r1 r2 => re_follow k r1 i ∪ re_follow (k + length (syms r1)) r2 i
  | Cat r1 r2 =>
      (if decide (i ∈ re_last k r1) then re_first (k + length (syms r1)) r2
       else ∅) ∪
      re_follow k r1 i ∪ re_follow (k + length (syms r1)) r2 i
  | Star r | Plus r =>
      (if decide (i ∈ re_last k r) then re_first k r else ∅) ∪ re_follow k r i
  | Opt r => re_follow k r i
  end.

(** The tree of an expression with its attributes evaluated. *)
Fixpoint deco (k : nat) (r : re) : Node :=
  match r with
  | Eps => Obj c_eps PyNone PyNone (Some true) ∅ ∅ None
  | Sym c => Obj c PyNone PyNone (Some false) {[ Some k ]} {[ Some k ]} (Some k)
  | Alt r1 r2 =>
      Obj c_bar (deco k r1) (deco (k + length (syms r1)) r2)
          (Some (re_null r)) (re_first k r) (re_last k r) None
  | Cat r1 r2 =>
      Obj c_dot (deco k r1) (deco (k + length (syms r1)) r2)
          (Some (re_null r)) (re_first k r) (re_last k r) None
  | Star r1 =>
      Obj c_star (deco k r1) PyNone (Some true) (re_first k r) (re_last k r) None
  | Plus r1 =>
      Obj c_plus (deco k r1) PyNone
          (Some (re_null r)) (re_first k r) (re_last k r) None
  | Opt r1 =>
      Obj c_qmark (deco k r1) PyNone (Some true) (re_first k r) (re_last k r) None
  end.

(** The alphabet [sigma] fits the expression: it holds no operator, and
    every symbol of the expression is in it or is the end marker. *)
Definition fits (sigma : list N) (r : re) : Prop :=
  (∀ c, c ∈ [c_star; c_plus; c_qmark; c_bar; c_dot] → c ∉ sigma) ∧
  Forall (λ c, (c ∈ sigma ∨ c = c_hash) ∧ c ≠ c_eps) (syms r).

(** The words of positions of an expression whose symbols are numbered
    from [k]: those it matches, each symbol being read as its position. *)
Fixpoint marked (k : nat) (r : re) (u : list nat) : Prop :=
  match r with
  | Eps => u = []
  | Sym _ => u = [k]
  | Alt r1 r2 => marked k r1 u ∨ marked (k + length (syms r1)) r2 u
  | Cat r1 r2 =>
      ∃ a b, u = a ++ b ∧ marked k r1 a ∧ marked (k + length (syms r1)) r2 b
  | Star r => star_of (marked k r) u
  | Plus r => ∃ a b, u = a ++ b ∧ marked k r a ∧ star_of (marked k r) b
  | Opt r => u = [] ∨ marked k r u
  end.

(** The word of positions [u] is spelled [w] by the table. *)
Definition spells (table : list (nat * N)) (u : list nat) (w : list N) : Prop :=
  Forall2 (λ p c, dict_get table p = Some c) u w.

(** The table gives the symbols of an expression numbered from [k]. *)
Definition labelled (table : list (nat * N)) (k : nat) (r : re) : Prop :=
  ∀ i c, syms r !! i = Some c → dict_get table (k + i) = Some c.

(** The set of positions reached from the set [S] by the moves on the
    characters of [w]. *)
Definition after (self : RegexToDFA) (S : gset (option nat)) (w : list N)
  : gset (option nat) :=
  foldl (move self) S w.

(** The expression that ["(a|b)*abb"] writes. *)
Definition classic_re : re :=
  Cat (Cat (Cat (Star (Alt (Sym 97%N) (Sym 98%N))) (Sym 97%N)) (Sym 98%N))
      (Sym 98%N).

(** The tree that the builder makes of it, and the object it leaves. *)
Definition classic_tree : Node * RegexToDFA :=
  match build_syntax_tree (init (of_string "(a|b)*abb") (of_string "ab"))
          (post (Cat classic_re (Sym c_hash))) with
  | Ok built => built
  | _ => (PyNone, init [] [])
  end.



(** * Properties *)

(** ** Generic facts on loops and dictionaries *)

Lemma for_each_app {A S} (body : S → A → res S) s l1 l2 :
  for_each body s (l1 ++ l2) = (s' ← for_each body s l1; for_each body s' l2).
Proof.
  revert s. induction l1 as [|x l1 IH]; intros s; simpl; [done|].
  destruct (body s x); simpl; auto.
Qed.

Lemma for_each_cons {A S} (body : S → A → res S) s x l :
  for_each body s (x :: l) = (s' ← body s x; for_each body s' l).
Proof. reflexivity. Qed.

Lemma in_str_true c s : in_str c s = true ↔ c ∈ s.
Proof. unfold in_str. apply bool_decide_eq_true. Qed.

Lemma in_str_false c s : in_str c s = false ↔ c ∉ s.
Proof. unfold in_str. apply bool_decide_eq_false. Qed.

(** ** Explicit concatenation *)

Lemma in_str_cons c x s :
  in_str c (x :: s) = bool_decide (c = x) || in_str c s.
Proof.
  unfold in_str. rewrite <- bool_decide_or. apply bool_decide_ext.
  apply elem_of_cons.
Qed.

Lemma in_str_nil c : in_str c [] = false.
Proof. apply in_str_false, not_elem_of_nil. Qed.

Lemma concat_between_test c1 c2 :
  concat_between c1 c2 =
  negb (in_str c1 (of_string "(|")) && negb (in_str c2 (of_string ")|*+?")).
Proof.
  unfold concat_between.
  change (of_string "(|") with [c_lparen; c_bar].
  change (of_string ")|*+?") with [c_rparen; c_bar; c_star; c_plus; c_qmark].
  rewrite !in_str_cons, !in_str_nil, !orb_false_r, !orb_assoc. reflexivity.
Qed.

Lemma index_app_r {A} (pre suf : list A) x :
  index (pre ++ x :: suf) (length pre) = Ok x.
Proof. unfold index. by rewrite list_lookup_middle. Qed.

Lemma explicit_step_eq regex acc i c1 c2 :
  index regex i = Ok c1 → index regex (i + 1) = Ok c2 →
  explicit_step regex acc i
  = Ok (acc ++ c1 :: (if concat_between c1 c2 then [c_dot] else [])).
Proof.
  intros Hi Hj. unfold explicit_step. rewrite Hi. simpl.
  rewrite concat_between_test.
  destruct (negb (in_str c1 _)); simpl; [|done].
  rewrite Hj. simpl.
  destruct (negb (in_str c2 _)); simpl; [|done].
  by rewrite <- app_assoc.
Qed.

Lemma explicit_loop pre suf acc :
  suf ≠ [] →
  ∃ explicit_regex,
    for_each (explicit_step (pre ++ suf)) acc (seq (length pre) (length suf - 1))
      = Ok explicit_regex ∧
    ∃ c, last suf = Some c ∧ explicit_regex ++ [c] = acc ++ insert_concat suf.
Proof.
  revert pre acc. induction suf as [|c1 rest IH]; intros pre acc Hne; [done|].
  destruct rest as [|c2 rest].
  - simpl. exists acc. split; [done|]. by exists c1.
  - replace (length (c1 :: c2 :: rest) - 1) with (S (length (c2 :: rest) - 1))
      by (simpl; lia).
    cbn [seq for_each].
    assert (Hi : index (pre ++ c1 :: c2 :: rest) (length pre) = Ok c1)
      by apply index_app_r.
    assert (Hj : index (pre ++ c1 :: c2 :: rest) (length pre + 1) = Ok c2).
    { replace (pre ++ c1 :: c2 :: rest) with ((pre ++ [c1]) ++ c2 :: rest)
        by (by rewrite <- app_assoc).
      replace (length pre + 1) with (length (pre ++ [c1]))
        by (rewrite length_app; simpl; lia).
      apply index_app_r. }
    destruct (IH (pre ++ [c1])
                (acc ++ [c1] ++ (if concat_between c1 c2 then [c_dot] else [])))
      as (e & He & c & Hc & Heq); [done|].
    rewrite <- app_assoc in He. simpl in He.
    rewrite length_app in He. simpl in He.
    replace (length pre + 1) with (S (length pre)) in He by lia.
    exists e. split.
    + rewrite (explicit_step_eq _ _ _ _ _ Hi Hj). simpl.
      rewrite <- He. reflexivity.
    + exists c. split; [done|]. rewrite Heq.
      change (insert_concat (c1 :: c2 :: rest)) with
        (if concat_between c1 c2 then c1 :: c_dot :: insert_concat (c2 :: rest)
         else c1 :: insert_concat (c2 :: rest)).
      destruct (concat_between c1 c2); by rewrite <- app_assoc.
Qed.

Lemma explicit_concat_nonempty regex :
  regex ≠ [] → explicit_concat regex = Ok (insert_concat regex).
Proof.
  intros Hne. unfold explicit_concat.
  destruct (explicit_loop [] regex [] Hne) as (e & He & c & Hc & Heq).
  simpl in He. rewrite He. simpl. rewrite Hc. by rewrite Heq.
Qed.

(** C6: on the augmented expression the explicit-concatenation pass returns
    the characters of its input in order, with a concatenation operator
    between two adjacent characters [c1], [c2] exactly when [c1] is neither
    ['('] nor ['|'] and [c2] is none of [')'], ['|'], ['*'], ['+'], ['?']
    (this is [insert_concat]); the translator then runs on that string. *)
Theorem explicit_concat_augmented (regex : str) (order : list char) :
  explicit_concat (augmented_regex (init regex order))
  = Ok (insert_concat (augmented_regex (init regex order))).
Proof. apply explicit_concat_nonempty. by simpl. Qed.

(** ** The syntax-tree builder and its errors *)

Lemma build_step_cases stack self c :
  (build_step (stack, self) c = Raise ValueError ∧ stack_underflow c stack) ∨
  (∃ st', build_step (stack, self) c = Ok st' ∧ ¬ stack_underflow c stack).
Proof.
  unfold build_step, stack_underflow.
  change (of_string "*+?") with [c_star; c_plus; c_qmark].
  destruct (in_str c [c_star; c_plus; c_qmark]) eqn:Hu.
  { apply in_str_true in Hu. destruct stack as [|child stack].
    - left. auto.
    - right. eexists. split; [done|]. intros [[_ ?]|[Hb _]]; [done|].
      revert Hu Hb. rewrite !elem_of_cons, !elem_of_nil.
      unfold c_star, c_plus, c_qmark, c_bar, c_dot.
      intros [->|[->|[->|[]]]] [?|[?|[]]]; done. }
  apply in_str_false in Hu.
  destruct (in_str c [c_bar; c_dot]) eqn:Hb.
  { apply in_str_true in Hb. destruct stack as [|r [|l stack]].
    - left. split; [done|]. right. simpl. split; [done|lia].
    - left. split; [done|]. right. simpl. split; [done|lia].
    - right. eexists. split; [done|]. intros [[? _]|[_ Hl]]; [done|].
      simpl in Hl. lia. }
  apply in_str_false in Hb.
  right. destruct (decide (c ≠ c_eps)); eexists; (split; [done|]);
    intros [[? _]|[? _]]; done.
Qed.

Lemma build_loop_cases st postfix :
  (for_each build_step st postfix = Raise ValueError ∧ underflow_in st postfix) ∨
  (∃ st', for_each build_step st postfix = Ok st' ∧ ¬ underflow_in st postfix).
Proof.
  revert st. induction postfix as [|c l IH]; intros [stack self].
  { right. exists (stack, self). split; [done|].
    intros (pre & c & suf & ? & ? & Heq & _). by destruct pre. }
  destruct (build_step_cases stack self c) as [[Hr Hu]|(st' & Hs & Hu)].
  { left. split; [by rewrite for_each_cons, Hr|].
    exists [], c, l, stack, self. done. }
  destruct (IH st') as [[Hr (pre & c' & suf & stk & slf & -> & Hpre & Hu')]
                       |(st'' & Hok & Hno)].
  - left. split; [by rewrite for_each_cons, Hs|].
    exists (c :: pre), c', suf, stk, slf. split; [done|].
    split; [by rewrite for_each_cons, Hs|done].
  - right. exists st''. split; [by rewrite for_each_cons, Hs|].
    intros (pre & c' & suf & stk & slf & Heq & Hpre & Hu').
    destruct pre as [|c0 pre]; simpl in Heq; simplify_eq.
    + simpl in Hpre. by simplify_eq.
    + apply Hno. exists pre, c', suf, stk, slf. split; [done|].
      rewrite for_each_cons, Hs in Hpre. done.
Qed.

(** ** Inversion of monadic code *)

Lemma bind_Ok {A B} (m : res A) (f : A → res B) b :
  m ≫= f = Ok b → ∃ a, m = Ok a ∧ f a = Ok b.
Proof. destruct m as [a| |]; simpl; [by exists a|done..]. Qed.

Ltac inv_bind H :=
  let a := fresh "x" in
  let H1 := fresh H in
  apply bind_Ok in H; destruct H as (a & H1 & H).

(** ** Position assignment *)

Lemma table_of_some d p L : table_of ((d, Some p) :: L) = (p, d) :: table_of L.
Proof. reflexivity. Qed.

Lemma table_of_none d L : table_of ((d, None) :: L) = table_of L.
Proof. reflexivity. Qed.

Lemma table_of_app L1 L2 : table_of (L1 ++ L2) = table_of L1 ++ table_of L2.
Proof. unfold table_of. apply omap_app. Qed.

Lemma numbered_snoc k ds d :
  numbered k (ds ++ [d]) =
  numbered k ds ++
  [(d, if decide (d = c_eps) then None
       else Some (k + length (table_of (numbered k ds))))].
Proof.
  revert k. induction ds as [|d' ds IH]; intros k; cbn [numbered app].
  - destruct (decide (d = c_eps)); [done|]. by rewrite Nat.add_0_r.
  - destruct (decide (d' = c_eps)); rewrite IH.
    + by rewrite table_of_none.
    + rewrite table_of_some. cbn [length app].
      destruct (decide (d = c_eps)); [done|].
      by rewrite Nat.add_succ_r.
Qed.

Lemma numbered_keys k ds p c :
  (p, c) ∈ table_of (numbered k ds) →
  k ≤ p < k + length (table_of (numbered k ds)).
Proof.
  revert k. induction ds as [|d ds IH]; intros k; simpl.
  - by intros ?%elem_of_nil.
  - destruct (decide (d = c_eps)).
    + rewrite table_of_none. apply IH.
    + rewrite table_of_some. simpl.
      intros [?|Hin]%elem_of_cons; [simplify_eq; lia|].
      apply IH in Hin. lia.
Qed.

Lemma numbered_real_positions k ds :
  (filter real (numbered k ds)).*2 =
  Some <$> seq k (length (filter real (numbered k ds))).
Proof.
  revert k. induction ds as [|d ds IH]; intros k; simpl; [done|].
  destruct (decide (d = c_eps)).
  - rewrite filter_cons_False by (unfold real; simpl; tauto). apply IH.
  - rewrite filter_cons_True by done. simpl. by rewrite IH.
Qed.

Lemma numbered_table k ds :
  table_of (numbered k ds) =
  zip (seq k (length (filter real (numbered k ds))))
      (filter real (numbered k ds)).*1.
Proof.
  revert k. induction ds as [|d ds IH]; intros k; simpl; [done|].
  destruct (decide (d = c_eps)).
  - rewrite filter_cons_False by (unfold real; simpl; tauto).
    rewrite table_of_none. apply IH.
  - rewrite filter_cons_True by done. rewrite table_of_some. simpl.
    f_equal. apply IH.
Qed.

Lemma numbered_eps k ds d p :
  (d, p) ∈ numbered k ds → d = c_eps → p = None.
Proof.
  revert k. induction ds as [|d' ds IH]; intros k; simpl.
  - by intros ?%elem_of_nil.
  - destruct (decide (d' = c_eps));
      intros [?|Hin]%elem_of_cons ?; simplify_eq; eauto.
Qed.

Lemma numbered_symbols k ds : (numbered k ds).*1 = ds.
Proof.
  revert k. induction ds as [|d ds IH]; intros k; simpl; [done|].
  destruct (decide (d = c_eps)); simpl; by rewrite IH.
Qed.

Lemma dict_set_fresh {K V} `{EqDecision K} (d : list (K * V)) k v :
  k ∉ d.*1 → dict_set d k v = d ++ [(k, v)].
Proof.
  induction d as [|[k' v'] d IH]; simpl; [done|].
  intros Hk. apply not_elem_of_cons in Hk as [? ?].
  destruct (decide (k' = k)); [done|]. by rewrite IH.
Qed.

Lemma stack_leaves_cons n stack :
  stack_leaves (n :: stack) = stack_leaves stack ++ leaves n.
Proof.
  unfold stack_leaves. rewrite reverse_cons, fmap_app, concat_app. simpl.
  by rewrite app_nil_r.
Qed.

Lemma leaves_unary d child nl fp lp pos :
  child ≠ PyNone → leaves (Obj d child PyNone nl fp lp pos) = leaves child.
Proof. destruct child; [done|]. intros _. simpl. by rewrite app_nil_r. Qed.

Lemma leaves_binary d l r nl fp lp pos :
  l ≠ PyNone → leaves (Obj d l r nl fp lp pos) = leaves l ++ leaves r.
Proof. by destruct l. Qed.

Lemma symbol_tokens_snoc pre c :
  symbol_tokens (pre ++ [c]) =
  symbol_tokens pre ++
  (if decide (c ∈ [c_star; c_plus; c_qmark; c_bar; c_dot]) then [] else [c]).
Proof.
  unfold symbol_tokens. rewrite filter_app. f_equal.
  destruct (decide (c ∈ _)).
  - by rewrite filter_cons_False by tauto.
  - by rewrite filter_cons_True.
Qed.

Lemma unary_is_operator c :
  c ∈ [c_star; c_plus; c_qmark] → c ∈ [c_star; c_plus; c_qmark; c_bar; c_dot].
Proof. rewrite !elem_of_cons. tauto. Qed.

Lemma binary_is_operator c :
  c ∈ [c_bar; c_dot] → c ∈ [c_star; c_plus; c_qmark; c_bar; c_dot].
Proof. rewrite !elem_of_cons. tauto. Qed.

Lemma symbol_not_operator c :
  c ∉ [c_star; c_plus; c_qmark] → c ∉ [c_bar; c_dot] →
  c ∉ [c_star; c_plus; c_qmark; c_bar; c_dot].
Proof. rewrite !elem_of_cons. tauto. Qed.

Lemma build_step_inv pre st c st' :
  build_inv pre st → build_step st c = Ok st' → build_inv (pre ++ [c]) st'.
Proof.
  destruct st as [stack self]. intros (Hobj & Hleaves & Htable & Hnext).
  simpl in Hobj, Hleaves, Htable, Hnext. unfold build_step, build_inv.
  change (of_string "*+?") with [c_star; c_plus; c_qmark].
  rewrite symbol_tokens_snoc.
  destruct (in_str c [c_star; c_plus; c_qmark]) eqn:Hu.
  { apply in_str_true in Hu.
    destruct (decide (c ∈ [c_star; c_plus; c_qmark; c_bar; c_dot]));
      [|exfalso; eauto using unary_is_operator].
    rewrite app_nil_r.
    destruct stack as [|child stack]; cbv iota; [done|]. intros [= <-].
    apply Forall_cons in Hobj as [Hc Hobj].
    split_and!; simpl; [by constructor| |done..].
    rewrite stack_leaves_cons in *. by rewrite leaves_unary. }
  destruct (in_str c [c_bar; c_dot]) eqn:Hb.
  { apply in_str_true in Hb.
    destruct (decide (c ∈ [c_star; c_plus; c_qmark; c_bar; c_dot]));
      [|exfalso; eauto using binary_is_operator].
    rewrite app_nil_r.
    destruct stack as [|r [|l stack]]; cbv iota; [done..|]. intros [= <-].
    apply Forall_cons in Hobj as [Hr Hobj].
    apply Forall_cons in Hobj as [Hl Hobj].
    split_and!; simpl; [by constructor| |done..].
    rewrite !stack_leaves_cons in *. rewrite leaves_binary by done.
    by rewrite app_assoc. }
  apply in_str_false in Hu. apply in_str_false in Hb.
  destruct (decide (c ∈ [c_star; c_plus; c_qmark; c_bar; c_dot]));
    [exfalso; by eapply symbol_not_operator|].
  rewrite numbered_snoc. cbv iota.
  destruct (decide (c ≠ c_eps)) as [Hc|Hc]; intros [= <-].
  - rewrite decide_False by done.
    split_and!; simpl.
    + by constructor.
    + rewrite stack_leaves_cons. simpl. rewrite Hleaves, Hnext, Htable. done.
    + rewrite table_of_app, <- Htable. cbn [table_of omap]. simpl.
      rewrite Hnext. apply dict_set_fresh.
      rewrite Htable. intros Hin.
      apply list_elem_of_fmap in Hin as ([p c'] & Hp & Hin). simpl in Hp.
      apply numbered_keys in Hin. lia.
    + rewrite dict_set_fresh.
      * rewrite length_app. simpl. lia.
      * rewrite Htable, Hnext, Htable. intros Hin.
        apply list_elem_of_fmap in Hin as ([p c'] & Hp & Hin). simpl in Hp.
        apply numbered_keys in Hin. lia.
  - apply dec_stable in Hc. rewrite decide_True by done.
    split_and!; simpl.
    + by constructor.
    + rewrite stack_leaves_cons. simpl. by rewrite Hleaves.
    + rewrite table_of_app. simpl. by rewrite app_nil_r.
    + done.
Qed.

Lemma build_loop_inv pre st l st' :
  build_inv pre st → for_each build_step st l = Ok st' → build_inv (pre ++ l) st'.
Proof.
  revert pre st. induction l as [|c l IH]; intros pre st Hinv Hrun.
  - simpl in Hrun. simplify_eq. by rewrite app_nil_r.
  - rewrite for_each_cons in Hrun. inv_bind Hrun.
    replace (pre ++ c :: l) with ((pre ++ [c]) ++ l) by (by rewrite <- app_assoc).
    eapply IH; [|done]. by eapply build_step_inv.
Qed.

Lemma build_inv_init regex order : build_inv [] ([], init regex order).
Proof. split_and!; simpl; by try constructor. Qed.

Lemma calculate_tree_properties_leaves sigma t t' :
  calculate_tree_properties sigma t = Ok t' →
  (t' = PyNone ↔ t = PyNone) ∧ leaves t' = leaves t.
Proof.
  revert t'. induction t as [|d l IHl r IHr nl fp lp pos]; intros t' H.
  - simpl in H. by simplify_eq.
  - cbn [calculate_tree_properties] in H.
    inv_bind H. inv_bind H. inv_bind H. inv_bind H. inv_bind H.
    simplify_eq.
    destruct (IHl _ H0) as [Hl1 Hl2]. destruct (IHr _ H1) as [Hr1 Hr2].
    split; [done|]. cbn [leaves]. rewrite Hl2, Hr2.
    destruct l, x; try (by intuition congruence);
      destruct r, x0; try done; by intuition congruence.
Qed.

Lemma parse_regex_inv self parsed :
  parse_regex self = Ok parsed →
  ∃ postfix root built tree fp,
    infix_to_postfix (augmented_regex self) = Ok postfix ∧
    build_syntax_tree self postfix = Ok (root, built) ∧
    calculate_tree_properties (alphabet built) root = Ok tree ∧
    calculate_followpos (followpos built) tree = Ok fp ∧
    parsed = with_tree built tree fp.
Proof.
  unfold parse_regex. intros H.
  inv_bind H. inv_bind H. destruct x0 as [root built].
  inv_bind H. inv_bind H. simplify_eq.
  by exists x, root, built, x0, x1.
Qed.

Lemma build_syntax_tree_inv self postfix root built :
  build_syntax_tree self postfix = Ok (root, built) →
  for_each build_step ([], self) postfix = Ok ([root], built).
Proof.
  unfold build_syntax_tree. intros H. inv_bind H. destruct x as [stack s].
  destruct stack as [|n [|? ?]]; by simplify_eq.
Qed.

Lemma build_step_alphabet st c st' :
  build_step st c = Ok st' → alphabet st'.2 = alphabet st.2.
Proof.
  destruct st as [stack self]. unfold build_step. intros H.
  repeat case_match; by simplify_eq.
Qed.

Lemma process_inv fuel self final :
  process fuel self = Ok final →
  ∃ parsed built,
    parse_regex self = Ok parsed ∧
    construct_dfa fuel parsed = Ok built ∧
    minimize_dfa fuel built = Ok final.
Proof.
  unfold process. intros H. inv_bind H. inv_bind H. by exists x, x0.
Qed.

Lemma construct_dfa_inv fuel self built :
  construct_dfa fuel self = Ok built →
  ∃ st, construct_states fuel self = Ok st ∧
        built = with_dfa self (Automaton (length (c_states st)) 0
                                 (c_final st) (c_transitions st)).
Proof. unfold construct_dfa. intros H. inv_bind H. simplify_eq. eauto. Qed.

Lemma minimize_dfa_inv fuel self final :
  minimize_dfa fuel self = Ok final →
  ∃ d m, dfa self = Some d ∧ minimize fuel (alphabet self) d = Ok m ∧
         final = with_minimized self m.
Proof.
  unfold minimize_dfa. destruct (dfa self) as [d|]; [|done].
  intros H. inv_bind H. simplify_eq. eauto.
Qed.

(** C8: when the pipeline succeeds on an expression, the leaves of the
    tree, read from left to right, are the symbol tokens in the order the
    builder consumed them; the leaves other than the empty-string marker
    carry the positions 1, 2, ..., N in that order and the marker leaves
    carry none; the position-to-symbol table is exactly this numbering; and
    the table at the end of the pipeline is the one the builder left. *)
Theorem position_assignment (regex : str) (order : list char) (fuel : nat)
    (final : RegexToDFA) :
  process fuel (init regex order) = Ok final →
  ∃ postfix root built,
    infix_to_postfix (augmented_regex (init regex order)) = Ok postfix ∧
    build_syntax_tree (init regex order) postfix = Ok (root, built) ∧
    (leaves root).*1 = symbol_tokens postfix ∧
    (filter real (leaves root)).*2
      = Some <$> seq 1 (length (filter real (leaves root))) ∧
    (∀ d p, (d, p) ∈ leaves root → d = c_eps → p = None) ∧
    pos_to_symbol built
      = zip (seq 1 (length (filter real (leaves root))))
            (filter real (leaves root)).*1 ∧
    next_pos built = 1 + length (filter real (leaves root)) ∧
    leaves (syntax_tree final) = leaves root ∧
    pos_to_symbol final = pos_to_symbol built.
Proof.
  intros H.
  apply process_inv in H as (parsed & constructed & Hparse & Hdfa & Hmin).
  apply parse_regex_inv in Hparse
    as (postfix & root & built & tree & fp & Hpost & Hbuild & Htree & Hfp & ->).
  apply construct_dfa_inv in Hdfa as (st & _ & ->).
  apply minimize_dfa_inv in Hmin as (d & m & _ & _ & ->).
  exists postfix, root, built. split; [done|]. split; [done|].
  pose proof (build_loop_inv [] _ _ _ (build_inv_init regex order)
                (build_syntax_tree_inv _ _ _ _ Hbuild))
    as (_ & Hleaves & Htable & Hnext).
  simpl in Hleaves, Htable, Hnext.
  unfold stack_leaves in Hleaves. simpl in Hleaves.
  rewrite app_nil_r in Hleaves.
  split_and!; simpl.
  - by rewrite Hleaves, numbered_symbols.
  - rewrite Hleaves. apply numbered_real_positions.
  - intros c p. rewrite Hleaves. apply numbered_eps.
  - rewrite Htable, Hleaves. apply numbered_table.
  - rewrite Hnext, Htable, Hleaves, numbered_table.
    rewrite length_zip_with, length_seq, length_fmap. lia.
  - by apply calculate_tree_properties_leaves in Htree as [_ ->].
  - done.
Qed.

(** ** Attributes of the repetition nodes *)

Lemma unary_cases d :
  d ∈ [c_star; c_plus; c_qmark] → d = c_star ∨ d = c_plus ∨ d = c_qmark.
Proof. rewrite !elem_of_cons, elem_of_nil. tauto. Qed.

Lemma calc_nullable_unary sigma d l r old :
  d ∈ [c_star; c_plus; c_qmark] → in_str d sigma = false →
  calc_nullable sigma d l r old
  = if decide (d = c_plus) then get_nullable l else Ok (Some true).
Proof.
  intros [->|[->| ->]]%unary_cases Hs; unfold calc_nullable; rewrite Hs;
    reflexivity.
Qed.

Lemma calc_firstpos_unary sigma d l r pos old :
  d ∈ [c_star; c_plus; c_qmark] → in_str d sigma = false →
  calc_firstpos sigma d l r pos old = get_firstpos l.
Proof.
  intros [->|[->| ->]]%unary_cases Hs; unfold calc_firstpos; rewrite Hs;
    reflexivity.
Qed.

Lemma calc_lastpos_unary sigma d l r pos old :
  d ∈ [c_star; c_plus; c_qmark] → in_str d sigma = false →
  calc_lastpos sigma d l r pos old = get_lastpos l.
Proof.
  intros [->|[->| ->]]%unary_cases Hs; unfold calc_lastpos; rewrite Hs;
    reflexivity.
Qed.

Lemma calculate_tree_properties_unary sigma t t' :
  (∀ d, d ∈ [c_star; c_plus; c_qmark] → d ∉ sigma) →
  calculate_tree_properties sigma t = Ok t' →
  ∀ d c r nl fp lp pos,
    Obj d c r nl fp lp pos ∈ subnodes t' →
    d ∈ [c_star; c_plus; c_qmark] →
    get_firstpos c = Ok fp ∧ get_lastpos c = Ok lp ∧
    (if decide (d = c_plus) then get_nullable c = Ok nl else nl = Some true).
Proof.
  intros Hsigma. revert t'.
  induction t as [|d0 l IHl r0 IHr nl0 fp0 lp0 pos0]; intros t' H.
  { simpl in H. simplify_eq. intros ??????? Hin. by apply elem_of_nil in Hin. }
  cbn [calculate_tree_properties] in H.
  inv_bind H. inv_bind H. inv_bind H. inv_bind H. inv_bind H. simplify_eq.
  intros d c r nl fp lp pos Hin Hd. cbn [subnodes] in Hin.
  apply elem_of_cons in Hin as [Heq|Hin].
  - inversion Heq; subst; clear Heq.
    assert (Hs : in_str d0 sigma = false) by (apply in_str_false; auto).
    rewrite calc_nullable_unary in H2 by done.
    rewrite calc_firstpos_unary in H3 by done.
    rewrite calc_lastpos_unary in H4 by done.
    split_and!; [done..|].
    destruct (decide (d0 = c_plus)); [done|congruence].
  - apply elem_of_app in Hin as [Hin|Hin]; eauto.
Qed.

Lemma build_loop_alphabet st l st' :
  for_each build_step st l = Ok st' → alphabet st'.2 = alphabet st.2.
Proof.
  revert st. induction l as [|c l IH]; intros st H.
  - simpl in H. by simplify_eq.
  - rewrite for_each_cons in H. inv_bind H.
    rewrite (IH _ H), (build_step_alphabet _ _ _ H0). done.
Qed.

Lemma alphabet_chars_not_meta regex c :
  c ∈ alphabet_chars regex →
  c ∉ [c_lparen; c_rparen; c_star; c_bar; c_plus; c_qmark; c_dot; c_hash].
Proof.
  unfold alphabet_chars. intros [Hc _]%list_elem_of_filter.
  by apply in_str_false in Hc.
Qed.

(** C2, as amended: after the attribute evaluator has run on the tree of an
    expression, every node [*], [+] or [?] with child [C] has the
    [firstpos] of [C] as its [firstpos] and the [lastpos] of [C] as its
    [lastpos]; its [nullable] is that of [C] for [+] and true for [*] and
    [?]. *)
Theorem repetition_attributes (regex : str) (order : list char)
    (parsed : RegexToDFA) :
  set_order (alphabet_chars regex) order →
  parse_regex (init regex order) = Ok parsed →
  ∀ d c r nl fp lp pos,
    Obj d c r nl fp lp pos ∈ subnodes (syntax_tree parsed) →
    d ∈ [c_star; c_plus; c_qmark] →
    get_firstpos c = Ok fp ∧ get_lastpos c = Ok lp ∧
    (if decide (d = c_plus) then get_nullable c = Ok nl else nl = Some true).
Proof.
  intros [_ Horder] Hparse.
  apply parse_regex_inv in Hparse
    as (postfix & root & built & tree & fp & _ & Hbuild & Htree & _ & ->).
  apply build_syntax_tree_inv, build_loop_alphabet in Hbuild.
  simpl in Hbuild. rewrite Hbuild in Htree. simpl.
  eapply calculate_tree_properties_unary; [|done].
  intros d Hd Hin. apply Horder, alphabet_chars_not_meta in Hin.
  apply Hin. revert Hd. rewrite !elem_of_cons. tauto.
Qed.

(** C2, as stated, fails on the expression [(ab)*]: in the evaluated tree
    the star node has [lastpos] {2}, which is the [lastpos] of its child
    and not the child's [firstpos] {1}. *)
Lemma repetition_lastpos_counterexample :
  ∃ parsed,
    parse_regex (init (of_string "(ab)*") (of_string "ab")) = Ok parsed ∧
    syntax_tree parsed =
      Obj c_dot
        (Obj c_star
           (Obj c_dot (leaf 97 1) (leaf 98 2)
              (Some false) {[ Some 1 ]} {[ Some 2 ]} None)
           PyNone (Some true) {[ Some 1 ]} {[ Some 2 ]} None)
        (leaf c_hash 3)
        (Some false) {[ Some 1; Some 3 ]} {[ Some 3 ]} None ∧
    ({[ Some 2 ]} : gset (option nat)) ≠ {[ Some 1 ]}.
Proof.
  eexists. split; [vm_compute; reflexivity|].
  split; [vm_compute; reflexivity|].
  intros Heq. assert (Hin : Some 2 ∈ ({[ Some 1 ]} : gset (option nat)))
    by (rewrite <- Heq; by apply elem_of_singleton).
  apply elem_of_singleton in Hin. discriminate.
Qed.

(** ** The simulator *)

Lemma path_deterministic sigma d q w q1 q2 :
  path sigma d q w q1 → path sigma d q w q2 → q1 = q2.
Proof.
  intros H1. revert q2. induction H1; intros q2 H2; inversion H2; subst.
  - done.
  - apply IHpath. congruence.
Qed.

Lemma path_app_inv sigma d q w1 w2 q' :
  path sigma d q (w1 ++ w2) q' →
  ∃ q1, path sigma d q w1 q1 ∧ path sigma d q1 w2 q'.
Proof.
  revert q. induction w1 as [|c w1 IH]; intros q; simpl.
  - intros H. exists q. split; [constructor|done].
  - intros H. inversion H as [|? ? q2 ? ? Hc Ht Hp]; subst.
    destruct (IH _ Hp) as (q1 & ? & ?). exists q1. split; [|done].
    by econstructor.
Qed.

Lemma simulate_loop_path sigma d w q :
  match for_return (simulate_step sigma d) q w with
  | Return r => r = false ∧ ¬ ∃ q', path sigma d q w q'
  | Continue q' => path sigma d q w q'
  end.
Proof.
  revert q. induction w as [|c w IH]; intros q; simpl.
  - constructor.
  - unfold simulate_step at 1.
    destruct (in_str c sigma) eqn:Hc; simpl.
    + apply in_str_true in Hc.
      destruct (dict_get (transitions d) (q, c)) as [q'|] eqn:Ht.
      * specialize (IH q').
        destruct (for_return (simulate_step sigma d) q' w) as [r|q''].
        -- destruct IH as [-> Hno]. split; [done|].
           intros [q'' Hp]. inversion Hp; subst. apply Hno.
           exists q''. congruence.
        -- by econstructor.
      * split; [done|]. intros [q'' Hp]. inversion Hp; subst. congruence.
    + apply in_str_false in Hc. split; [done|].
      intros [q'' Hp]. by inversion Hp; subst.
Qed.

Lemma simulate_true sigma d w :
  simulate sigma d w = true ↔
  ∃ q, path sigma d (initial d) w q ∧ q ∈ final_states d.
Proof.
  unfold simulate. pose proof (simulate_loop_path sigma d w (initial d)) as H.
  destruct (for_return (simulate_step sigma d) (initial d) w) as [r|q].
  - destruct H as [-> Hno]. split; [done|]. intros (q & Hp & _).
    destruct Hno. eauto.
  - rewrite bool_decide_eq_true. split; [eauto|].
    intros (q' & Hp & Hf). by rewrite (path_deterministic _ _ _ _ _ _ H Hp).
Qed.

(** C5: the simulator starts in the initial state and reads the input in
    order; it answers false as soon as a character is outside the alphabet
    or has no transition from the state reached so far; and when the whole
    input has been read it answers whether the state reached is final.
    Hence it answers true exactly when the input has a path from the
    initial state that ends in a final state. *)
Theorem simulate_accepts (sigma : list char) (d : automaton) (w : str) :
  (∀ pre c suf q,
     w = pre ++ c :: suf → path sigma d (initial d) pre q →
     c ∉ sigma ∨ dict_get (transitions d) (q, c) = None →
     simulate sigma d w = false) ∧
  (∀ q, path sigma d (initial d) w q →
        simulate sigma d w = bool_decide (q ∈ final_states d)) ∧
  (simulate sigma d w = true ↔
   ∃ q, path sigma d (initial d) w q ∧ q ∈ final_states d).
Proof.
  split_and!.
  - intros pre c suf q -> Hpre Hc. apply not_true_is_false.
    intros (q' & Hp & _)%simulate_true.
    apply path_app_inv in Hp as (q1 & Hp1 & Hp2).
    rewrite (path_deterministic _ _ _ _ _ _ Hp1 Hpre) in Hp2.
    inversion Hp2; subst. destruct Hc as [Hc|Hc]; [done|congruence].
  - intros q Hp. destruct (bool_decide (q ∈ final_states d)) eqn:Hq.
    + apply simulate_true. exists q. by apply bool_decide_eq_true in Hq.
    + apply not_true_is_false. intros (q' & Hp' & Hf)%simulate_true.
      rewrite (path_deterministic _ _ _ _ _ _ Hp' Hp) in Hf.
      by apply bool_decide_eq_false in Hq.
  - apply simulate_true.
Qed.

Lemma build_step_automata st c st' :
  build_step st c = Ok st' →
  dfa st'.2 = dfa st.2 ∧ minimized_dfa st'.2 = minimized_dfa st.2.
Proof.
  destruct st as [stack self]. unfold build_step. intros H.
  repeat case_match; by simplify_eq.
Qed.

Lemma build_loop_automata st l st' :
  for_each build_step st l = Ok st' →
  dfa st'.2 = dfa st.2 ∧ minimized_dfa st'.2 = minimized_dfa st.2.
Proof.
  revert st. induction l as [|c l IH]; intros st H.
  - simpl in H. by simplify_eq.
  - rewrite for_each_cons in H. inv_bind H.
    destruct (IH _ H) as [-> ->]. by eapply build_step_automata.
Qed.

Lemma parse_regex_automata self parsed :
  parse_regex self = Ok parsed →
  dfa parsed = dfa self ∧ minimized_dfa parsed = minimized_dfa self.
Proof.
  intros H. apply parse_regex_inv in H
    as (postfix & root & built & tree & fp & _ & Hbuild & _ & _ & ->).
  by apply build_syntax_tree_inv, build_loop_automata in Hbuild.
Qed.

(** C9: on an object that went through [parse_regex] and [construct_dfa]
    but not [minimize_dfa], [simulate_dfa] with [minimized=True] does not
    raise and simulates the unminimized automaton; and on any object, the
    call raises exactly when neither automaton is there. *)
Theorem simulate_dfa_fallback (regex : str) (order : list char) (fuel : nat)
    (parsed built : RegexToDFA) (w : str) :
  parse_regex (init regex order) = Ok parsed →
  construct_dfa fuel parsed = Ok built →
  (∃ d, dfa built = Some d ∧ minimized_dfa built = None ∧
        simulate_dfa built w true = Ok (simulate (alphabet built) d w) ∧
        simulate_dfa built w true = simulate_dfa built w false) ∧
  (∀ self e, simulate_dfa self w true = Raise e ↔
             e = ValueError ∧ dfa self = None ∧ minimized_dfa self = None).
Proof.
  intros Hparse Hdfa. split.
  - apply parse_regex_automata in Hparse as [_ Hmin]. simpl in Hmin.
    apply construct_dfa_inv in Hdfa as (st & _ & ->).
    eexists. split; [reflexivity|]. split; [done|].
    unfold simulate_dfa, chosen_dfa. simpl. by rewrite Hmin.
  - intros self e. unfold simulate_dfa, chosen_dfa.
    destruct (minimized_dfa self), (dfa self); simpl;
      (split; [intros H; by simplify_eq|intros (? & ? & ?); by simplify_eq]).
Qed.

(** ** More fuel does not change a result *)

Lemma construct_loop_mono fuel fuel' self end_pos st r :
  construct_loop fuel self end_pos st = Ok r → fuel ≤ fuel' →
  construct_loop fuel' self end_pos st = Ok r.
Proof.
  revert fuel' st. induction fuel as [|fuel IH]; intros fuel' st H Hle.
  - destruct fuel'; simpl in *; destruct (c_unmarked st); done.
  - destruct fuel' as [|fuel']; [lia|]. cbn [construct_loop] in *.
    destruct (c_unmarked st) as [|current unmarked]; [done|].
    inv_bind H. inv_bind H. rewrite H0. simpl. rewrite H1. simpl.
    apply IH; [done|lia].
Qed.

Lemma refine_loop_mono fuel fuel' sigma transitions num_states partitions workset r :
  refine_loop fuel sigma transitions num_states partitions workset = Ok r →
  fuel ≤ fuel' →
  refine_loop fuel' sigma transitions num_states partitions workset = Ok r.
Proof.
  revert fuel' partitions workset.
  induction fuel as [|fuel IH]; intros fuel' partitions workset H Hle.
  - destruct fuel'; simpl in *; destruct workset; done.
  - destruct fuel' as [|fuel']; [lia|]. cbn [refine_loop] in *.
    destruct workset as [|current workset]; [done|].
    destruct (foldl _ _ sigma) as [partitions' workset'].
    apply IH; [done|lia].
Qed.

Lemma process_mono fuel fuel' self final :
  process fuel self = Ok final → fuel ≤ fuel' → process fuel' self = Ok final.
Proof.
  intros H Hle. apply process_inv in H as (parsed & built & Hp & Hc & Hm).
  unfold process. rewrite Hp. simpl.
  apply construct_dfa_inv in Hc as (st & Hst & ->).
  unfold construct_states in Hst. inv_bind Hst.
  destruct (find_end_pos (pos_to_symbol parsed)) as [end_pos|] eqn:He; [|done].
  eapply construct_loop_mono in Hst; [|done].
  unfold construct_dfa, construct_states. rewrite Hst0. simpl.
  rewrite He, Hst. simpl.
  apply minimize_dfa_inv in Hm as (d & m & Hd & Hm & ->).
  unfold minimize_dfa. rewrite Hd. simpl in Hd. simplify_eq.
  unfold minimize in *. inv_bind Hm.
  eapply refine_loop_mono in Hm0; [|done]. simpl in *.
  rewrite Hm0. simpl. by rewrite Hm.
Qed.

(** ** The expression [(a|b)*abb] *)

Lemma returns_true r b : returns r b = true → r = Ok b.
Proof.
  destruct r as [b'| |]; simpl; [|done..].
  by intros ->%bool_decide_eq_true.
Qed.

Lemma set_order_ab order :
  set_order (alphabet_chars (of_string "(a|b)*abb")) order →
  order = [97%N; 98%N] ∨ order = [98%N; 97%N].
Proof.
  change (alphabet_chars (of_string "(a|b)*abb"))
    with [97%N; 98%N; 97%N; 98%N; 98%N].
  intros [Hnd Hin].
  assert (Ha : 97%N ∈ order) by (apply Hin; rewrite !elem_of_cons; tauto).
  assert (Hb : 98%N ∈ order) by (apply Hin; rewrite !elem_of_cons; tauto).
  assert (Hab : ∀ c, c ∈ order → c = 97%N ∨ c = 98%N).
  { intros c Hc. apply Hin in Hc. revert Hc.
    rewrite !elem_of_cons, elem_of_nil. tauto. }
  destruct order as [|x [|y [|z rest]]].
  - by apply elem_of_nil in Ha.
  - apply list_elem_of_singleton in Ha, Hb. congruence.
  - rewrite !elem_of_cons, elem_of_nil in Ha, Hb.
    destruct Ha as [<-|[<-|[]]]; destruct Hb as [Hb|[Hb|[]]];
      try discriminate Hb; subst; auto.
  - exfalso. apply NoDup_cons in Hnd as [Hx Hnd].
    apply NoDup_cons in Hnd as [Hy Hnd].
    rewrite !elem_of_cons in Hx. rewrite elem_of_cons in Hy.
    assert (Hx' : x = 97%N ∨ x = 98%N) by (apply Hab; rewrite !elem_of_cons; auto).
    assert (Hy' : y = 97%N ∨ y = 98%N) by (apply Hab; rewrite !elem_of_cons; auto).
    assert (Hz' : z = 97%N ∨ z = 98%N) by (apply Hab; rewrite !elem_of_cons; auto).
    clear Hin Ha Hb Hab Hnd. intuition congruence.
Qed.

Lemma classic_checks_true r :
  classic_checks r = true →
  ∃ final m,
    r = Ok final ∧
    minimized_dfa final = Some m ∧
    states m = 4 ∧
    simulate_dfa final (of_string "abb") true = Ok true ∧
    simulate_dfa final (of_string "aabb") true = Ok true ∧
    simulate_dfa final (of_string "babb") true = Ok true ∧
    simulate_dfa final (of_string "ab") true = Ok false ∧
    simulate_dfa final (of_string "abbb") true = Ok false ∧
    simulate_dfa final (of_string "abba") true = Ok false.
Proof.
  unfold classic_checks. destruct r as [final| |]; [|done..].
  destruct (minimized_dfa final) as [m|] eqn:Hm; [|done]. intros Hc.
  repeat (apply andb_true_iff in Hc as [Hc ?]).
  apply bool_decide_eq_true in Hc.
  exists final, m. split; [done|]. split; [done|]. split; [done|].
  repeat split; by apply returns_true.
Qed.

(** C3, as amended: for [(a|b)*abb], whatever the iteration order of the
    alphabet and for any fuel from 4 on, the pipeline succeeds, the
    minimized automaton has exactly 4 states, the simulator accepts [abb],
    [aabb] and [babb], and it rejects [ab], [abbb] and [abba]. *)
Theorem classic_example (order : list char) (fuel : nat) :
  set_order (alphabet_chars (of_string "(a|b)*abb")) order →
  4 ≤ fuel →
  ∃ final m,
    process fuel (init (of_string "(a|b)*abb") order) = Ok final ∧
    minimized_dfa final = Some m ∧
    states m = 4 ∧
    simulate_dfa final (of_string "abb") true = Ok true ∧
    simulate_dfa final (of_string "aabb") true = Ok true ∧
    simulate_dfa final (of_string "babb") true = Ok true ∧
    simulate_dfa final (of_string "ab") true = Ok false ∧
    simulate_dfa final (of_string "abbb") true = Ok false ∧
    simulate_dfa final (of_string "abba") true = Ok false.
Proof.
  intros Horder Hfuel.
  assert (Hc : classic_checks
                 (process 4 (init (of_string "(a|b)*abb") order)) = true).
  { destruct (set_order_ab order Horder) as [-> | ->]; vm_compute; reflexivity. }
  apply classic_checks_true in Hc as (final & m & Hp & Hc).
  exists final, m. split; [by eapply process_mono|done].
Qed.

(** C3, as stated, fails: the compiled automaton rejects [abbb], which
    does not end in [abb]. *)
Lemma classic_example_abbb :
  (final ← process 4 (init (of_string "(a|b)*abb") (of_string "ab"));
   simulate_dfa final (of_string "abbb") true) = Ok false.
Proof. vm_compute. reflexivity. Qed.

(** ** Dictionaries *)

Section dict_facts.
Context {K V : Type} `{EqDecision K}.
Implicit Types (d : list (K * V)) (k : K) (v : V).

Lemma dict_get_set d k v k' :
  dict_get (dict_set d k v) k' = if decide (k = k') then Some v else dict_get d k'.
Proof.
  induction d as [|[k0 v0] d IH]; simpl.
  - by destruct (decide (k = k')).
  - destruct (decide (k0 = k)) as [->|Hne]; simpl.
    + by destruct (decide (k = k')).
    + destruct (decide (k0 = k')) as [->|Hne'].
      * by rewrite decide_False by done.
      * apply IH.
Qed.

Lemma dict_get_Some_elem d k v : dict_get d k = Some v → (k, v) ∈ d.
Proof.
  induction d as [|[k0 v0] d IH]; simpl; [done|].
  destruct (decide (k0 = k)) as [->|Hne].
  - intros [= ->]. apply list_elem_of_here.
  - intros H. apply list_elem_of_further. auto.
Qed.

Lemma dict_get_None d k : dict_get d k = None ↔ k ∉ d.*1.
Proof.
  induction d as [|[k0 v0] d IH]; simpl.
  - split; [intros _; apply not_elem_of_nil|done].
  - rewrite not_elem_of_cons. destruct (decide (k0 = k)) as [->|Hne].
    + split; [done|]. by intros [? _].
    + rewrite IH. split; [by split|tauto].
Qed.

Lemma dict_get_elem d k v : NoDup d.*1 → (k, v) ∈ d → dict_get d k = Some v.
Proof.
  induction d as [|[k0 v0] d IH]; simpl.
  - by intros _ ?%elem_of_nil.
  - intros [Hk Hnd]%NoDup_cons [Heq|Hin]%elem_of_cons.
    + simplify_eq. by rewrite decide_True.
    + destruct (decide (k0 = k)) as [->|Hne]; [|auto].
      destruct Hk. apply list_elem_of_fmap. by exists (k, v).
Qed.

Lemma dict_set_keys d k v :
  (dict_set d k v).*1 = if decide (k ∈ d.*1) then d.*1 else d.*1 ++ [k].
Proof.
  induction d as [|[k0 v0] d IH]; [done|].
  cbn [dict_set]. rewrite fmap_cons. cbn [fst].
  destruct (decide (k0 = k)) as [->|Hne].
  - rewrite fmap_cons. cbn [fst].
    by rewrite decide_True by apply list_elem_of_here.
  - rewrite fmap_cons, IH. cbn [fst]. destruct (decide (k ∈ d.*1)).
    + by rewrite decide_True by by apply list_elem_of_further.
    + rewrite decide_False; [done|]. rewrite not_elem_of_cons. auto.
Qed.

Lemma dict_set_NoDup d k v : NoDup d.*1 → NoDup (dict_set d k v).*1.
Proof.
  intros Hnd. rewrite dict_set_keys. destruct (decide (k ∈ d.*1)); [done|].
  apply NoDup_app. split; [done|]. split; [|apply NoDup_singleton].
  intros x Hx ?%list_elem_of_singleton. by subst.
Qed.

Lemma dict_set_elem d k v x : x ∈ dict_set d k v → x = (k, v) ∨ x ∈ d.
Proof.
  induction d as [|[k0 v0] d IH]; simpl.
  - intros ?%list_elem_of_singleton. by left.
  - destruct (decide (k0 = k)) as [->|Hne].
    + intros [->|?]%elem_of_cons; [by left|].
      right. by apply list_elem_of_further.
    + intros [->|?]%elem_of_cons; [right; apply list_elem_of_here|].
      destruct IH as [?|?]; [done|by left|].
      right. by apply list_elem_of_further.
Qed.

Lemma dict_item_Ok d k v : dict_item d k = Ok v ↔ dict_get d k = Some v.
Proof. unfold dict_item. destruct (dict_get d k); split; congruence. Qed.
End dict_facts.

(** ** Counting subsets *)

Lemma NoDup_constant_length {A} (L : list A) a :
  NoDup L → (∀ x, x ∈ L → x = a) → length L ≤ 1.
Proof.
  intros Hnd Hall. destruct L as [|x [|y L]]; simpl; [lia..|].
  exfalso. apply NoDup_cons in Hnd as [Hx _]. apply Hx.
  rewrite (Hall x), <- (Hall y); rewrite ?elem_of_cons; auto.
Qed.

Lemma subsets_bound `{Countable A} (U : gset A) (L : list (gset A)) :
  NoDup L → (∀ X, X ∈ L → X ⊆ U) → length L ≤ 2 ^ size U.
Proof.
  revert L. induction U as [|x U Hx IH] using set_ind_L; intros L Hnd Hsub.
  - rewrite size_empty. simpl. apply (NoDup_constant_length _ ∅); [done|].
    intros X HX. apply Hsub in HX. set_solver.
  - rewrite size_union, size_singleton by set_solver.
    rewrite <- (Permutation_length (filter_app_complement (λ X, x ∈ X) L)).
    rewrite length_app.
    assert (H1 : length (filter (λ X, x ∈ X) L) ≤ 2 ^ size U).
    { rewrite <- (length_fmap (λ X, X ∖ {[ x ]})). apply IH.
      - apply NoDup_fmap_2_strong; [|by apply NoDup_filter].
        intros X Y [HX _]%list_elem_of_filter [HY _]%list_elem_of_filter Heq.
        apply set_eq. intros y. destruct (decide (y = x)) as [->|]; [done|].
        set_solver.
      - intros X (Y & -> & [HY HL]%list_elem_of_filter)%list_elem_of_fmap.
        apply Hsub in HL. set_solver. }
    assert (H0 : length (filter (λ X, ¬ x ∈ X) L) ≤ 2 ^ size U).
    { apply IH; [by apply NoDup_filter|].
      intros X [HX HL]%list_elem_of_filter. apply Hsub in HL. set_solver. }
    change (2 ^ (1 + size U)) with (2 * 2 ^ size U). lia.
Qed.

(** ** The direct construction *)

Lemma elem_of_move self S s x :
  x ∈ move self S s ↔
  ∃ p, p ∈ S ∧ symbol_at (pos_to_symbol self) p = Some s ∧
       x ∈ fp_get (followpos self) p.
Proof.
  unfold move.
  assert (Hgen : ∀ l acc,
    x ∈ foldl (λ next pos,
                 if decide (symbol_at (pos_to_symbol self) pos = Some s)
                 then next ∪ fp_get (followpos self) pos else next) acc l ↔
    x ∈ acc ∨ ∃ p, p ∈ l ∧ symbol_at (pos_to_symbol self) p = Some s ∧
                   x ∈ fp_get (followpos self) p).
  { induction l as [|p l IH]; intros acc; simpl.
    - split; [by left|]. intros [?|(p & ?%elem_of_nil & _)]; done.
    - rewrite IH. destruct (decide (symbol_at _ p = Some s)) as [Hp|Hp].
      + rewrite elem_of_union. split.
        * intros [[?|?]|(p' & ? & ? & ?)]; [by left|right..].
          -- exists p. by rewrite elem_of_cons; auto.
          -- exists p'. rewrite elem_of_cons. auto.
        * intros [?|(p' & [->|?]%elem_of_cons & ? & ?)]; [by left; left|..].
          -- left. by right.
          -- right. by exists p'.
      + split.
        * intros [?|(p' & ? & ? & ?)]; [by left|right].
          exists p'. rewrite elem_of_cons. auto.
        * intros [?|(p' & [->|?]%elem_of_cons & ? & ?)]; [by left|done|].
          right. by exists p'. }
  rewrite Hgen. setoid_rewrite elem_of_elements.
  split; [intros [?%elem_of_empty|?]; done|by right].
Qed.

Lemma fp_get_universe self I p : fp_get (followpos self) p ⊆ universe self I.
Proof.
  unfold fp_get, universe. destruct (followpos self !! p) as [v|] eqn:Hp; simpl.
  - intros x Hx. apply elem_of_union_r, elem_of_union_list. exists v.
    split; [|done]. apply list_elem_of_fmap. exists (p, v).
    split; [done|]. by apply elem_of_map_to_list.
  - apply empty_subseteq.
Qed.

Lemma move_universe self I S s : move self S s ⊆ universe self I.
Proof.
  intros x (p & _ & _ & Hx)%elem_of_move. by eapply fp_get_universe.
Qed.

Lemma NoDup_snd_inj {A B} (l : list (A * B)) a b q :
  NoDup l.*2 → (a, q) ∈ l → (b, q) ∈ l → a = b.
Proof.
  induction l as [|[a0 q0] l IH]; simpl.
  - by intros _ ?%elem_of_nil.
  - intros [Hq Hnd]%NoDup_cons [Ha|Ha]%elem_of_cons [Hb|Hb]%elem_of_cons;
      simplify_eq; auto.
    + destruct Hq. apply list_elem_of_fmap. by exists (b, q0).
    + destruct Hq. apply list_elem_of_fmap. by exists (a, q0).
Qed.

Lemma dict_get_is_Some {K V} `{EqDecision K} (d : list (K * V)) k :
  k ∈ d.*1 → ∃ v, dict_get d k = Some v.
Proof.
  intros Hk. destruct (dict_get d k) as [v|] eqn:Hd; [by exists v|].
  by apply dict_get_None in Hd.
Qed.

Lemma dict_get_key {K V} `{EqDecision K} (d : list (K * V)) k v :
  dict_get d k = Some v → k ∈ d.*1.
Proof.
  intros Hd%dict_get_Some_elem. apply list_elem_of_fmap. by exists (k, v).
Qed.

Section construction.
Context (self : RegexToDFA) (end_pos : nat) (initial_state : gset (option nat)).

Lemma cinv_id_lt cur done popped st S q :
  cinv self end_pos initial_state cur done popped st →
  dict_get (c_states st) S = Some q → q < length (c_states st).
Proof.
  intros Hinv Hq%dict_get_Some_elem.
  assert (Hin : q ∈ (c_states st).*2)
    by (apply list_elem_of_fmap; by exists (S, q)).
  rewrite (ci_ids _ _ _ _ _ _ _ Hinv) in Hin. apply elem_of_seq in Hin. lia.
Qed.

Lemma cinv_id_inj cur done popped st S S' q :
  cinv self end_pos initial_state cur done popped st →
  dict_get (c_states st) S = Some q → dict_get (c_states st) S' = Some q →
  S = S'.
Proof.
  intros Hinv H1%dict_get_Some_elem H2%dict_get_Some_elem.
  eapply NoDup_snd_inj; [|done..].
  rewrite (ci_ids _ _ _ _ _ _ _ Hinv). apply NoDup_seq.
Qed.

Lemma cinv_transition cur done popped st states' unmarked' qc qn s :
  cinv self end_pos initial_state cur done popped st →
  s ∈ alphabet self →
  cur ∉ c_unmarked st →
  dict_get (c_states st) cur = Some qc →
  move self cur s ≠ ∅ →
  states'.*2 = seq 0 (length states') →
  NoDup states'.*1 →
  NoDup unmarked' →
  (∀ S, S ∈ unmarked' → S ∈ states'.*1) →
  length states' = length unmarked' + popped →
  (∀ S, S ∈ states'.*1 → S ⊆ universe self initial_state) →
  (∀ S q, dict_get (c_states st) S = Some q → dict_get states' S = Some q) →
  (∀ S, S ∈ (c_states st).*1 → S ∉ c_unmarked st → S ∉ unmarked') →
  (∀ S q, dict_get states' S = Some q → S ∉ unmarked' →
          dict_get (c_states st) S = Some q ∧ S ∉ c_unmarked st) →
  dict_get states' (move self cur s) = Some qn →
  cinv self end_pos initial_state cur (done ++ [s]) popped
    (Construction states' unmarked'
       (dict_set (c_transitions st) (qc, s) qn) (c_final st)).
Proof.
  intros Hinv Hs Hcur Hqc Hmove Hids Hkeys Hun Hunk Hcount Huni E1 E2 E3 Hqn.
  constructor; simpl; try done.
  - apply E1, Hinv.
  - apply dict_set_NoDup, Hinv.
  - intros q s0 q'. rewrite dict_get_set.
    destruct (decide ((qc, s) = (q, s0))) as [[= <- <-]|Hne].
    + intros [= <-]. exists cur. split; [by apply E1|].
      split; [|done]. split; [|split; [done|]]; simpl.
      * apply E2; [|done]. by eapply dict_get_key.
      * intros _. apply elem_of_app. right. by apply list_elem_of_singleton.
    + intros Hq. destruct (ci_trans _ _ _ _ _ _ _ Hinv _ _ _ Hq)
        as (S & HS & (Hu & Hal & Hd) & Hm & Hq').
      exists S. split; [by apply E1|]. split; [|split; [done|by apply E1]].
      split; [|split; [done|]]; simpl.
      * apply E2; [|done]. by eapply dict_get_key.
      * intros HS'. apply elem_of_app. left. auto.
  - intros S s0 q (Hu & Hal & Hd) HS Hm. simpl in *.
    destruct (E3 _ _ HS Hu) as [HS0 Hu0]. rewrite dict_get_set.
    destruct (decide ((qc, s) = (q, s0))) as [[= <- <-]|Hne].
    + exists qn. assert (S = cur) as -> by (by eapply cinv_id_inj). done.
    + assert (Hready : ready self cur done st S s0).
      { split; [done|split; [done|]]. intros ->.
        assert (q = qc) by congruence. subst q.
        specialize (Hd eq_refl).
        apply elem_of_app in Hd as [?|Hs0%list_elem_of_singleton]; [done|].
        by subst. }
      destruct (ci_expanded _ _ _ _ _ _ _ Hinv _ _ _ Hready HS0 Hm)
        as (q' & ? & ?).
      exists q'. split; [by apply E1|done].
  - intros q. rewrite (ci_final _ _ _ _ _ _ _ Hinv). split.
    + intros (S & HS & Hu & He). exists S. split; [by apply E1|].
      split; [|done]. apply E2; [|done]. by eapply dict_get_key.
    + intros (S & HS & Hu & He). destruct (E3 _ _ HS Hu). by exists S.
Qed.

Lemma cinv_skip cur done popped st s :
  cinv self end_pos initial_state cur done popped st →
  move self cur s = ∅ →
  cinv self end_pos initial_state cur (done ++ [s]) popped st.
Proof.
  intros Hinv Hmove. destruct Hinv as [? ? ? ? ? ? ? ? Ht He Hf].
  constructor; try done.
  - intros q s0 q' Hq. destruct (Ht _ _ _ Hq)
      as (S & HS & (Hu & Hal & Hd) & Hm & Hq').
    exists S. split; [done|]. split; [|done].
    split; [done|split; [done|]]. intros HS'. apply elem_of_app. left. auto.
  - intros S s0 q (Hu & Hal & Hd) HS Hm.
    apply He; [|done..]. split; [done|split; [done|]].
    intros ->. specialize (Hd eq_refl).
    apply elem_of_app in Hd as [?|Hs0%list_elem_of_singleton]; [done|].
    by subst.
Qed.

Lemma symbol_step_inv cur done popped st s :
  cinv self end_pos initial_state cur done popped st →
  s ∈ alphabet self →
  cur ∈ (c_states st).*1 →
  cur ∉ c_unmarked st →
  ∃ st', symbol_step self cur st s = Ok st' ∧
         cinv self end_pos initial_state cur (done ++ [s]) popped st' ∧
         cur ∈ (c_states st').*1 ∧ cur ∉ c_unmarked st'.
Proof.
  intros Hinv Hs Hcur Hcur'. unfold symbol_step.
  destruct (decide (move self cur s = ∅)) as [Hm|Hm].
  { exists st. split; [done|]. split; [by apply cinv_skip|done]. }
  destruct (dict_get_is_Some _ _ Hcur) as [qc Hqc].
  destruct (dict_get (c_states st) (move self cur s)) as [qn|] eqn:Hn.
  - eexists. split.
    { unfold dict_item. rewrite Hqc, Hn. simpl. reflexivity. }
    split; [|done].
    apply cinv_transition; try done; try apply Hinv.
  - assert (Hfresh : move self cur s ∉ (c_states st).*1)
      by by apply dict_get_None.
    assert (Hne : move self cur s ≠ cur) by (by intros Heq; rewrite Heq in Hfresh).
    eexists. split.
    { unfold dict_item. rewrite !dict_get_set.
      destruct (decide (move self cur s = cur)); [done|].
      rewrite Hqc. simpl.
      destruct (decide (move self cur s = move self cur s)); [|done].
      simpl. reflexivity. }
    cbn [c_states c_unmarked]. split; [|split].
    2:{ rewrite dict_set_keys, decide_False by done.
        apply elem_of_app. by left. }
    2:{ intros [?|Heq%list_elem_of_singleton]%elem_of_app; [done|].
        by symmetry in Heq. }
    apply cinv_transition; try done.
    + rewrite dict_set_fresh by done.
      rewrite fmap_app, length_app, (ci_ids _ _ _ _ _ _ _ Hinv). simpl.
      by rewrite Nat.add_1_r, seq_S.
    + apply dict_set_NoDup, Hinv.
    + apply NoDup_app. split; [apply Hinv|].
      split; [|apply NoDup_singleton].
      intros S HS ->%list_elem_of_singleton.
      by apply (ci_unmarked_keys _ _ _ _ _ _ _ Hinv) in HS.
    + intros S [HS| ->%list_elem_of_singleton]%elem_of_app;
        rewrite dict_set_keys, decide_False by done; apply elem_of_app.
      * left. by apply Hinv.
      * right. by apply list_elem_of_singleton.
    + rewrite dict_set_fresh, !length_app by done. simpl.
      rewrite (ci_count _ _ _ _ _ _ _ Hinv). lia.
    + intros S. rewrite dict_set_keys, decide_False by done.
      intros [HS| ->%list_elem_of_singleton]%elem_of_app.
      * by apply Hinv.
      * apply move_universe.
    + intros S q HS. rewrite dict_get_set, decide_False; [done|].
      intros <-. by apply dict_get_key in HS.
    + intros S HS HS' [?| ->%list_elem_of_singleton]%elem_of_app; done.
    + intros S q. rewrite dict_get_set, not_elem_of_app, list_elem_of_singleton.
      intros HS [HS' Hne']. by rewrite decide_False in HS by done.
    + by rewrite dict_get_set, decide_True.
Qed.

Lemma symbols_loop_inv cur done popped st l :
  cinv self end_pos initial_state cur done popped st →
  (∀ s, s ∈ l → s ∈ alphabet self) →
  cur ∈ (c_states st).*1 →
  cur ∉ c_unmarked st →
  ∃ st', for_each (symbol_step self cur) st l = Ok st' ∧
         cinv self end_pos initial_state cur (done ++ l) popped st'.
Proof.
  revert done st. induction l as [|s l IH]; intros done st Hinv Hl Hcur Hcur'.
  - exists st. by rewrite app_nil_r.
  - destruct (symbol_step_inv cur done popped st s)
      as (st1 & Hstep & Hinv1 & Hcur1 & Hcur1'); try done.
    { apply Hl, list_elem_of_here. }
    destruct (IH (done ++ [s]) st1) as (st' & Hloop & Hinv'); try done.
    { intros s' Hs'. by apply Hl, list_elem_of_further. }
    exists st'. rewrite for_each_cons, Hstep. simpl.
    split; [done|]. by rewrite <- app_assoc in Hinv'.
Qed.

Lemma cinv_pop cur0 popped st cur rest :
  cinv self end_pos initial_state cur0 (alphabet self) popped st →
  c_unmarked st = cur :: rest →
  ∃ final,
    (if decide (Some end_pos ∈ cur)
     then q ← dict_item (c_states st) cur; Ok (c_final st ∪ {[ q ]})
     else Ok (c_final st)) = Ok final ∧
    cinv self end_pos initial_state cur [] (S popped)
      (Construction (c_states st) rest (c_transitions st) final) ∧
    cur ∈ (c_states st).*1 ∧ cur ∉ rest.
Proof.
  intros Hinv Hun.
  assert (Hcur : cur ∈ (c_states st).*1).
  { apply Hinv. rewrite Hun. apply list_elem_of_here. }
  destruct (dict_get_is_Some _ _ Hcur) as [qc Hqc].
  pose proof (ci_unmarked _ _ _ _ _ _ _ Hinv) as Hnd.
  rewrite Hun in Hnd. apply NoDup_cons in Hnd as [Hcur' Hnd].
  assert (Hrest : ∀ S, S ∉ rest → S ≠ cur → S ∉ c_unmarked st).
  { intros S ? ?. rewrite Hun, not_elem_of_cons. done. }
  eexists. split.
  { unfold dict_item. rewrite Hqc. simpl.
    instantiate (1 := if decide (Some end_pos ∈ cur)
                      then c_final st ∪ {[ qc ]} else c_final st).
    by destruct (decide (Some end_pos ∈ cur)). }
  split; [|done].
  destruct Hinv as [? ? ? Huk Hc ? ? ? Ht He Hf].
  constructor; simpl; try done.
  - intros S HS. apply Huk. rewrite Hun. by apply list_elem_of_further.
  - rewrite Hc, Hun. simpl. lia.
  - intros q s q' Hq. destruct (Ht _ _ _ Hq) as (S & HS & (Hu & Hal & _) & Hm).
    exists S. split; [done|]. split; [|done].
    rewrite Hun, not_elem_of_cons in Hu. destruct Hu as [Hne Hu].
    split; [done|split; [done|]]. simpl. done.
  - intros S s q (Hu & Hal & Hd) HS Hm. simpl in *.
    apply (He S s q); [|done..].
    split; [|done]. apply Hrest; [done|].
    intros ->. specialize (Hd eq_refl). by apply elem_of_nil in Hd.
  - intros q. split.
    + intros Hq.
      assert (Hcase : q ∈ c_final st ∨ (Some end_pos ∈ cur ∧ q = qc)).
      { destruct (decide (Some end_pos ∈ cur)); [|by left].
        apply elem_of_union in Hq as [?| ->%elem_of_singleton]; auto. }
      destruct Hcase as [Hq'|[He' ->]].
      * apply Hf in Hq' as (S & HS & Hu & HeS). exists S.
        rewrite Hun, not_elem_of_cons in Hu. by destruct Hu.
      * by exists cur.
    + intros (S & HS & Hu & HeS).
      destruct (decide (S = cur)) as [->|Hne].
      * rewrite decide_True by done. apply elem_of_union_r, elem_of_singleton.
        congruence.
      * assert (q ∈ c_final st) by (apply Hf; exists S; auto).
        destruct (decide (Some end_pos ∈ cur)); [|done].
        by apply elem_of_union_l.
Qed.

Lemma cinv_length_bound cur done popped st :
  cinv self end_pos initial_state cur done popped st →
  length (c_states st) ≤ 2 ^ size (universe self initial_state).
Proof.
  intros Hinv. rewrite <- (length_fmap fst).
  apply subsets_bound; apply Hinv.
Qed.

Lemma cinv_done cur cur' done popped st :
  cinv self end_pos initial_state cur done popped st →
  (∀ s, s ∈ alphabet self → s ∈ done) →
  cinv self end_pos initial_state cur' (alphabet self) popped st.
Proof.
  intros [? ? ? ? ? ? ? ? Ht He Hf] Hdone. constructor; try done.
  - intros q s q' Hq. destruct (Ht _ _ _ Hq) as (S & HS & (Hu & Hal & _) & Hm).
    exists S. split; [done|]. split; [|done]. by split.
  - intros S s q (Hu & Hal & _) HS Hm. apply (He S s q); [|done..].
    split; [done|]. split; [done|]. auto.
Qed.

Lemma construct_loop_inv fuel cur0 popped st :
  cinv self end_pos initial_state cur0 (alphabet self) popped st →
  2 ^ size (universe self initial_state) ≤ fuel + popped →
  ∃ st' popped',
    construct_loop fuel self end_pos st = Ok st' ∧
    cinv self end_pos initial_state cur0 (alphabet self) popped' st' ∧
    c_unmarked st' = [].
Proof.
  revert cur0 popped st.
  induction fuel as [|fuel IH]; intros cur0 popped st Hinv Hfuel.
  - destruct (c_unmarked st) as [|cur rest] eqn:Hun.
    + exists st, popped. simpl. by rewrite Hun.
    + exfalso. pose proof (cinv_length_bound _ _ _ _ Hinv) as Hlen.
      rewrite (ci_count _ _ _ _ _ _ _ Hinv), Hun in Hlen. simpl in *. lia.
  - destruct (c_unmarked st) as [|cur rest] eqn:Hun.
    + exists st, popped. simpl. by rewrite Hun.
    + cbn [construct_loop]. rewrite Hun.
      destruct (cinv_pop _ _ _ _ _ Hinv Hun) as (final & -> & Hinv1 & Hc & Hc').
      simpl.
      destruct (symbols_loop_inv cur [] (S popped) _ (alphabet self) Hinv1)
        as (st1 & -> & Hinv2); try done.
      simpl in Hinv2. simpl.
      destruct (IH cur0 (S popped) st1) as (st' & popped' & ? & ? & ?).
      * by eapply cinv_done.
      * lia.
      * by exists st', popped'.
Qed.

Lemma cinv_start :
  cinv self end_pos initial_state initial_state (alphabet self) 0
    (Construction [(initial_state, 0)] [initial_state] [] ∅).
Proof.
  constructor; simpl; try done.
  - apply NoDup_singleton.
  - apply NoDup_singleton.
  - intros S ->%list_elem_of_singleton. unfold universe. set_solver.
  - by rewrite decide_True.
  - apply NoDup_nil_2.
  - intros S s q [Hu _]. destruct (decide (initial_state = S)) as [<-|]; [|done].
    destruct Hu. by apply list_elem_of_singleton.
  - intros q. split; [by intros ?%elem_of_empty|].
    intros (S & HS & Hu & _).
    destruct (decide (initial_state = S)) as [<-|]; [|done].
    destruct Hu. by apply list_elem_of_singleton.
Qed.
End construction.

Lemma construct_states_total self initial_state end_pos fuel :
  get_firstpos (syntax_tree self) = Ok initial_state →
  find_end_pos (pos_to_symbol self) = Some end_pos →
  2 ^ size (universe self initial_state) ≤ fuel →
  ∃ st popped,
    construct_states fuel self = Ok st ∧
    cinv self end_pos initial_state initial_state (alphabet self) popped st ∧
    c_unmarked st = [].
Proof.
  intros HI He Hfuel. unfold construct_states. rewrite HI, He. simpl.
  apply (construct_loop_inv self end_pos initial_state fuel initial_state 0);
    [apply cinv_start|lia].
Qed.

Lemma construct_states_cinv self fuel st :
  construct_states fuel self = Ok st →
  ∃ initial_state end_pos popped,
    get_firstpos (syntax_tree self) = Ok initial_state ∧
    find_end_pos (pos_to_symbol self) = Some end_pos ∧
    cinv self end_pos initial_state initial_state (alphabet self) popped st ∧
    c_unmarked st = [].
Proof.
  intros H. pose proof H as H'. unfold construct_states in H'.
  inv_bind H'. rename x into initial_state.
  destruct (find_end_pos (pos_to_symbol self)) as [end_pos|] eqn:He; [|done].
  destruct (construct_states_total self initial_state end_pos
              (fuel `max` 2 ^ size (universe self initial_state)))
    as (st' & popped & Hst' & Hinv & Hun); [done..|lia|].
  unfold construct_states in Hst'. rewrite H'0, He in Hst'. simpl in Hst'.
  eapply construct_loop_mono in H'; [|apply Nat.le_max_l].
  rewrite H' in Hst'. simplify_eq. by exists initial_state, end_pos, popped.
Qed.

(** ** The end marker *)

Lemma hashes_app l1 l2 : hashes (l1 ++ l2) = hashes l1 ++ hashes l2.
Proof. apply filter_app. Qed.

Lemma hashes_cons_ne c l : c ≠ c_hash → hashes (c :: l) = hashes l.
Proof. intros. unfold hashes. by rewrite filter_cons_False. Qed.

Lemma hashes_none l : c_hash ∉ l → hashes l = [].
Proof.
  induction l as [|c l IH]; [done|]. intros [? ?]%not_elem_of_cons.
  rewrite hashes_cons_ne by done. auto.
Qed.

Lemma hashes_cons c l : hashes (c :: l) = hashes [c] ++ hashes l.
Proof. apply (hashes_app [c] l). Qed.

Lemma insert_concat_hashes regex : hashes (insert_concat regex) = hashes regex.
Proof.
  induction regex as [|c1 [|c2 rest] IH]; [done..|].
  change (insert_concat (c1 :: c2 :: rest)) with
    (if concat_between c1 c2 then c1 :: c_dot :: insert_concat (c2 :: rest)
     else c1 :: insert_concat (c2 :: rest)).
  rewrite (hashes_cons c1 (c2 :: rest)).
  destruct (concat_between c1 c2).
  - rewrite (hashes_cons c1), (hashes_cons c_dot), IH. done.
  - by rewrite (hashes_cons c1), IH.
Qed.

Lemma pop_to_paren_hashes output stack output' stack' :
  pop_to_paren output stack = (output', stack') →
  c_hash ∉ stack → hashes output' = hashes output ∧ c_hash ∉ stack'.
Proof.
  revert output. induction stack as [|top rest IH]; intros output; simpl.
  - intros [= <- <-]. done.
  - destruct (decide (top = c_lparen)); [by intros [= <- <-]|].
    intros H [? ?]%not_elem_of_cons. destruct (IH _ H) as [-> ?]; [done|].
    rewrite hashes_app, (hashes_none [top]), app_nil_r; [done|].
    by rewrite list_elem_of_singleton.
Qed.

Lemma pop_higher_hashes c output stack output' stack' :
  pop_higher c output stack = (output', stack') →
  c_hash ∉ stack → hashes output' = hashes output ∧ c_hash ∉ stack'.
Proof.
  revert output. induction stack as [|top rest IH]; intros output; simpl.
  - intros [= <- <-]. done.
  - destruct (decide (top = c_lparen)); [by intros [= <- <-]|].
    destruct (decide (precedence c ≤ precedence top)); [|by intros [= <- <-]].
    intros H [? ?]%not_elem_of_cons. destruct (IH _ H) as [-> ?]; [done|].
    rewrite hashes_app, (hashes_none [top]), app_nil_r; [done|].
    by rewrite list_elem_of_singleton.
Qed.

Lemma shunt_step_hashes output stack c output' stack' :
  shunt_step (output, stack) c = (output', stack') →
  c_hash ∉ stack →
  hashes output' = hashes (output ++ [c]) ∧ c_hash ∉ stack'.
Proof.
  unfold shunt_step.
  change (of_string "()|*+?" ++ [c_dot])
    with [c_lparen; c_rparen; c_bar; c_star; c_plus; c_qmark; c_dot].
  destruct (in_str c _) eqn:Hc; simpl.
  - apply in_str_true in Hc.
    assert (Hne : c ≠ c_hash).
    { intros ->. revert Hc. rewrite !elem_of_cons, elem_of_nil.
      unfold c_hash, c_lparen, c_rparen, c_bar, c_star, c_plus, c_qmark, c_dot.
      intuition discriminate. }
    rewrite hashes_app, (hashes_none [c]), app_nil_r
      by (by rewrite list_elem_of_singleton).
    destruct (decide (c = c_lparen)).
    { intros [= <- <-] ?. split; [done|]. by apply not_elem_of_cons. }
    destruct (decide (c = c_rparen)).
    { destruct (pop_to_paren output stack) as [o s] eqn:Hp.
      intros Heq Hs. destruct (pop_to_paren_hashes _ _ _ _ Hp Hs) as [Ho Hs'].
      destruct s as [|top rest]; [by simplify_eq|].
      destruct (decide (top = c_lparen)); simplify_eq; [|done].
      split; [done|]. by apply not_elem_of_cons in Hs' as [_ ?]. }
    destruct (pop_higher c output stack) as [o s] eqn:Hp.
    intros [= <- <-] Hs. destruct (pop_higher_hashes _ _ _ _ _ Hp Hs) as [Ho Hs'].
    split; [done|]. by apply not_elem_of_cons.
  - by intros [= <- <-].
Qed.

Lemma shunt_loop_hashes regex output stack output' stack' :
  foldl shunt_step (output, stack) regex = (output', stack') →
  c_hash ∉ stack →
  hashes output' = hashes (output ++ regex) ∧ c_hash ∉ stack'.
Proof.
  revert output stack. induction regex as [|c regex IH]; intros output stack.
  - simpl. intros [= <- <-]. by rewrite app_nil_r.
  - cbn [foldl]. destruct (shunt_step (output, stack) c) as [o s] eqn:Hs.
    intros H Hst. destruct (shunt_step_hashes _ _ _ _ _ Hs Hst) as [Ho Hs'].
    destruct (IH _ _ H Hs') as [-> ?]. split; [|done].
    rewrite hashes_app, Ho, <- hashes_app, <- app_assoc. done.
Qed.

Lemma infix_to_postfix_hashes regex postfix :
  infix_to_postfix regex = Ok postfix → hashes postfix = hashes regex.
Proof.
  unfold infix_to_postfix. intros H. inv_bind H.
  assert (Hx : hashes x = hashes regex).
  { destruct regex as [|c regex]; [discriminate H0|].
    rewrite explicit_concat_nonempty in H0 by done. injection H0 as <-.
    exact (insert_concat_hashes (c :: regex)). }
  destruct (foldl shunt_step ([], []) x) as [output stack] eqn:Hf.
  injection H as <-.
  destruct (shunt_loop_hashes _ _ _ _ _ Hf) as [Ho Hs]; [apply not_elem_of_nil|].
  by rewrite hashes_app, Ho, (hashes_none stack), app_nil_r.
Qed.

Lemma hash_not_operator : c_hash ∉ [c_star; c_plus; c_qmark; c_bar; c_dot].
Proof.
  rewrite !elem_of_cons, elem_of_nil.
  unfold c_hash, c_bar, c_star, c_plus, c_qmark, c_dot. intuition discriminate.
Qed.

Lemma symbol_tokens_hashes postfix : hashes (symbol_tokens postfix) = hashes postfix.
Proof.
  unfold hashes, symbol_tokens. induction postfix as [|c l IH]; [done|].
  destruct (decide (c = c_hash)) as [->|Hne].
  - rewrite (filter_cons_True (λ c, c ∉ _) c_hash) by exact hash_not_operator.
    rewrite !(filter_cons_True (λ c, c = c_hash) c_hash) by done.
    by rewrite IH.
  - rewrite (filter_cons_False (λ c, c = c_hash) c l) by done.
    destruct (decide (c ∉ [c_star; c_plus; c_qmark; c_bar; c_dot])).
    + rewrite (filter_cons_True (λ c, c ∉ _) c) by done.
      by rewrite (filter_cons_False (λ c, c = c_hash) c).
    + by rewrite (filter_cons_False (λ c, c ∉ _) c).
Qed.

Lemma table_marker_entries k ds :
  length (marker_entries (table_of (numbered k ds))) = length (hashes ds).
Proof.
  revert k. unfold marker_entries, hashes.
  induction ds as [|d ds IH]; intros k; [done|]. cbn [numbered].
  destruct (decide (d = c_eps)) as [->|Hne].
  - rewrite table_of_none, IH. by rewrite filter_cons_False.
  - rewrite table_of_some. destruct (decide (d = c_hash)).
    + rewrite !filter_cons_True by done. simpl. by rewrite IH.
    + rewrite !filter_cons_False by done. apply IH.
Qed.

Lemma find_end_pos_head table :
  find_end_pos table = fst <$> head (marker_entries table).
Proof.
  unfold marker_entries. induction table as [|[p c] table IH]; [done|].
  simpl. destruct (decide (c = c_hash)).
  - by rewrite filter_cons_True.
  - by rewrite filter_cons_False.
Qed.


(** ** The position of the end marker *)



(** ** The stages of a successful run *)

Lemma process_stages fuel regex order final :
  process fuel (init regex order) = Ok final →
  ∃ postfix root built tree fp st d m,
    infix_to_postfix (augmented_regex (init regex order)) = Ok postfix ∧
    for_each build_step ([], init regex order) postfix = Ok ([root], built) ∧
    calculate_tree_properties order root = Ok tree ∧
    calculate_followpos ∅ tree = Ok fp ∧
    construct_states fuel (with_tree built tree fp) = Ok st ∧
    d = Automaton (length (c_states st)) 0 (c_final st) (c_transitions st) ∧
    minimize fuel order d = Ok m ∧
    alphabet built = order ∧
    final = with_minimized (with_dfa (with_tree built tree fp) d) m.
Proof.
  intros H. apply process_inv in H as (parsed & constructed & Hp & Hc & Hm).
  apply parse_regex_inv in Hp
    as (postfix & root & built & tree & fp & Hpost & Hbuild & Htree & Hfp & ->).
  apply build_syntax_tree_inv in Hbuild.
  pose proof (build_loop_alphabet _ _ _ Hbuild) as Hal.
  pose proof (build_loop_inv [] _ _ _ (build_inv_init regex order) Hbuild)
    as Hinv.
  apply construct_dfa_inv in Hc as (st & Hst & ->).
  apply minimize_dfa_inv in Hm as (d & m & Hd & Hm & ->).
  simpl in Hd, Hm, Hal. injection Hd as <-.
  exists postfix, root, built, tree, fp, st. eexists _, m.
  assert (Hfp0 : followpos built = ∅).
  { clear -Hbuild. revert Hbuild.
    assert (Hgen : ∀ l st st', for_each build_step st l = Ok st' →
                               followpos st'.2 = followpos st.2).
    { induction l as [|c l IH]; intros st st' H.
      - simpl in H. by simplify_eq.
      - rewrite for_each_cons in H. inv_bind H. rewrite (IH _ _ H).
        destruct st as [stack self]. unfold build_step in H0.
        repeat case_match; by simplify_eq. }
    intros H. by apply Hgen in H. }
  rewrite Hal in Htree, Hm. rewrite Hfp0 in Hfp. done.
Qed.

(** ** No move on the empty-string marker *)

Lemma numbered_table_symbols k ds p c :
  (p, c) ∈ table_of (numbered k ds) → c ≠ c_eps.
Proof.
  revert k. induction ds as [|d ds IH]; intros k; simpl.
  - by intros ?%elem_of_nil.
  - destruct (decide (d = c_eps)).
    + rewrite table_of_none. apply IH.
    + rewrite table_of_some. intros [?|?]%elem_of_cons; [by simplify_eq|eauto].
Qed.

Lemma symbol_at_elem table p s :
  symbol_at table p = Some s → ∃ n, (n, s) ∈ table.
Proof.
  destruct p as [n|]; simpl; [|done]. intros H%dict_get_Some_elem. eauto.
Qed.

Lemma move_symbol self S s x :
  x ∈ move self S s → ∃ n, (n, s) ∈ pos_to_symbol self.
Proof. intros (p & _ & Hp & _)%elem_of_move. by eapply symbol_at_elem. Qed.

Lemma remap_transitions_labels m T NT :
  remap_transitions m T = Ok NT →
  ∀ i s j, ((i, s), j) ∈ NT → ∃ q q', ((q, s), q') ∈ T.
Proof.
  unfold remap_transitions.
  assert (Hgen : ∀ T acc NT,
    for_each (remap_step m) acc T = Ok NT →
    ∀ i s j, ((i, s), j) ∈ NT →
             ((i, s), j) ∈ acc ∨ ∃ q q', ((q, s), q') ∈ T).
  { clear. induction T as [|[[q s0] q'] T IH]; intros acc NT H i s j Hin.
    - simpl in H. simplify_eq. by left.
    - rewrite for_each_cons in H. inv_bind H. unfold remap_step in H0.
      inv_bind H0. inv_bind H0. simplify_eq.
      destruct (IH _ _ H _ _ _ Hin) as [Hacc|(q1 & q2 & ?)].
      + apply dict_set_elem in Hacc as [?|?]; [|by left].
        simplify_eq. right. exists q, q'. apply list_elem_of_here.
      + right. exists q1, q2. by apply list_elem_of_further. }
  intros H i s j Hin.
  destruct (Hgen _ _ _ H _ _ _ Hin) as [?%elem_of_nil|?]; done.
Qed.

Lemma path_uses_transition sigma d q w q' c :
  path sigma d q w q' → c ∈ w →
  ∃ q1 q2, dict_get (transitions d) (q1, c) = Some q2.
Proof.
  induction 1 as [|q c0 q1 w q2 Hc Ht Hp IH]; [by intros ?%elem_of_nil|].
  intros [->|?]%elem_of_cons; eauto.
Qed.

Lemma simulate_no_transition sigma d w c :
  (∀ q, dict_get (transitions d) (q, c) = None) → c ∈ w →
  simulate sigma d w = false.
Proof.
  intros Hnone Hc. apply not_true_is_false. intros Hs.
  apply simulate_true in Hs as (q & Hp & _).
  destruct (path_uses_transition _ _ _ _ _ _ Hp Hc) as (q1 & q2 & Ht).
  by rewrite Hnone in Ht.
Qed.

(** C10: after a successful run no position is mapped to the empty-string
    marker and neither automaton has a transition labelled with it; the
    marker is nevertheless in the alphabet when the expression contains
    it, so it passes the alphabet test of the simulator; and every input
    that contains it is rejected, by either automaton. *)
Theorem no_epsilon_moves (regex : str) (order : list char) (fuel : nat)
    (final : RegexToDFA) :
  set_order (alphabet_chars regex) order →
  process fuel (init regex order) = Ok final →
  (∀ p, dict_get (pos_to_symbol final) p ≠ Some c_eps) ∧
  (∃ d m, dfa final = Some d ∧ minimized_dfa final = Some m ∧
          (∀ q, dict_get (transitions d) (q, c_eps) = None) ∧
          (∀ q, dict_get (transitions m) (q, c_eps) = None)) ∧
  (c_eps ∈ regex → in_str c_eps (alphabet final) = true) ∧
  (∀ w minimized, c_eps ∈ w → simulate_dfa final w minimized = Ok false).
Proof.
  intros [_ Horder] H.
  apply process_stages in H
    as (postfix & root & built & tree & fp & st & d & m &
        Hpost & Hbuild & Htree & Hfp & Hst & Hd & Hm & Hal & ->).
  pose proof (build_loop_inv [] _ _ _ (build_inv_init regex order) Hbuild)
    as (_ & _ & Htable & _). simpl in Htable.
  assert (Hsym : ∀ n, (n, c_eps) ∉ pos_to_symbol built).
  { intros n Hin. rewrite Htable in Hin.
    by apply numbered_table_symbols in Hin. }
  assert (Hd_eps : ∀ q, dict_get (transitions d) (q, c_eps) = None).
  { intros q. destruct (dict_get (transitions d) (q, c_eps)) as [q'|] eqn:Hq;
      [|done]. exfalso.
    apply construct_states_cinv in Hst
      as (I & e & popped & _ & _ & Hinv & _).
    subst d. simpl in Hq.
    apply (ci_trans _ _ _ _ _ _ _ Hinv) in Hq as (S & _ & _ & Hne & _).
    apply set_choose_L in Hne as [x Hx].
    apply move_symbol in Hx as [n Hn]. by apply (Hsym n). }
  assert (Hm_eps : ∀ q, dict_get (transitions m) (q, c_eps) = None).
  { intros q. destruct (dict_get (transitions m) (q, c_eps)) as [q'|] eqn:Hq;
      [|done]. exfalso.
    apply dict_get_Some_elem in Hq.
    unfold minimize in Hm. inv_bind Hm. inv_bind Hm. inv_bind Hm. inv_bind Hm.
    simplify_eq. simpl in Hq.
    apply (remap_transitions_labels _ _ _ Hm1) in Hq as (q1 & q2 & Hin).
    apply dict_get_elem in Hin; [by rewrite Hd_eps in Hin|].
    apply construct_states_cinv in Hst
      as (I & e & popped & _ & _ & Hinv & _). apply Hinv. }
  split_and!.
  - intros p Hp%dict_get_Some_elem. by apply (Hsym p).
  - by exists d, m.
  - intros Hin. simpl. rewrite Hal. apply in_str_true, Horder.
    unfold alphabet_chars. apply list_elem_of_filter. split; [|done].
    reflexivity.
  - intros w minimized Hw. unfold simulate_dfa, chosen_dfa. simpl.
    destruct minimized; simpl; f_equal;
      by apply (simulate_no_transition _ _ _ c_eps).
Qed.

(** ** Partition refinement *)

Lemma inter_diff_union (B X : gset nat) : B = (B ∩ X) ∪ (B ∖ X).
Proof.
  apply set_eq. intros q. destruct (decide (q ∈ X)); set_solver.
Qed.

Lemma diff_diff_inter (B X : gset nat) : B ∩ X = B ∖ (B ∖ X).
Proof.
  apply set_eq. intros q. destruct (decide (q ∈ X)); set_solver.
Qed.

Lemma diff_inter_diff (B X : gset nat) : B ∖ X = B ∖ (B ∩ X).
Proof.
  apply set_eq. intros q. destruct (decide (q ∈ X)); set_solver.
Qed.

Lemma elem_of_pieces X B C :
  C ∈ pieces X B ↔
  (C = B ∧ ¬ (B ∩ X ≠ ∅ ∧ B ∖ X ≠ ∅)) ∨
  ((C = B ∩ X ∨ C = B ∖ X) ∧ B ∩ X ≠ ∅ ∧ B ∖ X ≠ ∅).
Proof.
  unfold pieces. destruct (decide (B ∩ X ≠ ∅ ∧ B ∖ X ≠ ∅)) as [H|H].
  - rewrite !elem_of_cons, elem_of_nil. tauto.
  - rewrite list_elem_of_singleton. tauto.
Qed.

Lemma pieces_subseteq X B C : C ∈ pieces X B → C ⊆ B.
Proof.
  intros [[-> _]|[[-> | ->] _]]%elem_of_pieces; set_solver.
Qed.

Lemma pieces_stable X B C :
  C ∈ pieces X B → C ⊆ X ∨ C ## X.
Proof.
  intros [[-> Hn]|[[-> | ->] _]]%elem_of_pieces.
  - destruct (decide (B ∩ X = ∅)) as [He|He]; [right; set_solver|].
    destruct (decide (B ∖ X = ∅)) as [He'|He']; [|tauto].
    left. intros q Hq. destruct (decide (q ∈ X)); [done|]. set_solver.
  - left. set_solver.
  - right. set_solver.
Qed.

Lemma elem_of_remove_first B W Y :
  Y ∈ W → Y = B ∨ Y ∈ remove_first B W.
Proof.
  induction W as [|Z W IH]; simpl; [by intros ?%elem_of_nil|].
  intros [->|HY]%elem_of_cons.
  - destruct (decide (Z = B)); [by left|]. right. apply list_elem_of_here.
  - destruct (decide (Z = B)); [by right|].
    destruct (IH HY); [by left|]. right. by apply list_elem_of_further.
Qed.

Lemma refines_refl P : refines P P.
Proof. intros B HB. by exists B. Qed.

Lemma refines_trans P1 P2 P3 : refines P1 P2 → refines P2 P3 → refines P1 P3.
Proof.
  intros H12 H23 B1 HB1. destruct (H12 B1 HB1) as (B2 & HB2 & ?).
  destruct (H23 B2 HB2) as (B3 & HB3 & ?). exists B3. split; [done|set_solver].
Qed.

Lemma pieces_refines X P : refines (P ≫= pieces X) P.
Proof.
  intros B1 (B & HB1 & HB)%list_elem_of_bind. exists B.
  split; [done|]. by eapply pieces_subseteq.
Qed.

Lemma pairwise_disjoint_app P1 P2 :
  pairwise_disjoint (P1 ++ P2) ↔
  pairwise_disjoint P1 ∧ pairwise_disjoint P2 ∧
  ∀ B1 B2, B1 ∈ P1 → B2 ∈ P2 → B1 ## B2.
Proof.
  induction P1 as [|B P1 IH]; simpl.
  - split; [intros ?; split_and!; [done..|]; by intros ?? ?%elem_of_nil|tauto].
  - rewrite IH. setoid_rewrite elem_of_app. setoid_rewrite elem_of_cons.
    split.
    + intros (HB & H1 & H2 & H12). split_and!; auto.
      intros B1 B2 [->|?] ?; auto.
    + intros ((HB & H1) & H2 & H12). split_and!; auto.
      intros B' [?|?]; auto.
Qed.

Lemma pieces_disjoint X B : pairwise_disjoint (pieces X B).
Proof.
  unfold pieces. destruct (decide _); simpl; [|by split; [intros ? ?%elem_of_nil|]].
  split; [|by split; [intros ? ?%elem_of_nil|]].
  intros B' ->%list_elem_of_singleton. set_solver.
Qed.

Lemma pieces_union X B : ⋃ (pieces X B) = B.
Proof.
  unfold pieces. destruct (decide _); simpl.
  - rewrite (inter_diff_union B X) at 3. set_solver.
  - set_solver.
Qed.

Lemma pieces_nonempty X B C : B ≠ ∅ → C ∈ pieces X B → C ≠ ∅.
Proof.
  intros HB [[-> _]|[[-> | ->] [? ?]]]%elem_of_pieces; done.
Qed.

Lemma pieces_partition X P Q :
  partition_of P Q → partition_of (P ≫= pieces X) Q.
Proof.
  intros (Hne & Hdis & Hcov). split_and!.
  - intros C (B & HC & HB)%list_elem_of_bind. eapply pieces_nonempty; eauto.
  - clear Hne Hcov. induction P as [|B P IH]; [done|].
    simpl in Hdis. destruct Hdis as [HB Hdis]. rewrite bind_cons.
    apply pairwise_disjoint_app. split_and!; [apply pieces_disjoint|auto|].
    intros B1 B2 HB1%pieces_subseteq (B' & HB2%pieces_subseteq & HB')%list_elem_of_bind.
    specialize (HB B' HB'). set_solver.
  - rewrite <- Hcov. clear. induction P as [|B P IH]; [done|].
    rewrite bind_cons, union_list_app_L, IH, pieces_union. reflexivity.
Qed.

Section refinement.
Context (T : list ((nat * N) * nat)) (n : nat) (sigma : list N).
Hypothesis T_range : ∀ q s q', dict_get T (q, s) = Some q' → q < n ∧ q' < n.

Lemma elem_of_predecessors q c X :
  q ∈ predecessors T n c X ↔ ∃ q', dict_get T (q, c) = Some q' ∧ q' ∈ X.
Proof using T_range.
  unfold predecessors.
  assert (Hgen : ∀ l acc,
    q ∈ foldl (add_predecessor T c X) acc l ↔
    q ∈ acc ∨ (q ∈ l ∧ ∃ q', dict_get T (q, c) = Some q' ∧ q' ∈ X)).
  { induction l as [|x l IH]; intros acc; simpl.
    - split; [by left|]. intros [?|[?%elem_of_nil _]]; done.
    - rewrite IH, elem_of_cons. clear IH. unfold add_predecessor.
      destruct (dict_get T (x, c)) as [dest|] eqn:Hx.
      + destruct (decide (dest ∈ X)).
        * rewrite elem_of_union, elem_of_singleton. split.
          -- intros [[?| ->]|[? ?]]; eauto 10.
          -- intros [?|[[-> |?] ?]]; eauto.
        * split.
          -- intros [?|[? ?]]; eauto.
          -- intros [?|[[-> |?] (q' & Hq' & ?)]]; eauto. congruence.
      + split.
        * intros [?|[? ?]]; eauto.
        * intros [?|[[-> |?] (q' & Hq' & ?)]]; eauto. congruence. }
  rewrite Hgen. split.
  - intros [?%elem_of_empty|[_ ?]]; done.
  - intros (q' & Hq' & ?). right. split; [|eauto].
    apply elem_of_seq. apply T_range in Hq'. lia.
Qed.

Lemma predecessors_union c X Y :
  predecessors T n c (X ∪ Y) = predecessors T n c X ∪ predecessors T n c Y.
Proof using T_range.
  apply set_eq. intros q.
  rewrite elem_of_union, !elem_of_predecessors.
  setoid_rewrite elem_of_union. naive_solver.
Qed.

Lemma predecessors_difference c X Y :
  predecessors T n c (X ∖ Y) = predecessors T n c X ∖ predecessors T n c Y.
Proof using T_range.
  apply set_eq. intros q.
  rewrite elem_of_difference, !elem_of_predecessors.
  setoid_rewrite elem_of_difference. split.
  - intros (q' & Hq' & ? & ?). split; [eauto|].
    intros (q'' & Hq'' & ?). congruence.
  - intros [(q' & Hq' & ?) Hn]. exists q'. split; [done|]. split; [done|].
    intros ?. apply Hn. eauto.
Qed.

Lemma stable_union P X Y c :
  stable T n P X c → stable T n P Y c → stable T n P (X ∪ Y) c.
Proof using T_range.
  intros HX HY B HB. rewrite predecessors_union.
  destruct (HX B HB), (HY B HB); set_solver.
Qed.

Lemma stable_difference P X Y c :
  stable T n P X c → stable T n P Y c → stable T n P (X ∖ Y) c.
Proof using T_range.
  intros HX HY B HB. rewrite predecessors_difference.
  destruct (HX B HB), (HY B HB); set_solver.
Qed.

Lemma stable_refines P' P X c :
  refines P' P → stable T n P X c → stable T n P' X c.
Proof.
  clear T_range.
  intros Href HP B' HB'. destruct (Href B' HB') as (B & HB & Hsub).
  destruct (HP B HB); set_solver.
Qed.

Lemma split_step_spec X NP W B :
  ∃ W', split_step X (NP, W) B = (NP ++ pieces X B, W') ∧
    (∀ P', wstable T n sigma P' W' → wstable T n sigma P' W) ∧
    (B ∩ X ≠ ∅ → B ∖ X ≠ ∅ →
     ∀ P' c, wstable T n sigma P' W' → c ∈ sigma → stable T n P' B c →
             stable T n P' (B ∩ X) c ∧ stable T n P' (B ∖ X) c).
Proof using T_range.
  unfold split_step, pieces.
  destruct (decide (B ∩ X ≠ ∅ ∧ B ∖ X ≠ ∅)) as [[H1 H2]|Hn].
  - destruct (decide (B ∈ W)) as [HB|HB]; [|destruct (decide (size (B ∩ X) ≤ size (B ∖ X)))].
    + eexists. split; [reflexivity|]. split.
      * intros P' HW Y c HY Hc.
        assert (HI : stable T n P' (B ∩ X) c)
          by (apply HW; [|done]; rewrite elem_of_app, !elem_of_cons; auto).
        assert (HD : stable T n P' (B ∖ X) c)
          by (apply HW; [|done]; rewrite elem_of_app, !elem_of_cons; auto).
        destruct (elem_of_remove_first B W Y HY) as [->|HY'].
        -- rewrite (inter_diff_union B X). by apply stable_union.
        -- apply HW; [|done]. apply elem_of_app. by left.
      * intros _ _ P' c HW Hc _.
        split; (apply HW; [|done]; rewrite elem_of_app, !elem_of_cons; auto).
    + eexists. split; [reflexivity|]. split.
      * intros P' HW Y c HY Hc. apply HW; [|done]. apply elem_of_app. by left.
      * intros _ _ P' c HW Hc HBs.
        assert (HI : stable T n P' (B ∩ X) c).
        { apply HW; [|done]. apply elem_of_app. right.
          by apply list_elem_of_singleton. }
        split; [done|]. rewrite diff_inter_diff. by apply stable_difference.
    + eexists. split; [reflexivity|]. split.
      * intros P' HW Y c HY Hc. apply HW; [|done]. apply elem_of_app. by left.
      * intros _ _ P' c HW Hc HBs.
        assert (HD : stable T n P' (B ∖ X) c).
        { apply HW; [|done]. apply elem_of_app. right.
          by apply list_elem_of_singleton. }
        split; [|done]. rewrite diff_diff_inter. by apply stable_difference.
  - eexists. split; [reflexivity|]. split; [done|].
    intros ? ?. tauto.
Qed.

Lemma split_fold_spec X Bs NP W :
  ∃ W', foldl (split_step X) (NP, W) Bs = (NP ++ (Bs ≫= pieces X), W') ∧
    (∀ P', wstable T n sigma P' W' → wstable T n sigma P' W) ∧
    (∀ B, B ∈ Bs → B ∩ X ≠ ∅ → B ∖ X ≠ ∅ →
     ∀ P' c, wstable T n sigma P' W' → c ∈ sigma → stable T n P' B c →
             stable T n P' (B ∩ X) c ∧ stable T n P' (B ∖ X) c).
Proof using T_range.
  revert NP W. induction Bs as [|B Bs IH]; intros NP W.
  - exists W. simpl. rewrite app_nil_r. split; [done|]. split; [done|].
    by intros B ?%elem_of_nil.
  - destruct (split_step_spec X NP W B) as (W1 & Hstep & Hback & Hsplit).
    destruct (IH (NP ++ pieces X B) W1) as (W' & Hfold & Hback' & Hsplit').
    exists W'. split; [|split].
    + cbn [foldl]. rewrite Hstep, Hfold, bind_cons. by rewrite <- app_assoc.
    + auto.
    + intros B0 [->|HB0]%elem_of_cons; [|by apply Hsplit'].
      intros H1 H2 P' c HW. apply Hsplit; auto.
Qed.

Lemma refine_step_hinv A c rest P W :
  hinv T n sigma P W A (c :: rest) →
  ∃ W1,
    refine_step T n A (P, W) c = (P ≫= pieces (predecessors T n c A), W1) ∧
    hinv T n sigma (P ≫= pieces (predecessors T n c A)) W1 A rest.
Proof using T_range.
  intros Hinv. unfold refine_step.
  destruct (split_fold_spec (predecessors T n c A) P [] W)
    as (W1 & Hfold & Hback & Hsplit).
  exists W1. split; [done|].
  intros P' Href HW Hrest C c0 HC Hc0.
  set (X := predecessors T n c A) in *.
  assert (Href0 : refines P' P).
  { eapply refines_trans; [exact Href|apply pieces_refines]. }
  assert (HA : stable T n P' A c).
  { eapply stable_refines; [exact Href|].
    intros B1 (B & HB1 & HB)%list_elem_of_bind.
    destruct (pieces_stable _ _ _ HB1); [by left|by right]. }
  assert (Hold : ∀ B c', B ∈ P → c' ∈ sigma → stable T n P' B c').
  { apply Hinv; [done|by apply Hback|].
    intros c' [->|?]%elem_of_cons; auto. }
  apply list_elem_of_bind in HC as (B & HC & HB).
  apply elem_of_pieces in HC as [[-> _]|[HC [H1 H2]]]; [by apply Hold|].
  destruct (Hsplit B HB H1 H2 P' c0 HW Hc0 (Hold B c0 HB Hc0)).
  by destruct HC as [-> | ->].
Qed.

Lemma refine_symbols_hinv A l P W :
  hinv T n sigma P W A l →
  ∃ P1 W1,
    foldl (refine_step T n A) (P, W) l = (P1, W1) ∧
    hinv T n sigma P1 W1 A [] ∧ refines P1 P ∧
    ∀ Q, partition_of P Q → partition_of P1 Q.
Proof using T_range.
  revert P W. induction l as [|c l IH]; intros P W Hinv.
  - exists P, W. split; [done|]. split; [done|]. split; [apply refines_refl|done].
  - destruct (refine_step_hinv A c l P W Hinv) as (W1 & Hstep & Hinv1).
    destruct (IH _ _ Hinv1) as (P2 & W2 & Hfold & Hinv2 & Href & Hpart).
    exists P2, W2. cbn [foldl]. rewrite Hstep. split; [done|]. split; [done|].
    split.
    + eapply refines_trans; [done|]. apply pieces_refines.
    + intros Q HQ. apply Hpart. by apply pieces_partition.
Qed.

Lemma refine_loop_stable fuel P W Pf :
  refine_loop fuel sigma T n P W = Ok Pf →
  (∀ P', refines P' P → wstable T n sigma P' W →
         ∀ C c, C ∈ P → c ∈ sigma → stable T n P' C c) →
  (∀ C c, C ∈ Pf → c ∈ sigma → stable T n Pf C c) ∧
  refines Pf P ∧ ∀ Q, partition_of P Q → partition_of Pf Q.
Proof using T_range.
  revert P W. induction fuel as [|fuel IH]; intros P W Hloop Hinv.
  - destruct W; simpl in Hloop; [|done]. simplify_eq.
    split; [|split; [apply refines_refl|done]].
    apply Hinv; [apply refines_refl|]. by intros X c ?%elem_of_nil.
  - destruct W as [|A W]; cbn [refine_loop] in Hloop.
    { simplify_eq. split; [|split; [apply refines_refl|done]].
      apply Hinv; [apply refines_refl|]. by intros X c ?%elem_of_nil. }
    destruct (refine_symbols_hinv A sigma P W) as (P1 & W1 & Hfold & Hinv1 & Href & Hpart).
    { intros P' Href HW HA. apply Hinv; [done|].
      intros X c [->|?]%elem_of_cons ?; auto. }
    rewrite Hfold in Hloop.
    destruct (IH _ _ Hloop) as (Hst & Href' & Hpart').
    { intros P' HP' HW. apply Hinv1; [done..|]. by intros c ?%elem_of_nil. }
    split; [done|]. split; [by eapply refines_trans|auto].
Qed.
End refinement.

(** ** The initial partition *)

Lemma initial_partitions_elem n F B :
  B ∈ initial_partitions n F ↔
  B ≠ ∅ ∧ (B = set_seq 0 n ∖ F ∨ B = F).
Proof.
  unfold initial_partitions. rewrite list_elem_of_filter, !elem_of_cons, elem_of_nil.
  tauto.
Qed.

Lemma initial_partitions_partition n F :
  partition_of (initial_partitions n F) (set_seq 0 n ∪ F).
Proof.
  split_and!.
  - by intros B [? _]%initial_partitions_elem.
  - unfold initial_partitions.
    destruct (decide (set_seq 0 n ∖ F = ∅)) as [H1|H1];
      destruct (decide (F = ∅)) as [H2|H2];
      repeat (first [rewrite filter_cons_True by tauto
                    |rewrite filter_cons_False by tauto]);
      rewrite filter_nil; simpl; try done.
    + split; [|done]. by intros ? ?%elem_of_nil.
    + split; [|done]. by intros ? ?%elem_of_nil.
    + split; [|split; [|done]]; [|by intros ? ?%elem_of_nil].
      intros B' ->%list_elem_of_singleton. set_solver.
  - apply set_eq. intros q. rewrite elem_of_union_list. split.
    + intros (B & [_ [-> | ->]]%initial_partitions_elem & Hq); set_solver.
    + intros Hq. destruct (decide (q ∈ F)) as [HF|HF].
      * exists F. split; [|done]. apply initial_partitions_elem. set_solver.
      * exists (set_seq 0 n ∖ F). split; [|set_solver].
        apply initial_partitions_elem. set_solver.
Qed.

Lemma initial_partitions_final n F B :
  B ∈ initial_partitions n F → B ⊆ F ∨ B ## F.
Proof.
  intros [_ [-> | ->]]%initial_partitions_elem; [right|left]; set_solver.
Qed.

(** ** The block assignment *)

Lemma pairwise_disjoint_lookup P i j B B' q :
  pairwise_disjoint P → P !! i = Some B → P !! j = Some B' →
  q ∈ B → q ∈ B' → i = j.
Proof.
  revert i j. induction P as [|B0 P IH]; intros i j Hdis Hi Hj HB HB';
    [done|].
  destruct Hdis as [H0 Hdis].
  destruct i as [|i], j as [|j]; simpl in *; simplify_eq.
  - done.
  - apply list_elem_of_lookup_2 in Hj. specialize (H0 _ Hj). set_solver.
  - apply list_elem_of_lookup_2 in Hi. specialize (H0 _ Hi). set_solver.
  - f_equal. eauto.
Qed.

Lemma assign_block_lookup m i B q :
  assign_block m (i, B) !! q = if decide (q ∈ B) then Some i else m !! q.
Proof.
  unfold assign_block.
  assert (Hgen : ∀ (l : list nat) (m' : gmap nat nat),
    foldl (λ m state, <[ state := i ]> m) m' l !! q
    = if decide (q ∈ l) then Some i else m' !! q).
  { induction l as [|x l IH]; intros m0; cbn [foldl].
    - by rewrite decide_False by apply not_elem_of_nil.
    - rewrite IH. destruct (decide (q ∈ l)).
      + by rewrite decide_True by by apply list_elem_of_further.
      + destruct (decide (x = q)) as [->|Hne].
        * rewrite lookup_insert_eq.
          by rewrite decide_True by apply list_elem_of_here.
        * rewrite lookup_insert_ne by done.
          rewrite decide_False; [done|]. rewrite not_elem_of_cons. auto. }
  rewrite Hgen. destruct (decide (q ∈ B)).
  - by rewrite decide_True by by apply elem_of_elements.
  - by rewrite decide_False by by rewrite elem_of_elements.
Qed.

Lemma assign_blocks_Some L m q i :
  foldl assign_block m L !! q = Some i →
  m !! q = Some i ∨ ∃ B, (i, B) ∈ L ∧ q ∈ B.
Proof.
  revert m. induction L as [|[j B] L IH]; intros m; cbn [foldl]; [by left|].
  intros [Hm|(B' & ? & ?)]%IH.
  - rewrite assign_block_lookup in Hm. destruct (decide (q ∈ B)).
    + simplify_eq. right. exists B. split; [apply list_elem_of_here|done].
    + by left.
  - right. exists B'. split; [by apply list_elem_of_further|done].
Qed.

Lemma assign_blocks_is_Some L m q :
  is_Some (m !! q) ∨ (∃ i B, (i, B) ∈ L ∧ q ∈ B) →
  is_Some (foldl assign_block m L !! q).
Proof.
  revert m. induction L as [|[j B] L IH]; intros m; cbn [foldl].
  - intros [?|(? & ? & ?%elem_of_nil & _)]; done.
  - intros H. apply IH. rewrite assign_block_lookup.
    destruct (decide (q ∈ B)); [by left|].
    destruct H as [?|(i & B' & [?|?]%elem_of_cons & ?)]; [by left| |eauto].
    by simplify_eq.
Qed.

Lemma state_mapping_Some P q i :
  state_mapping P !! q = Some i → ∃ B, P !! i = Some B ∧ q ∈ B.
Proof.
  unfold state_mapping. intros [?|(B & HB & ?)]%assign_blocks_Some; [done|].
  exists B. split; [|done].
  apply elem_of_lookup_imap in HB as (j & B' & ? & ?). by simplify_eq.
Qed.

Lemma state_mapping_lookup P i B q :
  pairwise_disjoint P → P !! i = Some B → q ∈ B →
  state_mapping P !! q = Some i.
Proof.
  intros Hdis Hi Hq.
  destruct (assign_blocks_is_Some (imap pair P) ∅ q) as [j Hj].
  { right. exists i, B. split; [|done]. by apply elem_of_lookup_imap_2. }
  fold (state_mapping P) in Hj.
  destruct (state_mapping_Some _ _ _ Hj) as (B' & Hj' & Hq').
  by rewrite (pairwise_disjoint_lookup _ _ _ _ _ _ Hdis Hi Hj' Hq Hq').
Qed.

(** ** The remapped tables *)

Lemma mapping_item_Ok m q i : mapping_item m q = Ok i ↔ m !! q = Some i.
Proof. unfold mapping_item. destruct (m !! q); split; congruence. Qed.

Lemma remap_loop_spec m T acc NT :
  for_each (remap_step m) acc T = Ok NT →
  (∀ i c j, dict_get NT (i, c) = Some j →
            dict_get acc (i, c) = Some j ∨
            ∃ q q', ((q, c), q') ∈ T ∧ m !! q = Some i ∧ m !! q' = Some j) ∧
  (∀ k, is_Some (dict_get acc k) → is_Some (dict_get NT k)) ∧
  (∀ q c q' i, ((q, c), q') ∈ T → m !! q = Some i →
               is_Some (dict_get NT (i, c))).
Proof.
  revert acc. induction T as [|[[q0 c0] q0'] T IH]; intros acc H.
  - simpl in H. simplify_eq. split_and!; [by left|done|].
    by intros ???? ?%elem_of_nil.
  - rewrite for_each_cons in H. inv_bind H. unfold remap_step in H0.
    inv_bind H0. inv_bind H0. simplify_eq.
    apply mapping_item_Ok in H1, H2.
    destruct (IH _ H) as (IH1 & IH2 & IH3). split_and!.
    + intros i c j [Hacc|(q & q' & ? & ? & ?)]%IH1.
      * rewrite dict_get_set in Hacc.
        destruct (decide ((x0, c0) = (i, c))); [|by left].
        simplify_eq. right. exists q0, q0'. split; [apply list_elem_of_here|done].
      * right. exists q, q'. split; [by apply list_elem_of_further|done].
    + intros k Hk. apply IH2. rewrite dict_get_set.
      by destruct (decide ((x0, c0) = k)).
    + intros q c q' i [?|?]%elem_of_cons Hq; [|eauto].
      simplify_eq. apply IH2. rewrite dict_get_set.
      by rewrite decide_True.
Qed.

Lemma remap_final_spec m l acc NF :
  for_each (remap_final_step m) acc l = Ok NF →
  ∀ i, i ∈ NF ↔ i ∈ acc ∨ ∃ f, f ∈ l ∧ m !! f = Some i.
Proof.
  revert acc. induction l as [|f0 l IH]; intros acc H i.
  - simpl in H. simplify_eq. split; [by left|].
    intros [?|(? & ?%elem_of_nil & _)]; done.
  - rewrite for_each_cons in H. inv_bind H. unfold remap_final_step in H0.
    inv_bind H0. simplify_eq. apply mapping_item_Ok in H1.
    rewrite (IH _ H), elem_of_union, elem_of_singleton. split.
    + intros [[?| ->]|(f & ? & ?)]; [by left|right..].
      * exists f0. split; [apply list_elem_of_here|done].
      * exists f. split; [by apply list_elem_of_further|done].
    + intros [?|(f & [->|?]%elem_of_cons & Hf)]; [by left; left|..].
      * left. right. congruence.
      * right. eauto.
Qed.

(** ** The quotient automaton accepts the same strings *)

Section quotient.
Context (sigma : list N) (d dm : automaton) (P : list (gset nat)).
Hypothesis Hwf : wf_dfa d.
Hypothesis Hpart : partition_of P (set_seq 0 (states d) ∪ final_states d).
Hypothesis Hstable :
  ∀ C c, C ∈ P → c ∈ sigma → stable (transitions d) (states d) P C c.
Hypothesis Hfinal : ∀ B, B ∈ P → B ⊆ final_states d ∨ B ## final_states d.
Hypothesis Htrans :
  remap_transitions (state_mapping P) (transitions d) = Ok (transitions dm).
Hypothesis Hfin :
  remap_final (state_mapping P) (final_states d) = Ok (final_states dm).

Lemma block_of q :
  q < states d →
  ∃ i B, P !! i = Some B ∧ q ∈ B ∧ state_mapping P !! q = Some i.
Proof using Hpart.
  intros Hq. destruct Hpart as (_ & Hdis & Hcov).
  assert (Hin : q ∈ ⋃ P).
  { rewrite Hcov. apply elem_of_union_l, elem_of_set_seq. lia. }
  apply elem_of_union_list in Hin as (B & HB & HqB).
  apply list_elem_of_lookup in HB as [i Hi].
  exists i, B. split; [done|]. split; [done|].
  by eapply state_mapping_lookup.
Qed.

Lemma same_block q1 q2 i c q1' j :
  state_mapping P !! q1 = Some i →
  state_mapping P !! q2 = Some i →
  c ∈ sigma →
  dict_get (transitions d) (q1, c) = Some q1' →
  state_mapping P !! q1' = Some j →
  ∃ q2', dict_get (transitions d) (q2, c) = Some q2' ∧
         state_mapping P !! q2' = Some j.
Proof using Hwf Hpart Hstable.
  intros H1 H2 Hc Ht Hj.
  destruct Hwf as (_ & Hrange & _). destruct Hpart as (_ & Hdis & _).
  apply state_mapping_Some in H1 as (B & HB & Hq1).
  apply state_mapping_Some in H2 as (B' & HB' & Hq2).
  assert (B' = B) as -> by congruence.
  apply state_mapping_Some in Hj as (C & HC & Hq1').
  assert (Hq1p : q1 ∈ predecessors (transitions d) (states d) c C).
  { apply elem_of_predecessors; [done|]. eauto. }
  assert (HBin : B ∈ P) by (by eapply list_elem_of_lookup_2).
  assert (HCin : C ∈ P) by (by eapply list_elem_of_lookup_2).
  destruct (Hstable C c HCin Hc B HBin) as [Hsub|Hdisj].
  - apply Hsub, elem_of_predecessors in Hq2 as (q2' & ? & ?); [|done].
    exists q2'. split; [done|]. by eapply state_mapping_lookup.
  - rewrite elem_of_disjoint in Hdisj. by destruct (Hdisj q1).
Qed.

Lemma quotient_step q i c :
  q < states d → state_mapping P !! q = Some i → c ∈ sigma →
  match dict_get (transitions d) (q, c) with
  | Some q' => ∃ j, dict_get (transitions dm) (i, c) = Some j ∧
                    state_mapping P !! q' = Some j ∧ q' < states d
  | None => dict_get (transitions dm) (i, c) = None
  end.
Proof using Hwf Hpart Hstable Htrans.
  intros Hq Hi Hc.
  destruct (remap_loop_spec _ _ _ _ Htrans) as (R1 & _ & R3).
  pose proof Hwf as (Hkeys & Hrange & _).
  destruct (dict_get (transitions d) (q, c)) as [q'|] eqn:Ht.
  - destruct (R3 q c q' i) as [j Hj];
      [by apply dict_get_Some_elem|done|].
    exists j. split; [done|]. split; [|by apply Hrange in Ht as [_ ?]].
    apply R1 in Hj as [?|(q1 & q1' & Hin & H1 & H1')]; [done|].
    apply dict_get_elem in Hin; [|done].
    destruct (same_block q1 q i c q1' j) as (q2' & Hq2' & ?); try done.
    congruence.
  - destruct (dict_get (transitions dm) (i, c)) as [j|] eqn:Hj; [|done].
    apply R1 in Hj as [?|(q1 & q1' & Hin & H1 & H1')]; [done|].
    apply dict_get_elem in Hin; [|done].
    destruct (same_block q1 q i c q1' j) as (q2' & Hq2' & ?); try done.
    congruence.
Qed.

Lemma quotient_final q i :
  q < states d → state_mapping P !! q = Some i →
  q ∈ final_states d ↔ i ∈ final_states dm.
Proof using Hpart Hfinal Hfin.
  intros Hq Hi. rewrite (remap_final_spec _ _ _ _ Hfin). split.
  - intros HF. right. exists q. split; [by apply elem_of_elements|done].
  - intros [?%elem_of_empty|(f & Hf%elem_of_elements & Hfi)]; [done|].
    apply state_mapping_Some in Hi as (B & HB & HqB).
    apply state_mapping_Some in Hfi as (B' & HB' & HfB).
    assert (B' = B) as -> by congruence.
    destruct (Hfinal B) as [Hsub|Hdisj];
      [by eapply list_elem_of_lookup_2|by apply Hsub|].
    rewrite elem_of_disjoint in Hdisj. by destruct (Hdisj f).
Qed.

Lemma quotient_simulate w q i :
  q < states d → state_mapping P !! q = Some i →
  match for_return (simulate_step sigma d) q w with
  | Return r => r
  | Continue q' => bool_decide (q' ∈ final_states d)
  end =
  match for_return (simulate_step sigma dm) i w with
  | Return r => r
  | Continue i' => bool_decide (i' ∈ final_states dm)
  end.
Proof using Hwf Hpart Hstable Hfinal Htrans Hfin.
  revert q i. induction w as [|c w IH]; intros q i Hq Hi; simpl.
  - apply bool_decide_ext. by apply quotient_final.
  - unfold simulate_step at 1 3.
    destruct (in_str c sigma) eqn:Hc; simpl; [|done].
    apply in_str_true in Hc.
    pose proof (quotient_step q i c Hq Hi Hc) as Hstep.
    destruct (dict_get (transitions d) (q, c)) as [q'|].
    + destruct Hstep as (j & -> & Hj & Hq'). by apply IH.
    + by rewrite Hstep.
Qed.
End quotient.

Theorem minimize_preserves fuel sigma d dm :
  wf_dfa d → minimize fuel sigma d = Ok dm →
  ∀ w, simulate sigma dm w = simulate sigma d w.
Proof.
  intros Hwf Hmin w. unfold minimize in Hmin.
  inv_bind Hmin. rename x into P. inv_bind Hmin. inv_bind Hmin. inv_bind Hmin.
  simplify_eq. apply mapping_item_Ok in Hmin3.
  pose proof Hwf as (Hkeys & Hrange & Hinit).
  destruct (refine_loop_stable (transitions d) (states d) sigma Hrange
              _ _ _ _ Hmin0) as (Hstable & Href & Hpart).
  { intros P' _ HW C c HC Hc. by apply HW. }
  specialize (Hpart _ (initial_partitions_partition _ _)).
  unfold simulate. symmetry.
  apply (quotient_simulate sigma d _ P); try done.
  intros B HB. destruct (Href B HB) as (B0 & HB0 & Hsub).
  destruct (initial_partitions_final _ _ _ HB0); [left|right]; set_solver.
Qed.

Lemma construct_states_wf self fuel st :
  construct_states fuel self = Ok st →
  wf_dfa (Automaton (length (c_states st)) 0 (c_final st) (c_transitions st)).
Proof.
  intros (I & e & popped & _ & _ & Hinv & _)%construct_states_cinv.
  split_and!; simpl.
  - apply Hinv.
  - intros q s q' (S & HS & _ & _ & HS')%(ci_trans _ _ _ _ _ _ _ Hinv).
    split; by eapply cinv_id_lt.
  - eapply cinv_id_lt; [done|]. apply Hinv.
Qed.

(** C1: when the pipeline succeeds on an expression, simulating any input
    on the automaton built by [construct_dfa] and on the one built from it
    by [minimize_dfa] gives the same boolean. *)
Theorem minimization_preserves_language (regex : str) (order : list char)
    (fuel : nat) (final : RegexToDFA) (w : str) :
  process fuel (init regex order) = Ok final →
  ∃ d m,
    dfa final = Some d ∧ minimized_dfa final = Some m ∧
    simulate_dfa final w false = Ok (simulate (alphabet final) d w) ∧
    simulate_dfa final w true = Ok (simulate (alphabet final) m w) ∧
    simulate (alphabet final) d w = simulate (alphabet final) m w.
Proof.
  intros H.
  apply process_stages in H
    as (postfix & root & built & tree & fp & st & d & m &
        _ & _ & _ & _ & Hst & Hd & Hm & Hal & ->).
  exists d, m. split_and!; try done. simpl. rewrite Hal. symmetry.
  eapply minimize_preserves; [|done]. subst d. by eapply construct_states_wf.
Qed.

(** ** The pipeline returns whenever parsing succeeds *)

Lemma for_each_total {A S} (body : S → A → res S) l s :
  (∀ s x, x ∈ l → ∃ s', body s x = Ok s') → ∃ s', for_each body s l = Ok s'.
Proof.
  revert s. induction l as [|x l IH]; intros s Hbody; [by exists s|].
  destruct (Hbody s x) as [s1 Hs1]; [apply list_elem_of_here|].
  destruct (IH s1) as [s' Hs'].
  { intros s0 y Hy. apply Hbody. by apply list_elem_of_further. }
  exists s'. by rewrite for_each_cons, Hs1.
Qed.

Lemma remove_first_length B W :
  B ∈ W → S (length (remove_first B W)) = length W.
Proof.
  induction W as [|Y W IH]; simpl; [by intros ?%elem_of_nil|].
  destruct (decide (Y = B)); [done|].
  intros [?|?]%elem_of_cons; [congruence|]. simpl. by rewrite IH.
Qed.

Lemma split_step_length X NP W B :
  ∃ W', split_step X (NP, W) B = (NP ++ pieces X B, W') ∧
        length W' + 1 = length W + length (pieces X B).
Proof.
  unfold split_step, pieces.
  destruct (decide (B ∩ X ≠ ∅ ∧ B ∖ X ≠ ∅)) as [?|?].
  - destruct (decide (B ∈ W)) as [HB|HB];
      [|destruct (decide (size (B ∩ X) ≤ size (B ∖ X)))];
      (eexists; split; [reflexivity|]); rewrite length_app; simpl.
    + apply remove_first_length in HB. lia.
    + lia.
    + lia.
  - eexists. split; [reflexivity|]. simpl. lia.
Qed.

Lemma split_fold_length X Bs NP W :
  ∃ W', foldl (split_step X) (NP, W) Bs = (NP ++ (Bs ≫= pieces X), W') ∧
        length W' + length Bs = length W + length (Bs ≫= pieces X).
Proof.
  revert NP W. induction Bs as [|B Bs IH]; intros NP W.
  - exists W. simpl. by rewrite app_nil_r.
  - destruct (split_step_length X NP W B) as (W1 & Hstep & Hlen).
    destruct (IH (NP ++ pieces X B) W1) as (W' & Hfold & Hlen').
    exists W'. split.
    + cbn [foldl]. rewrite Hstep, Hfold, bind_cons. by rewrite <- app_assoc.
    + rewrite bind_cons, length_app. simpl. lia.
Qed.

Lemma refine_symbols_length T n A l P W Q :
  partition_of P Q →
  ∃ P1 W1,
    foldl (refine_step T n A) (P, W) l = (P1, W1) ∧
    length W1 + length P = length W + length P1 ∧
    partition_of P1 Q.
Proof.
  revert P W. induction l as [|c l IH]; intros P W HP.
  - exists P, W. split; [done|]. split; [lia|done].
  - destruct (split_fold_length (predecessors T n c A) P [] W)
      as (W1 & Hfold & Hlen).
    destruct (IH (P ≫= pieces (predecessors T n c A)) W1)
      as (P2 & W2 & Hfold2 & Hlen2 & HP2); [by apply pieces_partition|].
    exists P2, W2. split; [|split; [lia|done]].
    cbn [foldl]. unfold refine_step at 2. by rewrite Hfold.
Qed.

Lemma partition_length P Q : partition_of P Q → length P ≤ size Q.
Proof.
  intros (Hne & Hdis & <-). induction P as [|B P IH]; simpl; [lia|].
  destruct Hdis as [HB Hdis].
  rewrite size_union.
  - assert (size B ≠ 0).
    { intros ?%size_empty_inv. apply (Hne B); [apply list_elem_of_here|].
      by apply leibniz_equiv. }
    assert (length P ≤ size (⋃ P)).
    { apply IH; [|done]. intros B' HB'. apply Hne. by apply list_elem_of_further. }
    lia.
  - apply elem_of_disjoint. intros q Hq (B' & HB' & Hq')%elem_of_union_list.
    specialize (HB B' HB'). rewrite elem_of_disjoint in HB. by apply (HB q).
Qed.

Lemma refine_loop_total fuel sigma T n P W Q :
  partition_of P Q →
  length W + size Q ≤ fuel + length P →
  ∃ Pf, refine_loop fuel sigma T n P W = Ok Pf ∧ partition_of Pf Q.
Proof.
  revert P W. induction fuel as [|fuel IH]; intros P W HP Hfuel.
  - destruct W as [|A W]; [by exists P|].
    apply partition_length in HP. simpl in Hfuel. lia.
  - destruct W as [|A W]; [by exists P|]. cbn [refine_loop].
    destruct (refine_symbols_length T n A sigma P W Q HP)
      as (P1 & W1 & -> & Hlen & HP1).
    apply IH; [done|]. simpl in Hfuel. lia.
Qed.

Lemma state_mapping_total P q : q ∈ ⋃ P → ∃ i, state_mapping P !! q = Some i.
Proof.
  intros (B & HB & Hq)%elem_of_union_list.
  apply list_elem_of_lookup in HB as [i Hi].
  apply (assign_blocks_is_Some (imap pair P) ∅ q).
  right. exists i, B. split; [|done]. by apply elem_of_lookup_imap_2.
Qed.

Lemma minimize_total fuel sigma d :
  wf_dfa d →
  size (set_seq 0 (states d) ∪ final_states d : gset nat) ≤ fuel →
  ∃ dm, minimize fuel sigma d = Ok dm.
Proof.
  intros (Hkeys & Hrange & Hinit) Hfuel.
  unfold minimize, remap_transitions, remap_final.
  pose proof (initial_partitions_partition (states d) (final_states d)) as HP0.
  destruct (refine_loop_total fuel sigma (transitions d) (states d)
              _ (initial_partitions (states d) (final_states d)) _ HP0)
    as (P & HP & (_ & _ & Hcov)); [lia|].
  rewrite HP. simpl.
  assert (Hstate : ∀ q, q < states d → ∃ i, state_mapping P !! q = Some i).
  { intros q Hq. apply state_mapping_total. rewrite Hcov.
    apply elem_of_union_l, elem_of_set_seq. lia. }
  destruct (for_each_total (remap_step (state_mapping P)) (transitions d) [])
    as [NT ->].
  { intros acc [[q c] q'] Hin. apply dict_get_elem in Hin; [|done].
    apply Hrange in Hin as [Hq Hq'].
    destruct (Hstate q Hq) as [i Hi], (Hstate q' Hq') as [j Hj].
    eexists. unfold remap_step, mapping_item. rewrite Hi. simpl.
    rewrite Hj. simpl. reflexivity. }
  simpl.
  destruct (for_each_total (remap_final_step (state_mapping P))
              (elements (final_states d)) ∅) as [NF ->].
  { intros acc f Hf%elem_of_elements.
    destruct (state_mapping_total P f) as [i Hi].
    { rewrite Hcov. by apply elem_of_union_r. }
    eexists. unfold remap_final_step, mapping_item. rewrite Hi. simpl.
    reflexivity. }
  simpl. destruct (Hstate _ Hinit) as [i Hi].
  unfold mapping_item. rewrite Hi. simpl. eauto.
Qed.

Lemma parse_regex_ready regex order parsed :
  parse_regex (init regex order) = Ok parsed →
  ∃ initial_state end_pos,
    get_firstpos (syntax_tree parsed) = Ok initial_state ∧
    find_end_pos (pos_to_symbol parsed) = Some end_pos.
Proof.
  intros H.
  apply parse_regex_inv in H
    as (postfix & root & built & tree & fp & Hpost & Hbuild & Htree & _ & ->).
  apply build_syntax_tree_inv in Hbuild.
  pose proof (build_loop_inv [] _ _ _ (build_inv_init regex order) Hbuild)
    as (Hobj & _ & Htable & _). simpl in Hobj, Htable.
  apply Forall_cons in Hobj as [Hroot _].
  apply calculate_tree_properties_leaves in Htree as [Hnone _].
  assert (∃ I, get_firstpos tree = Ok I) as [I HI].
  { destruct tree; [by destruct Hroot; apply Hnone|]. simpl. eauto. }
  exists I. cbn [syntax_tree pos_to_symbol with_tree].
  rewrite find_end_pos_head.
  assert (Hlen : length (marker_entries (pos_to_symbol built))
                 = length (hashes regex) + 1).
  { rewrite Htable, table_marker_entries, symbol_tokens_hashes.
    rewrite (infix_to_postfix_hashes _ _ Hpost).
    change (augmented_regex (init regex order))
      with ([c_lparen] ++ regex ++ [c_rparen; c_hash]).
    rewrite !hashes_app, !length_app. reflexivity. }
  destruct (marker_entries (pos_to_symbol built)) as [|[e c] ?];
    [simpl in Hlen; lia|].
  exists e. done.
Qed.

(** For every expression that [parse_regex] accepts, [process] returns
    once the fuel is large enough. *)
Lemma process_total regex order parsed :
  parse_regex (init regex order) = Ok parsed →
  ∃ fuel0, ∀ fuel, fuel0 ≤ fuel →
    ∃ final, process fuel (init regex order) = Ok final.
Proof.
  intros Hparse.
  destruct (parse_regex_ready _ _ _ Hparse) as (I & e & HI & He).
  destruct (construct_states_total parsed I e _ HI He (le_n _))
    as (st & popped & Hst & _ & _).
  set (d := Automaton (length (c_states st)) 0 (c_final st) (c_transitions st)).
  exists (2 ^ size (universe parsed I)
          `max` size (set_seq 0 (states d) ∪ final_states d : gset nat)).
  intros fuel Hfuel.
  assert (Hst' : construct_states fuel parsed = Ok st).
  { unfold construct_states in *. rewrite HI, He in *. simpl in *.
    eapply construct_loop_mono; [done|lia]. }
  destruct (minimize_total fuel (alphabet parsed) d) as [m Hm].
  { by eapply construct_states_wf. }
  { lia. }
  exists (with_minimized (with_dfa parsed d) m).
  unfold process, construct_dfa, minimize_dfa. rewrite Hparse. simpl.
  rewrite Hst'. simpl. fold d. by rewrite Hm.
Qed.

(** ** The theorems at concrete inputs *)

Lemma classic_process :
  process 4 (init (of_string "(a|b)*abb") (of_string "ab")) = Ok classic_final.
Proof. vm_compute. reflexivity. Qed.

Lemma classic_parse :
  parse_regex (init (of_string "(a|b)*abb") (of_string "ab")) = Ok classic_parsed.
Proof. vm_compute. reflexivity. Qed.

Lemma classic_construct : construct_dfa 4 classic_parsed = Ok classic_built.
Proof. vm_compute. reflexivity. Qed.

Lemma star_parse :
  parse_regex (init (of_string "(ab)*") (of_string "ab")) = Ok star_parsed.
Proof. vm_compute. reflexivity. Qed.

Lemma eps_process : process 4 (init [97%N; c_eps] [97%N; c_eps]) = Ok eps_final.
Proof. vm_compute. reflexivity. Qed.

Lemma classic_order :
  set_order (alphabet_chars (of_string "(a|b)*abb")) (of_string "ab").
Proof.
  change (alphabet_chars (of_string "(a|b)*abb"))
    with [97%N; 98%N; 97%N; 98%N; 98%N].
  change (of_string "ab") with [97%N; 98%N].
  split.
  - apply NoDup_cons. split; [|apply NoDup_singleton].
    by intros ?%list_elem_of_singleton.
  - intros c. rewrite !elem_of_cons. tauto.
Qed.

Lemma star_order : set_order (alphabet_chars (of_string "(ab)*")) (of_string "ab").
Proof.
  change (alphabet_chars (of_string "(ab)*")) with [97%N; 98%N].
  change (of_string "ab") with [97%N; 98%N].
  split; [|done].
  apply NoDup_cons. split; [|apply NoDup_singleton].
  by intros ?%list_elem_of_singleton.
Qed.

Lemma eps_order : set_order (alphabet_chars [97%N; c_eps]) [97%N; c_eps].
Proof.
  change (alphabet_chars [97%N; c_eps]) with [97%N; c_eps].
  split; [|done].
  apply NoDup_cons. split; [|apply NoDup_singleton].
  by intros ?%list_elem_of_singleton.
Qed.

Lemma minimization_preserves_language_witness :
  process 4 (init (of_string "(a|b)*abb") (of_string "ab")) = Ok classic_final ∧
  ∃ d m,
    dfa classic_final = Some d ∧ minimized_dfa classic_final = Some m ∧
    simulate_dfa classic_final (of_string "abb") false
      = Ok (simulate (alphabet classic_final) d (of_string "abb")) ∧
    simulate_dfa classic_final (of_string "abb") true
      = Ok (simulate (alphabet classic_final) m (of_string "abb")) ∧
    simulate (alphabet classic_final) d (of_string "abb")
      = simulate (alphabet classic_final) m (of_string "abb").
Proof.
  split; [exact classic_process|].
  exact (minimization_preserves_language _ _ 4 classic_final (of_string "abb")
           classic_process).
Defined.

Lemma star_tree :
  syntax_tree star_parsed =
    Obj c_dot
      (Obj c_star star_child PyNone (Some true) {[ Some 1 ]} {[ Some 2 ]} None)
      (leaf c_hash 3)
      (Some false) {[ Some 1; Some 3 ]} {[ Some 3 ]} None.
Proof. vm_compute. reflexivity. Qed.

Lemma star_subnode :
  Obj c_star star_child PyNone (Some true) {[ Some 1 ]} {[ Some 2 ]} None
  ∈ subnodes (syntax_tree star_parsed).
Proof.
  rewrite star_tree. cbn [subnodes].
  apply list_elem_of_further, list_elem_of_here.
Qed.

Lemma repetition_attributes_witness :
  set_order (alphabet_chars (of_string "(ab)*")) (of_string "ab") ∧
  parse_regex (init (of_string "(ab)*") (of_string "ab")) = Ok star_parsed ∧
  Obj c_star star_child PyNone (Some true) {[ Some 1 ]} {[ Some 2 ]} None
    ∈ subnodes (syntax_tree star_parsed) ∧
  c_star ∈ [c_star; c_plus; c_qmark] ∧
  get_firstpos star_child = Ok {[ Some 1 ]} ∧
  get_lastpos star_child = Ok {[ Some 2 ]} ∧
  (if decide (c_star = c_plus) then get_nullable star_child = Ok (Some true)
   else Some true = Some true).
Proof.
  split; [exact star_order|]. split; [exact star_parse|].
  split; [exact star_subnode|]. split; [apply list_elem_of_here|].
  exact (repetition_attributes _ _ _ star_order star_parse
           c_star star_child PyNone (Some true) {[ Some 1 ]} {[ Some 2 ]} None
           star_subnode (list_elem_of_here _ _)).
Defined.

Lemma classic_example_witness :
  set_order (alphabet_chars (of_string "(a|b)*abb")) (of_string "ab") ∧
  4 ≤ 4 ∧
  ∃ final m,
    process 4 (init (of_string "(a|b)*abb") (of_string "ab")) = Ok final ∧
    minimized_dfa final = Some m ∧
    states m = 4 ∧
    simulate_dfa final (of_string "abb") true = Ok true ∧
    simulate_dfa final (of_string "aabb") true = Ok true ∧
    simulate_dfa final (of_string "babb") true = Ok true ∧
    simulate_dfa final (of_string "ab") true = Ok false ∧
    simulate_dfa final (of_string "abbb") true = Ok false ∧
    simulate_dfa final (of_string "abba") true = Ok false.
Proof.
  split; [exact classic_order|]. split; [lia|].
  exact (classic_example (of_string "ab") 4 classic_order (le_n 4)).
Defined.













Lemma position_assignment_witness :
  process 4 (init (of_string "(a|b)*abb") (of_string "ab")) = Ok classic_final ∧
  ∃ postfix root built,
    infix_to_postfix
      (augmented_regex (init (of_string "(a|b)*abb") (of_string "ab")))
      = Ok postfix ∧
    build_syntax_tree (init (of_string "(a|b)*abb") (of_string "ab")) postfix
      = Ok (root, built) ∧
    (leaves root).*1 = symbol_tokens postfix ∧
    (filter real (leaves root)).*2
      = Some <$> seq 1 (length (filter real (leaves root))) ∧
    (∀ d p, (d, p) ∈ leaves root → d = c_eps → p = None) ∧
    pos_to_symbol built
      = zip (seq 1 (length (filter real (leaves root))))
            (filter real (leaves root)).*1 ∧
    next_pos built = 1 + length (filter real (leaves root)) ∧
    leaves (syntax_tree classic_final) = leaves root ∧
    pos_to_symbol classic_final = pos_to_symbol built.
Proof.
  split; [exact classic_process|].
  exact (position_assignment _ _ 4 classic_final classic_process).
Defined.

Lemma simulate_dfa_fallback_witness :
  parse_regex (init (of_string "(a|b)*abb") (of_string "ab")) = Ok classic_parsed ∧
  construct_dfa 4 classic_parsed = Ok classic_built ∧
  ∃ d, dfa classic_built = Some d ∧ minimized_dfa classic_built = None ∧
       simulate_dfa classic_built (of_string "abb") true
         = Ok (simulate (alphabet classic_built) d (of_string "abb")) ∧
       simulate_dfa classic_built (of_string "abb") true
         = simulate_dfa classic_built (of_string "abb") false.
Proof.
  split; [exact classic_parse|]. split; [exact classic_construct|].
  exact (proj1 (simulate_dfa_fallback _ _ 4 classic_parsed classic_built
                  (of_string "abb") classic_parse classic_construct)).
Defined.

Lemma no_epsilon_moves_witness :
  set_order (alphabet_chars [97%N; c_eps]) [97%N; c_eps] ∧
  process 4 (init [97%N; c_eps] [97%N; c_eps]) = Ok eps_final ∧
  in_str c_eps (alphabet eps_final) = true ∧
  simulate_dfa eps_final [97%N; c_eps] true = Ok false ∧
  simulate_dfa eps_final [97%N] true = Ok true.
Proof.
  split; [exact eps_order|]. split; [exact eps_process|].
  destruct (no_epsilon_moves _ _ 4 eps_final eps_order eps_process)
    as (_ & _ & Hal & Hrej).
  split; [apply Hal, list_elem_of_further, list_elem_of_here|].
  split; [apply Hrej, list_elem_of_further, list_elem_of_here|].
  vm_compute. reflexivity.
Defined.

Lemma one_a_path : path [97%N; 98%N] one_a (initial one_a) [97%N] 1.
Proof.
  eapply path_cons; [apply list_elem_of_here|reflexivity|apply path_nil].
Qed.

Lemma simulate_accepts_witness :
  path [97%N; 98%N] one_a (initial one_a) [97%N] 1 ∧
  dict_get (transitions one_a) (1, 98%N) = None ∧
  simulate [97%N; 98%N] one_a [97%N; 98%N] = false ∧
  simulate [97%N; 98%N] one_a [97%N] = bool_decide (1 ∈ final_states one_a).
Proof.
  split; [exact one_a_path|]. split; [reflexivity|]. split.
  - exact (proj1 (simulate_accepts [97%N; 98%N] one_a [97%N; 98%N])
             [97%N] 98%N [] 1 eq_refl one_a_path (or_intror eq_refl)).
  - exact (proj1 (proj2 (simulate_accepts [97%N; 98%N] one_a [97%N]))
             1 one_a_path).
Defined.

Lemma infix_to_postfix_nonempty regex :
  regex ≠ [] →
  infix_to_postfix regex
  = Ok ((foldl shunt_step ([], []) (insert_concat regex)).1 ++
        (foldl shunt_step ([], []) (insert_concat regex)).2).
Proof.
  intros Hne. unfold infix_to_postfix.
  rewrite explicit_concat_nonempty by done. simpl.
  by destruct (foldl shunt_step ([], []) (insert_concat regex)).
Qed.

(** X1: [infix_to_postfix] raises [IndexError] on the empty string, from
    [regex[-1]], and returns on every other string, whatever its
    parentheses and operators. *)
Theorem infix_to_postfix_outcome (regex : list N) :
  (regex = [] ∧ infix_to_postfix regex = Raise IndexError) ∨
  (regex ≠ [] ∧ ∃ postfix, infix_to_postfix regex = Ok postfix).
Proof.
  destruct regex as [|c regex]; [by left|]. right. split; [done|].
  eexists. by apply infix_to_postfix_nonempty.
Qed.

(** ** The shunting-yard loop only moves characters *)

Lemma pop_to_paren_spec output stack output' stack' :
  pop_to_paren output stack = (output', stack') →
  ∃ popped, output' = output ++ popped ∧ stack = popped ++ stack' ∧
            (c_lparen ∉ popped) ∧
            (stack' = [] ∨ ∃ rest, stack' = c_lparen :: rest).
Proof.
  revert output. induction stack as [|top rest IH]; intros output; simpl.
  - intros [= <- <-]. exists []. rewrite app_nil_r.
    split_and!; [done..|apply not_elem_of_nil|by left].
  - destruct (decide (top = c_lparen)) as [->|Hne].
    + intros [= <- <-]. exists []. rewrite app_nil_r.
      split_and!; [done..|apply not_elem_of_nil|right; eauto].
    + intros H. destruct (IH _ H) as (popped & -> & -> & Hp & Hs).
      exists (top :: popped). rewrite <- app_assoc.
      split_and!; [done..| |done]. by apply not_elem_of_cons.
Qed.

Lemma pop_higher_spec c output stack output' stack' :
  pop_higher c output stack = (output', stack') →
  ∃ popped, output' = output ++ popped ∧ stack = popped ++ stack' ∧
            c_lparen ∉ popped.
Proof.
  revert output. induction stack as [|top rest IH]; intros output; simpl.
  - intros [= <- <-]. exists []. rewrite app_nil_r.
    split_and!; [done..|apply not_elem_of_nil].
  - destruct (decide (top = c_lparen)) as [->|Hne].
    { intros [= <- <-]. exists []. rewrite app_nil_r.
      split_and!; [done..|apply not_elem_of_nil]. }
    destruct (decide (precedence c ≤ precedence top)).
    + intros H. destruct (IH _ H) as (popped & -> & -> & Hp).
      exists (top :: popped). rewrite <- app_assoc.
      split_and!; [done..|]. by apply not_elem_of_cons.
    + intros [= <- <-]. exists []. rewrite app_nil_r.
      split_and!; [done..|apply not_elem_of_nil].
Qed.

(** The four cases of one step of the loop: an operand goes to the output;
    ['('] goes on the stack; [')'] moves the operators above the nearest
    ['('] to the output and drops that ['('], if there is one; an operator
    moves some operators to the output and goes on the stack. *)
Lemma shunt_step_spec output stack c output' stack' :
  shunt_step (output, stack) c = (output', stack') →
  (operand c ∧ output' = output ++ [c] ∧ stack' = stack) ∨
  (c = c_lparen ∧ output' = output ∧ stack' = c :: stack) ∨
  (c = c_rparen ∧ ∃ popped,
     output' = output ++ popped ∧ (c_lparen ∉ popped) ∧
     (stack = popped ++ c_lparen :: stack' ∨
      (stack = popped ∧ stack' = []))) ∨
  (¬ operand c ∧ not_paren c ∧ ∃ popped rest,
     output' = output ++ popped ∧ stack = popped ++ rest ∧
     (c_lparen ∉ popped) ∧ stack' = c :: rest).
Proof.
  unfold shunt_step, operand.
  change (of_string "()|*+?" ++ [c_dot])
    with [c_lparen; c_rparen; c_bar; c_star; c_plus; c_qmark; c_dot].
  destruct (in_str c _) eqn:Hc; simpl.
  2:{ apply in_str_false in Hc. intros [= <- <-]. by left. }
  apply in_str_true in Hc. intros Heq. right.
  destruct (decide (c = c_lparen)) as [Hl|Hl].
  { subst c. injection Heq as <- <-. by left. }
  right. destruct (decide (c = c_rparen)) as [Hr|Hr].
  { subst c. left. split; [done|].
    destruct (pop_to_paren output stack) as [o s] eqn:Hp.
    apply pop_to_paren_spec in Hp as (popped & -> & -> & Hpop & Hs).
    exists popped.
    destruct Hs as [->|[rest ->]].
    - injection Heq as <- <-. split; [done|]. split; [done|]. right.
      by rewrite app_nil_r.
    - rewrite decide_True in Heq by done. injection Heq as <- <-. auto. }
  right. split; [tauto|]. split; [done|].
  destruct (pop_higher c output stack) as [o s] eqn:Hp.
  apply pop_higher_spec in Hp as (popped & -> & -> & Hpop).
  injection Heq as <- <-. by exists popped, s.
Qed.

Lemma operand_not_paren c : operand c → not_paren c.
Proof. unfold operand, not_paren. rewrite !not_elem_of_cons. tauto. Qed.

Lemma filter_operand_stack (P : N → Prop) `{∀ c, Decision (P c)} l :
  Forall (λ c, ¬ P c) l → filter P l = [].
Proof.
  induction 1 as [|c l Hc Hl IH]; [done|]. by rewrite filter_cons_False.
Qed.

(** For a property [P] of operands only, the occurrences with [P] reach the
    output in the order of the input. *)
Lemma shunt_loop_filter (P : N → Prop) `{∀ c, Decision (P c)}
    regex output stack output' stack' :
  (∀ c, P c → operand c) →
  foldl shunt_step (output, stack) regex = (output', stack') →
  Forall (λ c, ¬ P c) stack →
  filter P output' = filter P (output ++ regex) ∧ Forall (λ c, ¬ P c) stack'.
Proof.
  intros HP. revert output stack.
  induction regex as [|c regex IH]; intros output stack.
  { simpl. intros [= <- <-]. by rewrite app_nil_r. }
  cbn [foldl]. destruct (shunt_step (output, stack) c) as [o s] eqn:Hs.
  intros Hrun Hst.
  assert (Hstep : filter P o = filter P (output ++ [c]) ∧ Forall (λ c, ¬ P c) s).
  { apply shunt_step_spec in Hs
      as [(Hc & -> & ->)|[(-> & -> & ->)|[(-> & popped & -> & _ & Hs)
         |(Hc & Hnp & popped & rest & -> & -> & _ & ->)]]].
    - done.
    - rewrite filter_app.
      assert (Hl : ¬ P c_lparen).
      { intros Hl%HP. apply Hl. apply list_elem_of_here. }
      rewrite (filter_cons_False _ _ _ Hl). rewrite app_nil_r.
      split; [done|]. by constructor.
    - assert (Hr : ¬ P c_rparen).
      { intros Hl%HP. apply Hl. apply list_elem_of_further, list_elem_of_here. }
      rewrite !filter_app, (filter_cons_False _ _ _ Hr). simpl.
      rewrite app_nil_r.
      destruct Hs as [->|[-> ->]].
      + apply Forall_app in Hst as [Hpop Hst].
        apply Forall_cons in Hst as [_ Hst].
        by rewrite (filter_operand_stack P popped), app_nil_r.
      + by rewrite (filter_operand_stack P popped), app_nil_r.
    - apply Forall_app in Hst as [Hpop Hst].
      rewrite !filter_app, (filter_operand_stack P popped) by done.
      assert (Hc' : ¬ P c) by (intros ?%HP; done).
      rewrite (filter_cons_False _ _ _ Hc'). simpl. rewrite !app_nil_r.
      split; [done|]. by constructor. }
  destruct Hstep as [Ho Hs'].
  destruct (IH _ _ Hrun Hs') as [-> ?]. split; [|done].
  rewrite filter_app, Ho, <- filter_app, <- app_assoc. done.
Qed.

Lemma insert_concat_filter (P : N → Prop) `{∀ c, Decision (P c)} regex :
  ¬ P c_dot → filter P (insert_concat regex) = filter P regex.
Proof.
  intros Hdot. induction regex as [|c1 [|c2 rest] IH]; [done..|].
  change (insert_concat (c1 :: c2 :: rest)) with
    (if concat_between c1 c2 then c1 :: c_dot :: insert_concat (c2 :: rest)
     else c1 :: insert_concat (c2 :: rest)).
  destruct (concat_between c1 c2).
  - rewrite (filter_cons P c1 (c_dot :: _)), (filter_cons P c1 (c2 :: _)).
    rewrite (filter_cons_False P c_dot) by done. by rewrite IH.
  - rewrite (filter_cons P c1 (insert_concat _)), (filter_cons P c1 (c2 :: _)).
    by rewrite IH.
Qed.

Lemma operand_dot : ¬ operand c_dot.
Proof. unfold operand. rewrite !not_elem_of_cons. tauto. Qed.

(** X2: the operands of the input -- every character other than the
    parentheses and the operators -- come out in the postfix string in
    the order they had in the input. *)
Theorem infix_to_postfix_operands (regex postfix : list N) :
  infix_to_postfix regex = Ok postfix →
  filter operand postfix = filter operand regex.
Proof.
  intros H. assert (Hne : regex ≠ []) by (intros ->; discriminate H).
  rewrite infix_to_postfix_nonempty in H by done. injection H as <-.
  destruct (foldl shunt_step ([], []) (insert_concat regex))
    as [output stack] eqn:Hf. cbn [fst snd].
  destruct (shunt_loop_filter operand _ _ _ _ _ (λ _ H, H) Hf) as [Ho Hs];
    [by constructor|].
  rewrite filter_app, Ho, (filter_operand_stack operand stack Hs), app_nil_r.
  cbn [app]. apply (insert_concat_filter operand), operand_dot.
Qed.

Lemma not_paren_lparen : ¬ not_paren c_lparen.
Proof. unfold not_paren. tauto. Qed.

Lemma not_paren_rparen : ¬ not_paren c_rparen.
Proof. unfold not_paren. tauto. Qed.

Lemma shunt_loop_perm regex output stack output' stack' :
  foldl shunt_step (output, stack) regex = (output', stack') →
  c_rparen ∉ output ++ stack →
  (c_rparen ∉ output' ++ stack') ∧
  filter not_paren (output' ++ stack')
    ≡ₚ filter not_paren (output ++ stack) ++ filter not_paren regex.
Proof.
  revert output stack. induction regex as [|c regex IH]; intros output stack.
  { simpl. intros [= <- <-] ?. by rewrite app_nil_r. }
  cbn [foldl]. destruct (shunt_step (output, stack) c) as [o s] eqn:Hs.
  intros Hrun Hst.
  assert (Hstep : (c_rparen ∉ o ++ s) ∧
            filter not_paren (o ++ s)
              ≡ₚ filter not_paren (output ++ stack) ++ filter not_paren [c]).
  { apply shunt_step_spec in Hs
      as [(Hc & -> & ->)|[(-> & -> & ->)|[(-> & popped & -> & _ & Hs)
         |(Hc & Hnp & popped & rest & -> & -> & _ & ->)]]].
    - split.
      + rewrite <- app_assoc. rewrite !not_elem_of_app in *.
        rewrite not_elem_of_cons. destruct Hst as [? ?].
        split_and!; [done| |apply not_elem_of_nil|done].
        apply operand_not_paren in Hc as [_ ?]. congruence.
      + rewrite !filter_app. rewrite <- !app_assoc.
        apply Permutation_app_head, Permutation_app_comm.
    - split.
      + rewrite !not_elem_of_app in *. rewrite not_elem_of_cons.
        destruct Hst. split_and!; done.
      + rewrite !filter_app, !(filter_cons_False _ _ _ not_paren_lparen).
        simpl. by rewrite app_nil_r.
    - rewrite (filter_cons_False _ _ _ not_paren_rparen). simpl.
      rewrite app_nil_r. destruct Hs as [->|[-> ->]].
      + split.
        * rewrite !not_elem_of_app in *. rewrite !not_elem_of_cons in Hst. tauto.
        * rewrite !filter_app, !(filter_cons_False _ _ _ not_paren_lparen).
          by rewrite <- app_assoc.
      + by rewrite !app_nil_r.
    - split.
      + rewrite !not_elem_of_app in *. rewrite not_elem_of_cons.
        destruct Hnp, Hst as (? & ? & ?). split_and!; [done..|congruence|done].
      + rewrite !filter_app, (filter_cons_True _ c rest Hnp).
        rewrite (filter_cons_True _ c [] Hnp). simpl.
        rewrite <- !app_assoc. apply Permutation_app_head, Permutation_app_head.
        rewrite filter_nil. apply Permutation_cons_append. }
  destruct Hstep as [Hr Hperm].
  destruct (IH _ _ Hrun Hr) as [? Hp]. split; [done|].
  rewrite Hp, Hperm, (filter_cons not_paren c regex).
  rewrite <- app_assoc. apply Permutation_app_head.
  destruct (decide (not_paren c)).
  - by rewrite filter_cons_True.
  - by rewrite filter_cons_False.
Qed.

(** X3: [infix_to_postfix] only rearranges: the postfix string holds
    no [')'], and apart from the parentheses it holds the characters of
    the string with explicit concatenation, each as many times. *)
Theorem infix_to_postfix_rearranges (regex postfix : list N) :
  infix_to_postfix regex = Ok postfix →
  (c_rparen ∉ postfix) ∧
  filter not_paren postfix ≡ₚ filter not_paren (insert_concat regex).
Proof.
  intros H. assert (Hne : regex ≠ []) by (intros ->; discriminate H).
  rewrite infix_to_postfix_nonempty in H by done. injection H as <-.
  destruct (foldl shunt_step ([], []) (insert_concat regex))
    as [output stack] eqn:Hf. cbn [fst snd].
  apply shunt_loop_perm in Hf; [|apply not_elem_of_nil]. done.
Qed.

(** The number of ['('] in a stack. *)
Lemma balanced_insert_concat n regex :
  balanced n (insert_concat regex) = balanced n regex.
Proof.
  revert n. induction regex as [|c1 [|c2 rest] IH]; intros n; [done..|].
  change (insert_concat (c1 :: c2 :: rest)) with
    (if concat_between c1 c2 then c1 :: c_dot :: insert_concat (c2 :: rest)
     else c1 :: insert_concat (c2 :: rest)).
  destruct (concat_between c1 c2).
  - cbn [balanced]. rewrite (decide_False (P := c_dot = c_lparen)) by done.
    rewrite (decide_False (P := c_dot = c_rparen)) by done.
    destruct (decide (c1 = c_lparen)); [apply IH|].
    destruct (decide (c1 = c_rparen)); [destruct n; [done|apply IH]|apply IH].
  - cbn [balanced].
    destruct (decide (c1 = c_lparen)); [apply IH|].
    destruct (decide (c1 = c_rparen)); [destruct n; [done|apply IH]|apply IH].
Qed.

Lemma filter_lparen_none (l : list N) :
  c_lparen ∉ l → filter (λ c, c = c_lparen) l = [].
Proof.
  induction l as [|c l IH]; [done|]. intros [? ?]%not_elem_of_cons.
  rewrite filter_cons_False by done. auto.
Qed.

Lemma shunt_loop_balanced regex n output stack output' stack' :
  foldl shunt_step (output, stack) regex = (output', stack') →
  balanced n regex = true →
  length (filter (λ c, c = c_lparen) stack) = n →
  c_lparen ∉ output →
  c_lparen ∉ output' ++ stack'.
Proof.
  revert n output stack. induction regex as [|c regex IH]; intros n output stack.
  { simpl. intros [= <- <-] Hn%bool_decide_eq_true Hst Ho. subst n.
    apply not_elem_of_app. split; [done|]. intros Hin.
    assert (Hf : c_lparen ∈ filter (λ c, c = c_lparen) stack)
      by (by apply list_elem_of_filter).
    destruct (filter (λ c, c = c_lparen) stack); [|done].
    by apply elem_of_nil in Hf. }
  cbn [foldl balanced]. destruct (shunt_step (output, stack) c) as [o s] eqn:Hs.
  intros Hrun Hbal Hst Ho.
  apply shunt_step_spec in Hs
    as [(Hc & -> & ->)|[(-> & -> & ->)|[(-> & popped & -> & Hpop & Hs)
       |(Hc & [Hl Hr] & popped & rest & -> & -> & Hpop & ->)]]].
  - apply operand_not_paren in Hc as [Hl Hr].
    rewrite decide_False in Hbal by done. rewrite decide_False in Hbal by done.
    eapply IH; [done..|]. rewrite not_elem_of_app, list_elem_of_singleton.
    split; [done|congruence].
  - rewrite decide_True in Hbal by done.
    eapply IH; [done|done| |done].
    rewrite filter_cons_True by done. simpl. by rewrite Hst.
  - rewrite decide_False in Hbal by done. rewrite decide_True in Hbal by done.
    destruct n as [|n]; [done|].
    destruct Hs as [->|[-> ->]].
    + eapply IH; [done|done| |by apply not_elem_of_app].
      rewrite filter_app, (filter_lparen_none popped) in Hst by done.
      rewrite filter_cons_True in Hst by done. simpl in Hst. lia.
    + by rewrite (filter_lparen_none popped) in Hst.
  - rewrite decide_False in Hbal by done. rewrite decide_False in Hbal by done.
    eapply IH; [done|done| |by apply not_elem_of_app].
    rewrite filter_app, (filter_lparen_none popped) in Hst by done.
    by rewrite filter_cons_False.
Qed.

Lemma filter_not_paren_id (l : list N) :
  c_lparen ∉ l → c_rparen ∉ l → filter not_paren l = l.
Proof.
  induction l as [|c l IH]; [done|].
  intros [? ?]%not_elem_of_cons [? ?]%not_elem_of_cons.
  rewrite filter_cons_True by (split; congruence). f_equal. auto.
Qed.

(** X4: when the parentheses of the input match, the postfix string has no
    parenthesis left and is a rearrangement of the other characters of
    the string with explicit concatenation. *)
Theorem infix_to_postfix_balanced (regex postfix : list N) :
  infix_to_postfix regex = Ok postfix →
  balanced 0 regex = true →
  (c_lparen ∉ postfix) ∧ (c_rparen ∉ postfix) ∧
  postfix ≡ₚ filter not_paren (insert_concat regex).
Proof.
  intros H Hbal. assert (Hne : regex ≠ []) by (intros ->; discriminate H).
  rewrite infix_to_postfix_nonempty in H by done. injection H as <-.
  destruct (foldl shunt_step ([], []) (insert_concat regex))
    as [output stack] eqn:Hf. cbn [fst snd].
  pose proof Hf as Hf'.
  apply shunt_loop_perm in Hf as [Hr Hp]; [|apply not_elem_of_nil].
  apply (shunt_loop_balanced _ 0) in Hf';
    [|by rewrite balanced_insert_concat|done|apply not_elem_of_nil].
  split; [done|]. split; [done|].
  by rewrite filter_not_paren_id in Hp.
Qed.

(** ** The builder inverts the postorder traversal *)

Lemma build_step_postorder stack self c stack' self' :
  build_step (stack, self) c = Ok (stack', self') →
  Forall shaped stack →
  Forall shaped stack' ∧
  concat (postorder <$> reverse stack')
    = concat (postorder <$> reverse stack) ++ [c].
Proof.
  unfold build_step.
  change (of_string "*+?") with [c_star; c_plus; c_qmark].
  intros H Hsh.
  destruct (in_str c [c_star; c_plus; c_qmark]) eqn:Hu.
  { destruct stack as [|child stack]; [done|]. injection H as <- <-.
    apply Forall_cons in Hsh as [Hc Hsh]. split.
    - constructor; [|done]. simpl. by rewrite Hu.
    - rewrite !reverse_cons, !fmap_app, !concat_app. simpl.
      by rewrite !app_nil_r, <- app_assoc. }
  destruct (in_str c [c_bar; c_dot]) eqn:Hb.
  { destruct stack as [|r [|l stack]]; [done..|]. injection H as <- <-.
    apply Forall_cons in Hsh as [Hr Hsh]. apply Forall_cons in Hsh as [Hl Hsh].
    split.
    - constructor; [|done]. simpl. by rewrite Hu, Hb.
    - rewrite !reverse_cons, !fmap_app, !concat_app. simpl.
      by rewrite !app_nil_r, <- !app_assoc. }
  destruct (decide (c ≠ c_eps)); injection H as <- <-.
  - split.
    + constructor; [|done]. simpl. by rewrite Hu, Hb.
    + rewrite !reverse_cons, !fmap_app, !concat_app. simpl. done.
  - split.
    + constructor; [|done]. simpl. by rewrite Hu, Hb.
    + rewrite !reverse_cons, !fmap_app, !concat_app. simpl. done.
Qed.

Lemma build_loop_postorder postfix stack self stack' self' :
  for_each build_step (stack, self) postfix = Ok (stack', self') →
  Forall shaped stack →
  Forall shaped stack' ∧
  concat (postorder <$> reverse stack')
    = concat (postorder <$> reverse stack) ++ postfix.
Proof.
  revert stack self. induction postfix as [|c l IH]; intros stack self H Hsh.
  - simpl in H. simplify_eq. by rewrite app_nil_r.
  - rewrite for_each_cons in H. inv_bind H. destruct x as [stack1 self1].
    destruct (build_step_postorder _ _ _ _ _ H0 Hsh) as [Hsh1 Hpost1].
    destruct (IH _ _ H Hsh1) as [Hsh' Hpost']. split; [done|].
    rewrite Hpost', Hpost1, <- app_assoc. done.
Qed.

(** X5: the tree that [build_syntax_tree] returns has the postfix string
    as its postorder traversal: every token is a node, an operator token
    over the trees of its operands. *)
Theorem build_syntax_tree_postorder (self self' : RegexToDFA) (postfix : list N)
    (root : Node) :
  build_syntax_tree self postfix = Ok (root, self') →
  shaped root ∧ postorder root = postfix.
Proof.
  intros H%build_syntax_tree_inv.
  apply build_loop_postorder in H as [Hsh Hpost]; [|by constructor].
  apply Forall_cons in Hsh as [Hroot _]. split; [done|].
  simpl in Hpost. by rewrite app_nil_r in Hpost.
Qed.

(** ** The outcome of the builder, read off the tokens *)

Lemma nodes_after_app n pre suf :
  nodes_after n (pre ++ suf) = nodes_after n pre ≫= λ m, nodes_after m suf.
Proof.
  revert n. induction pre as [|c pre IH]; intros n; [done|]. simpl.
  repeat case_decide; try done; apply IH.
Qed.

Lemma nodes_after_None n tokens :
  nodes_after n tokens = None →
  ∃ pre c suf m,
    tokens = pre ++ c :: suf ∧ nodes_after n pre = Some m ∧
    ((c ∈ [c_star; c_plus; c_qmark] ∧ m = 0) ∨ (c ∈ [c_bar; c_dot] ∧ m < 2)).
Proof.
  revert n. induction tokens as [|c tokens IH]; intros n; [done|]. simpl.
  assert (Hrec : ∀ n', nodes_after n' tokens = None →
            (if decide (c ∈ [c_star; c_plus; c_qmark]) then
               if decide (n = 0) then None else Some n
             else if decide (c ∈ [c_bar; c_dot]) then
               if decide (n < 2) then None else Some (n - 1)
             else Some (S n)) = Some n' →
            ∃ pre c' suf m,
              c :: tokens = pre ++ c' :: suf ∧
              nodes_after n pre = Some m ∧
              ((c' ∈ [c_star; c_plus; c_qmark] ∧ m = 0) ∨
               (c' ∈ [c_bar; c_dot] ∧ m < 2))).
  { intros n' (pre & c' & suf & m & -> & Hpre & Hc)%IH Hstep.
    exists (c :: pre), c', suf, m. split; [done|]. split; [|done].
    simpl. repeat case_decide; simplify_eq; done. }
  destruct (decide (c ∈ [c_star; c_plus; c_qmark])) as [Hu|Hu].
  { destruct (decide (n = 0)) as [->|Hn].
    - intros _. exists [], c, tokens, 0. auto.
    - intros H. by apply (Hrec n). }
  destruct (decide (c ∈ [c_bar; c_dot])) as [Hb|Hb].
  { destruct (decide (n < 2)) as [Hn|Hn].
    - intros _. exists [], c, tokens, n. auto.
    - intros H. by apply (Hrec (n - 1)). }
  intros H. by apply (Hrec (S n)).
Qed.

Lemma lacks_operand_None postfix :
  lacks_operand postfix ↔ nodes_after 0 postfix = None.
Proof.
  split; [|apply nodes_after_None].
  intros (pre & c & suf & n & -> & Hpre & Hc).
  rewrite nodes_after_app, Hpre. simpl.
  destruct Hc as [[Hc ->]|[Hc Hn]].
  - by rewrite decide_True.
  - destruct (decide (c ∈ [c_star; c_plus; c_qmark])) as [Hu|_].
    + exfalso. revert Hu Hc. rewrite !elem_of_cons, !elem_of_nil.
      unfold c_star, c_plus, c_qmark, c_bar, c_dot.
      intros [->|[->|[->|[]]]] [?|[?|[]]]; done.
    + by rewrite !decide_True.
Qed.

Lemma build_loop_nodes tokens stack self :
  match nodes_after (length stack) tokens with
  | Some n => ∃ stack' self',
      for_each build_step (stack, self) tokens = Ok (stack', self') ∧
      length stack' = n
  | None => for_each build_step (stack, self) tokens = Raise ValueError
  end.
Proof.
  revert stack self. induction tokens as [|c tokens IH]; intros stack self.
  { simpl. eauto. }
  rewrite for_each_cons. cbn [nodes_after]. unfold build_step.
  change (of_string "*+?") with [c_star; c_plus; c_qmark].
  destruct (decide (c ∈ [c_star; c_plus; c_qmark])) as [Hu|Hu].
  { apply in_str_true in Hu. rewrite Hu.
    destruct stack as [|child stack]; [done|].
    rewrite decide_False by done. simpl.
    apply (IH (Obj c child PyNone None ∅ ∅ None :: stack) self). }
  destruct (in_str c [c_star; c_plus; c_qmark]) eqn:Hu';
    [by apply in_str_true in Hu'|].
  destruct (decide (c ∈ [c_bar; c_dot])) as [Hb|Hb].
  { destruct (in_str c [c_bar; c_dot]) eqn:Hb';
      [|by apply in_str_false in Hb'].
    destruct stack as [|r [|l stack]].
    - by rewrite decide_True by (simpl; lia).
    - by rewrite decide_True by (simpl; lia).
    - rewrite decide_False by (simpl; lia). simpl.
      replace (length stack - 0) with (length stack) by lia.
      apply (IH (Obj c l r None ∅ ∅ None :: stack) self). }
  destruct (in_str c [c_bar; c_dot]) eqn:Hb';
    [by apply in_str_true in Hb'|].
  destruct (decide (c ≠ c_eps)); simpl.
  - apply (IH (Obj c PyNone PyNone None ∅ ∅ (Some (next_pos self)) :: stack)).
  - apply (IH (new_node c :: stack) self).
Qed.

(** C7: the builder raises the malformed-expression error exactly when, on
    the tokens of the postfix string, a unary operator comes with no node
    on the stack, a binary operator with fewer than two, or the tokens
    leave other than exactly one node; otherwise it returns the single node
    left on the stack, which is the tree of the whole postfix string.  It
    has no other outcome. *)
Theorem build_syntax_tree_outcome (self : RegexToDFA) (postfix : str) :
  (build_syntax_tree self postfix = Raise ValueError ∧ malformed postfix) ∨
  (¬ malformed postfix ∧
   ∃ root self',
     for_each build_step ([], self) postfix = Ok ([root], self') ∧
     build_syntax_tree self postfix = Ok (root, self') ∧
     postorder root = postfix).
Proof.
  unfold build_syntax_tree, malformed.
  pose proof (build_loop_nodes postfix [] self) as Hloop.
  pose proof (lacks_operand_None postfix) as Hlack.
  change (length (@nil Node)) with 0 in Hloop.
  destruct (nodes_after 0 postfix) as [n|].
  - destruct Hloop as (stack & self' & Hloop & Hlen). rewrite Hloop. simpl.
    destruct stack as [|root [|node stack]]; simpl in Hlen.
    + left. split; [done|]. right. exists n. split; [done|lia].
    + right. split.
      * intros [Hl|(n' & ? & ?)]; [by apply Hlack in Hl|]. by simplify_eq.
      * exists root, self'. split_and!; [done..|].
        apply build_loop_postorder in Hloop as [_ Hpost]; [|by constructor].
        simpl in Hpost. by rewrite app_nil_r in Hpost.
    + left. split; [done|]. right. exists n. split; [done|lia].
  - rewrite Hloop. left. split; [done|]. left. by apply Hlack.
Qed.

(** ** After parsing, the pipeline returns *)

Lemma bind_Ok_l {A B} (a : A) (f : A → res B) : Ok a ≫= f = f a.
Proof. reflexivity. Qed.

(** X6: once [parse_regex] has returned, the rest of [process] returns:
    [construct_dfa] finds the end marker and every state it looks up,
    [minimize_dfa] finds the automaton and every block it looks up, and
    their loops end.  Neither raises on the object that the parser
    leaves, whatever the expression. *)
Theorem process_after_parse (regex : list N) (order : list N)
    (parsed : RegexToDFA) :
  parse_regex (init regex order) = Ok parsed →
  ∃ fuel0, ∀ fuel, fuel0 ≤ fuel →
    ∃ built final,
      construct_dfa fuel parsed = Ok built ∧
      minimize_dfa fuel built = Ok final ∧
      process fuel (init regex order) = Ok final.
Proof.
  intros Hparse. destruct (process_total _ _ _ Hparse) as [fuel0 Hfuel].
  exists fuel0. intros fuel Hle. destruct (Hfuel fuel Hle) as [final Hrun].
  destruct (process_inv _ _ _ Hrun) as (parsed' & built & Hp & Hc & Hm).
  assert (parsed' = parsed) as -> by congruence.
  by exists built, final.
Qed.

(** ** Every state of the constructed automaton is reachable *)

Lemma path_snoc sigma d q w q' c q'' :
  path sigma d q w q' → c ∈ sigma →
  dict_get (transitions d) (q', c) = Some q'' →
  path sigma d q (w ++ [c]) q''.
Proof.
  induction 1 as [|q c0 q1 w q2 Hc Ht Hp IH]; intros Hc' Ht'; simpl.
  - eapply path_cons; [done..|apply path_nil].
  - eapply path_cons; [done..|]. by apply IH.
Qed.

Section reachable.
Context (self : RegexToDFA) (end_pos : nat) (initial_state : gset (option nat)).

Lemma symbol_step_rinv cur done popped st s st' :
  cinv self end_pos initial_state cur done popped st →
  s ∈ alphabet self →
  cur ∈ (c_states st).*1 →
  rinv self st →
  symbol_step self cur st s = Ok st' →
  rinv self st'.
Proof.
  intros Hinv Hs Hcur Hr. unfold symbol_step.
  destruct (decide (move self cur s = ∅)) as [Hm|Hm]; [by intros [= <-]|].
  destruct (dict_get_is_Some _ _ Hcur) as [qc Hqc].
  destruct (dict_get (c_states st) (move self cur s)) as [qn|] eqn:Hn.
  - unfold dict_item. rewrite Hqc, Hn. simpl. intros [= <-].
    intros S q HS Hq. simpl in *.
    destruct (Hr S q HS Hq) as (q0 & s0 & Hlt & Hs0 & Ht).
    exists q0, s0. split; [done|]. split; [done|].
    rewrite dict_get_set.
    destruct (decide ((qc, s) = (q0, s0))) as [[= <- <-]|]; [|done].
    destruct (ci_trans _ _ _ _ _ _ _ Hinv _ _ _ Ht) as (S' & HS' & _ & _ & Hq').
    assert (S' = cur) as -> by (by eapply cinv_id_inj). congruence.
  - assert (Hfresh : move self cur s ∉ (c_states st).*1)
      by by apply dict_get_None.
    unfold dict_item. rewrite !dict_get_set.
    destruct (decide (move self cur s = cur)) as [Heq|Hne];
      [by rewrite Heq in Hfresh|].
    rewrite Hqc. simpl. rewrite decide_True by done. simpl. intros [= <-].
    intros S q HS Hq. simpl in *. rewrite dict_get_set in HS.
    destruct (decide (move self cur s = S)) as [<-|HneS].
    + injection HS as <-. exists qc, s.
      split; [by eapply cinv_id_lt|]. split; [done|].
      by rewrite dict_get_set, decide_True.
    + destruct (Hr S q HS Hq) as (q0 & s0 & Hlt & Hs0 & Ht).
      exists q0, s0. split; [done|]. split; [done|].
      rewrite dict_get_set.
      destruct (decide ((qc, s) = (q0, s0))) as [[= <- <-]|]; [|done].
      destruct (ci_trans _ _ _ _ _ _ _ Hinv _ _ _ Ht)
        as (S' & HS' & _ & _ & Hq').
      assert (S' = cur) as -> by (by eapply cinv_id_inj). congruence.
Qed.

Lemma symbols_loop_rinv cur done popped st l st' :
  cinv self end_pos initial_state cur done popped st →
  (∀ s, s ∈ l → s ∈ alphabet self) →
  cur ∈ (c_states st).*1 →
  cur ∉ c_unmarked st →
  rinv self st →
  for_each (symbol_step self cur) st l = Ok st' →
  rinv self st'.
Proof.
  revert done st. induction l as [|s l IH]; intros done st Hinv Hl Hcur Hcur' Hr.
  - simpl. by intros [= <-].
  - rewrite for_each_cons. intros Hrun.
    destruct (symbol_step_inv self end_pos initial_state cur done popped st s)
      as (st1 & Hstep & Hinv1 & Hcur1 & Hcur1'); try done.
    { apply Hl, list_elem_of_here. }
    rewrite Hstep in Hrun. simpl in Hrun.
    apply (IH (done ++ [s]) st1); try done.
    + intros s' Hs'. by apply Hl, list_elem_of_further.
    + eapply (symbol_step_rinv cur done popped st s); try done.
      apply Hl, list_elem_of_here.
Qed.

Lemma construct_loop_rinv fuel cur0 popped st st' :
  cinv self end_pos initial_state cur0 (alphabet self) popped st →
  rinv self st →
  construct_loop fuel self end_pos st = Ok st' →
  rinv self st'.
Proof.
  revert cur0 popped st.
  induction fuel as [|fuel IH]; intros cur0 popped st Hinv Hr.
  - simpl. destruct (c_unmarked st); [by intros [= <-]|done].
  - cbn [construct_loop]. destruct (c_unmarked st) as [|cur rest] eqn:Hun;
      [by intros [= <-]|].
    destruct (cinv_pop _ _ _ _ _ _ _ _ Hinv Hun)
      as (final & -> & Hinv1 & Hc & Hc').
    simpl.
    destruct (symbols_loop_inv self end_pos initial_state cur [] (S popped) _
                (alphabet self) Hinv1) as (st1 & Hloop & Hinv2); try done.
    rewrite Hloop. simpl. simpl in Hinv2. intros Hrun.
    apply (IH cur0 (S popped) st1); [by eapply cinv_done| |done].
    eapply (symbols_loop_rinv cur [] (S popped)); [exact Hinv1|..|exact Hloop];
      done.
Qed.
End reachable.

Lemma construct_states_rinv self fuel st :
  construct_states fuel self = Ok st → rinv self st.
Proof.
  intros H. pose proof H as H'. unfold construct_states in H'.
  inv_bind H'. rename x into I.
  destruct (find_end_pos (pos_to_symbol self)) as [e|] eqn:He; [|done].
  eapply (construct_loop_rinv self e I); [apply cinv_start| |exact H'].
  intros S q HS Hq. simpl in HS.
  destruct (decide (I = S)); by simplify_eq.
Qed.

Lemma construct_states_reachable self fuel st q :
  construct_states fuel self = Ok st →
  q < length (c_states st) →
  ∃ w, path (alphabet self)
         (Automaton (length (c_states st)) 0 (c_final st) (c_transitions st))
         0 w q.
Proof.
  intros Hst. pose proof (construct_states_rinv _ _ _ Hst) as Hr.
  apply construct_states_cinv in Hst as (I & e & popped & _ & _ & Hinv & _).
  induction (lt_wf q) as [q _ IH]. intros Hq.
  destruct (decide (q = 0)) as [->|Hne]; [exists []; apply path_nil|].
  assert (Hin : q ∈ (c_states st).*2).
  { rewrite (ci_ids _ _ _ _ _ _ _ Hinv). apply elem_of_seq. lia. }
  apply list_elem_of_fmap in Hin as ([S q'] & -> & Hin). simpl in *.
  apply dict_get_elem in Hin; [|apply Hinv].
  destruct (Hr S q' Hin Hne) as (q0 & s & Hlt & Hs & Ht).
  destruct (IH q0 Hlt) as [w Hw]; [lia|].
  exists (w ++ [s]). by eapply path_snoc.
Qed.

(** X7: the automaton that [construct_dfa] stores is well formed: its
    states are numbered from 0, the initial one; every transition leads
    from a state to a state on a symbol of the alphabet; and the final
    states are states. *)
Theorem construct_dfa_well_formed (self built : RegexToDFA) (fuel : nat) :
  construct_dfa fuel self = Ok built →
  ∃ d, dfa built = Some d ∧
       initial d = 0 ∧ 0 < states d ∧
       (∀ q s q', dict_get (transitions d) (q, s) = Some q' →
                  q < states d ∧ q' < states d ∧ s ∈ alphabet self) ∧
       (∀ q, q ∈ final_states d → q < states d).
Proof.
  intros (st & Hst & ->)%construct_dfa_inv. eexists. split; [done|]. simpl.
  pose proof (construct_states_wf _ _ _ Hst) as (_ & Hrange & Hinit).
  simpl in Hrange, Hinit.
  apply construct_states_cinv in Hst as (I & e & popped & _ & _ & Hinv & _).
  split_and!; [done..| |].
  - intros q s q' Ht. destruct (Hrange _ _ _ Ht) as [? ?].
    split_and!; [done..|].
    apply (ci_trans _ _ _ _ _ _ _ Hinv) in Ht as (S & _ & (_ & ? & _) & _). done.
  - intros q (S & HS & _)%(ci_final _ _ _ _ _ _ _ Hinv).
    by eapply cinv_id_lt.
Qed.

(** X8: every state of the automaton that [construct_dfa] stores is
    reached from the initial state by some string over the alphabet. *)
Theorem construct_dfa_reachable (self built : RegexToDFA) (fuel : nat) :
  construct_dfa fuel self = Ok built →
  ∃ d, dfa built = Some d ∧
       ∀ q, q < states d → ∃ w, path (alphabet self) d (initial d) w q.
Proof.
  intros (st & Hst & ->)%construct_dfa_inv. eexists. split; [done|]. simpl.
  intros q Hq. by eapply construct_states_reachable.
Qed.

(** ** The minimized automaton is well formed *)

Lemma remap_keys m T acc NT :
  for_each (remap_step m) acc T = Ok NT → NoDup acc.*1 → NoDup NT.*1.
Proof.
  revert acc. induction T as [|[[q c] q'] T IH]; intros acc H Hnd.
  - simpl in H. by simplify_eq.
  - rewrite for_each_cons in H. inv_bind H. unfold remap_step in H0.
    inv_bind H0. inv_bind H0. simplify_eq.
    eapply IH; [done|]. by apply dict_set_NoDup.
Qed.

Lemma state_mapping_lt P q i : state_mapping P !! q = Some i → i < length P.
Proof.
  intros (B & HB & _)%state_mapping_Some. by apply lookup_lt_Some in HB.
Qed.

Lemma minimize_inv fuel sigma d m :
  minimize fuel sigma d = Ok m →
  ∃ P, refine_loop fuel sigma (transitions d) (states d)
         (initial_partitions (states d) (final_states d))
         (initial_partitions (states d) (final_states d)) = Ok P ∧
       remap_transitions (state_mapping P) (transitions d) = Ok (transitions m) ∧
       remap_final (state_mapping P) (final_states d) = Ok (final_states m) ∧
       state_mapping P !! initial d = Some (initial m) ∧
       states m = length P.
Proof.
  unfold minimize. intros H. inv_bind H. inv_bind H. inv_bind H. inv_bind H.
  simplify_eq. apply mapping_item_Ok in H3. by exists x.
Qed.

Lemma minimize_wf fuel sigma d m :
  wf_dfa d → (∀ q, q ∈ final_states d → q < states d) →
  minimize fuel sigma d = Ok m →
  wf_dfa m ∧ 0 < states m ≤ states d ∧
  (∀ q, q ∈ final_states m → q < states m) ∧
  (∀ i s j, dict_get (transitions m) (i, s) = Some j →
            ∃ q q', dict_get (transitions d) (q, s) = Some q').
Proof.
  intros Hwf HF (P & Hloop & Ht & Hf & Hi & Hn)%minimize_inv.
  pose proof Hwf as (Hkeys & Hrange & Hinit).
  destruct (refine_loop_stable (transitions d) (states d) sigma Hrange
              _ _ _ _ Hloop) as (_ & _ & Hpart).
  { intros P' _ HW C c HC Hc. by apply HW. }
  specialize (Hpart _ (initial_partitions_partition _ _)).
  assert (HQ : set_seq 0 (states d) ∪ final_states d
               = (set_seq 0 (states d) : gset nat)).
  { apply set_eq. intros q. rewrite elem_of_union, elem_of_set_seq.
    split; [intros [?|?%HF]; lia|auto]. }
  rewrite HQ in Hpart.
  split_and!.
  - split_and!.
    + eapply remap_keys; [exact Ht|]. apply NoDup_nil_2.
    + intros i s j Hij. rewrite Hn.
      destruct (remap_loop_spec _ _ _ _ Ht) as (R1 & _).
      destruct (R1 _ _ _ Hij) as [?|(q & q' & _ & ? & ?)]; [done|].
      split; by eapply state_mapping_lt.
    + rewrite Hn. by eapply state_mapping_lt.
  - rewrite Hn. apply state_mapping_lt in Hi. lia.
  - rewrite Hn. apply partition_length in Hpart.
    by rewrite size_set_seq in Hpart.
  - intros i Hi'. rewrite Hn.
    apply (remap_final_spec _ _ _ _ Hf) in Hi'
      as [?%elem_of_empty|(f & _ & Hfi)]; [done|].
    by eapply state_mapping_lt.
  - intros i s j Hij%dict_get_Some_elem.
    apply (remap_transitions_labels _ _ _ Ht) in Hij as (q & q' & Hin).
    exists q, q'. by apply dict_get_elem.
Qed.

(** X9: the minimized automaton is well formed and no larger than the
    one it was computed from: it has at least one state and at most as
    many as the original; its initial state, its final states and the ends
    of its transitions are states; and every symbol that labels one of its
    transitions labels a transition of the original. *)
Theorem minimize_dfa_well_formed (regex : list N) (order : list N) (fuel : nat)
    (final : RegexToDFA) :
  process fuel (init regex order) = Ok final →
  ∃ d m,
    dfa final = Some d ∧ minimized_dfa final = Some m ∧
    0 < states m ≤ states d ∧
    initial m < states m ∧
    (∀ q, q ∈ final_states m → q < states m) ∧
    (∀ i s j, dict_get (transitions m) (i, s) = Some j →
              i < states m ∧ j < states m ∧
              ∃ q q', dict_get (transitions d) (q, s) = Some q').
Proof.
  intros H.
  apply process_stages in H
    as (postfix & root & built & tree & fp & st & d & m &
        _ & _ & _ & _ & Hst & Hd & Hm & Hal & ->).
  exists d, m. split; [done|]. split; [done|].
  assert (Hwf : wf_dfa d) by (subst d; by eapply construct_states_wf).
  assert (HF : ∀ q, q ∈ final_states d → q < states d).
  { apply construct_states_cinv in Hst as (I & e & popped & _ & _ & Hinv & _).
    subst d. simpl.
    intros q (S & HS & _)%(ci_final _ _ _ _ _ _ _ Hinv). by eapply cinv_id_lt. }
  destruct (minimize_wf _ _ _ _ Hwf HF Hm)
    as ((_ & Hrange & Hinit) & Hsize & Hfin & Hlab).
  split_and!; [lia|lia|done|done|].
  intros i s j Hij. destruct (Hrange _ _ _ Hij). eauto.
Qed.

(** ** The refinement splits no more than it must *)

Lemma split_step_members X NP W B :
  ∃ W', split_step X (NP, W) B = (NP ++ pieces X B, W') ∧
        ∀ Y, Y ∈ W' → Y ∈ W ∨ Y ∈ pieces X B.
Proof.
  unfold split_step, pieces.
  destruct (decide (B ∩ X ≠ ∅ ∧ B ∖ X ≠ ∅)) as [?|?].
  - destruct (decide (B ∈ W)) as [HB|HB];
      [|destruct (decide (size (B ∩ X) ≤ size (B ∖ X)))];
      (eexists; split; [reflexivity|]); intros Y [HY|HY]%elem_of_app.
    + left. clear HB. induction W as [|Z W IH]; simpl in HY; [done|].
      destruct (decide (Z = B)); [by apply list_elem_of_further|].
      apply elem_of_cons in HY as [->|HY]; [apply list_elem_of_here|].
      apply list_elem_of_further. auto.
    + by right.
    + by left.
    + right. apply list_elem_of_singleton in HY as ->. apply list_elem_of_here.
    + by left.
    + right. apply list_elem_of_singleton in HY as ->.
      apply list_elem_of_further, list_elem_of_here.
  - eexists. split; [reflexivity|]. auto.
Qed.

Lemma split_fold_members X Bs NP W :
  ∃ W', foldl (split_step X) (NP, W) Bs = (NP ++ (Bs ≫= pieces X), W') ∧
        ∀ Y, Y ∈ W' → Y ∈ W ∨ ∃ B, B ∈ Bs ∧ Y ∈ pieces X B.
Proof.
  revert NP W. induction Bs as [|B Bs IH]; intros NP W.
  - exists W. simpl. rewrite app_nil_r. auto.
  - destruct (split_step_members X NP W B) as (W1 & Hstep & Hmem).
    destruct (IH (NP ++ pieces X B) W1) as (W' & Hfold & Hmem').
    exists W'. split.
    + cbn [foldl]. rewrite Hstep, Hfold, bind_cons. by rewrite <- app_assoc.
    + intros Y [HY|(B' & HB' & HY)]%Hmem'.
      * destruct (Hmem Y HY) as [?|?]; [by left|right].
        exists B. split; [apply list_elem_of_here|done].
      * right. exists B'. split; [by apply list_elem_of_further|done].
Qed.

Section coarsest.
Context (T : list ((nat * N) * nat)) (n : nat) (sigma : list N) (Q : gset nat).
Context (E : nat → nat → Prop).
Hypothesis T_range : ∀ q s q', dict_get T (q, s) = Some q' → q < n ∧ q' < n.
Hypothesis Q_range : ∀ q, q < n → q ∈ Q.
Hypothesis E_sym : ∀ q q', E q q' → E q' q.
Hypothesis E_step : ∀ q1 q2 c q1',
  E q1 q2 → c ∈ sigma → dict_get T (q1, c) = Some q1' →
  ∃ q2', dict_get T (q2, c) = Some q2' ∧ E q1' q2'.

Lemma predecessors_saturated X c q q' :
  c ∈ sigma → saturated E Q X →
  q ∈ predecessors T n c X → E q q' → q' ∈ predecessors T n c X.
Proof using T_range Q_range E_step.
  intros Hc HX Hq HE.
  apply (elem_of_predecessors T n T_range) in Hq as (q1 & Hq1 & HX1).
  destruct (E_step _ _ _ _ HE Hc Hq1) as (q2 & Hq2 & HE2).
  apply (elem_of_predecessors T n T_range). exists q2. split; [done|].
  apply (HX q1 q2); [done| |done]. apply Q_range.
  by apply T_range in Hq2 as [_ ?].
Qed.

Lemma pieces_saturated X c A B C :
  c ∈ sigma → saturated E Q A → X = predecessors T n c A →
  saturated E Q B → C ∈ pieces X B → saturated E Q C.
Proof using T_range Q_range E_sym E_step.
  intros Hc HA -> HB HC q q' Hq HQ HE.
  apply elem_of_pieces in HC as [[-> _]|[[-> | ->] _]].
  - by eapply HB.
  - apply elem_of_intersection in Hq as [Hq1 Hq2].
    apply elem_of_intersection. split; [by eapply HB|].
    by eapply predecessors_saturated.
  - apply elem_of_difference in Hq as [Hq1 Hq2].
    apply elem_of_difference. split; [by eapply HB|].
    intros Hq'. apply Hq2. eapply predecessors_saturated; [done..|].
    by apply E_sym.
Qed.

Lemma refine_symbols_saturated A l P W P1 W1 :
  (∀ c, c ∈ l → c ∈ sigma) →
  saturated E Q A →
  Forall (saturated E Q) P → Forall (saturated E Q) W →
  foldl (refine_step T n A) (P, W) l = (P1, W1) →
  Forall (saturated E Q) P1 ∧ Forall (saturated E Q) W1.
Proof using T_range Q_range E_sym E_step.
  revert P W. induction l as [|c l IH]; intros P W Hl HA HP HW.
  { simpl. by intros [= <- <-]. }
  cbn [foldl]. unfold refine_step at 2.
  destruct (split_fold_members (predecessors T n c A) P [] W)
    as (W' & -> & Hmem).
  assert (Hc : c ∈ sigma) by apply Hl, list_elem_of_here.
  assert (Hpieces : ∀ B C, B ∈ P → C ∈ pieces (predecessors T n c A) B →
                           saturated E Q C).
  { intros B C HB HC. eapply (pieces_saturated _ c A B); try done.
    by eapply Forall_forall in HP. }
  apply IH.
  - intros c' Hc'. by apply Hl, list_elem_of_further.
  - done.
  - simpl. apply Forall_forall. intros C (B & HC & HB)%list_elem_of_bind. eauto.
  - apply Forall_forall. intros Y [HY|(B & HB & HY)]%Hmem.
    + by eapply Forall_forall in HW.
    + eauto.
Qed.

Lemma refine_loop_saturated fuel P W Pf :
  Forall (saturated E Q) P → Forall (saturated E Q) W →
  refine_loop fuel sigma T n P W = Ok Pf →
  Forall (saturated E Q) Pf.
Proof using T_range Q_range E_sym E_step.
  revert P W. induction fuel as [|fuel IH]; intros P W HP HW.
  { destruct W; [by intros [= <-]|done]. }
  destruct W as [|A W]; [by intros [= <-]|]. cbn [refine_loop].
  destruct (foldl (refine_step T n A) (P, W) sigma) as [P1 W1] eqn:Hf.
  apply Forall_cons in HW as [HA HW].
  destruct (refine_symbols_saturated A sigma P W P1 W1) as [HP1 HW1]; try done.
  by apply IH.
Qed.
End coarsest.

(** ** Distinct states of the minimized automaton differ on some input *)

Lemma outcome_cons sigma d q c w :
  outcome sigma d q (c :: w) =
  if in_str c sigma then
    match dict_get (transitions d) (q, c) with
    | Some q' => outcome sigma d q' w
    | None => None
    end
  else None.
Proof.
  unfold outcome. simpl. unfold simulate_step at 1.
  destruct (in_str c sigma); simpl; [|done].
  by destruct (dict_get (transitions d) (q, c)).
Qed.

Lemma simulate_outcome sigma d w :
  simulate sigma d w = true ↔ outcome sigma d (initial d) w = Some true.
Proof.
  unfold simulate, outcome.
  assert (Hret : ∀ w q r,
    for_return (simulate_step sigma d) q w = Return r → r = false).
  { clear. induction w as [|c w IH]; intros q r; simpl; [done|].
    unfold simulate_step at 1.
    destruct (in_str c sigma); simpl; [|by intros [= <-]].
    destruct (dict_get (transitions d) (q, c)); [apply IH|by intros [= <-]]. }
  destruct (for_return (simulate_step sigma d) (initial d) w) as [r|q] eqn:Hr.
  - apply Hret in Hr as ->. done.
  - split; [by intros ->|by intros [= ->]].
Qed.

Lemma quotient_outcome sigma d dm P w q i :
  wf_dfa d →
  partition_of P (set_seq 0 (states d) ∪ final_states d) →
  (∀ C c, C ∈ P → c ∈ sigma → stable (transitions d) (states d) P C c) →
  (∀ B, B ∈ P → B ⊆ final_states d ∨ B ## final_states d) →
  remap_transitions (state_mapping P) (transitions d) = Ok (transitions dm) →
  remap_final (state_mapping P) (final_states d) = Ok (final_states dm) →
  q < states d → state_mapping P !! q = Some i →
  outcome sigma d q w = outcome sigma dm i w.
Proof.
  intros Hwf Hpart Hstable Hfinal Htrans Hfin.
  revert q i. induction w as [|c w IH]; intros q i Hq Hi.
  - unfold outcome. simpl. f_equal. apply bool_decide_ext.
    by eapply quotient_final.
  - rewrite !outcome_cons. destruct (in_str c sigma) eqn:Hc; [|done].
    apply in_str_true in Hc.
    pose proof (quotient_step sigma d dm P Hwf Hpart Hstable Htrans q i c
                  Hq Hi Hc) as Hstep.
    destruct (dict_get (transitions d) (q, c)) as [q'|].
    + destruct Hstep as (j & -> & Hj & Hq'). by apply IH.
    + by rewrite Hstep.
Qed.

Lemma outcome_step sigma d q1 q2 c q1' :
  (∀ w, outcome sigma d q1 w = outcome sigma d q2 w) →
  c ∈ sigma → dict_get (transitions d) (q1, c) = Some q1' →
  ∃ q2', dict_get (transitions d) (q2, c) = Some q2' ∧
         ∀ w, outcome sigma d q1' w = outcome sigma d q2' w.
Proof.
  intros HE Hc%in_str_true H1.
  pose proof (HE [c]) as Hc1. rewrite !outcome_cons, Hc, H1 in Hc1.
  destruct (dict_get (transitions d) (q2, c)) as [q2'|] eqn:H2; [|done].
  exists q2'. split; [done|]. intros w.
  specialize (HE (c :: w)). by rewrite !outcome_cons, Hc, H1, H2 in HE.
Qed.

Lemma initial_partitions_saturated sigma d :
  (∀ q, q ∈ final_states d → q < states d) →
  Forall (saturated (λ q q', ∀ w, outcome sigma d q w = outcome sigma d q' w)
            (set_seq 0 (states d) ∪ final_states d))
         (initial_partitions (states d) (final_states d)).
Proof.
  intros HF. apply Forall_forall.
  intros B [HB [-> | ->]]%initial_partitions_elem q q' Hq Hq' HE.
  - apply elem_of_difference. apply elem_of_difference in Hq as [_ Hq].
    split.
    + apply elem_of_set_seq.
      apply elem_of_union in Hq' as [?%elem_of_set_seq|?%HF]; lia.
    + intros HF'. apply Hq. specialize (HE []). unfold outcome in HE.
      simpl in HE. injection HE as HE.
      rewrite (bool_decide_eq_true_2 (q' ∈ final_states d)) in HE by done.
      by apply bool_decide_eq_true in HE.
  - specialize (HE []). unfold outcome in HE. simpl in HE.
    injection HE as HE.
    rewrite (bool_decide_eq_true_2 (q ∈ final_states d)) in HE by done.
    symmetry in HE. by apply bool_decide_eq_true in HE.
Qed.

Lemma minimize_reduced fuel sigma d m i j :
  wf_dfa d → (∀ q, q ∈ final_states d → q < states d) →
  minimize fuel sigma d = Ok m →
  i < states m → j < states m →
  (∀ w, outcome sigma m i w = outcome sigma m j w) →
  i = j.
Proof.
  intros Hwf HF (P & Hloop & Ht & Hf & Hi & Hn)%minimize_inv Hi' Hj' Hsame.
  pose proof Hwf as (Hkeys & Hrange & Hinit).
  destruct (refine_loop_stable (transitions d) (states d) sigma Hrange
              _ _ _ _ Hloop) as (Hstable & Href & Hpart).
  { intros P' _ HW C c HC Hc. by apply HW. }
  specialize (Hpart _ (initial_partitions_partition _ _)).
  assert (Hfinal : ∀ B, B ∈ P → B ⊆ final_states d ∨ B ## final_states d).
  { intros B HB. destruct (Href B HB) as (B0 & HB0 & Hsub).
    destruct (initial_partitions_final _ _ _ HB0); [left|right]; set_solver. }
  set (Q := set_seq 0 (states d) ∪ final_states d : gset nat) in *.
  set (E := λ q q', ∀ w, outcome sigma d q w = outcome sigma d q' w).
  assert (HQ : ∀ q, q ∈ Q → q < states d).
  { intros q [?%elem_of_set_seq|?%HF]%elem_of_union; lia. }
  assert (Hsat : Forall (saturated E Q) P).
  { eapply (refine_loop_saturated (transitions d) (states d) sigma Q E);
      [done| | | | | |exact Hloop].
    - intros q Hq. apply elem_of_union_l, elem_of_set_seq. lia.
    - intros q q' HE w. symmetry. apply HE.
    - intros q1 q2 c q1' HE Hc H1. by eapply outcome_step.
    - by apply initial_partitions_saturated.
    - by apply initial_partitions_saturated. }
  rewrite Hn in Hi', Hj'.
  destruct (lookup_lt_is_Some_2 P i Hi') as [Bi HBi].
  destruct (lookup_lt_is_Some_2 P j Hj') as [Bj HBj].
  destruct Hpart as (Hne & Hdis & Hcov).
  assert (HBi' : Bi ∈ P) by (by eapply list_elem_of_lookup_2).
  assert (HBj' : Bj ∈ P) by (by eapply list_elem_of_lookup_2).
  destruct (set_choose_L Bi (Hne _ HBi')) as [qi Hqi].
  destruct (set_choose_L Bj (Hne _ HBj')) as [qj Hqj].
  assert (HqiQ : qi ∈ Q).
  { rewrite <- Hcov. apply elem_of_union_list. eauto. }
  assert (HqjQ : qj ∈ Q).
  { rewrite <- Hcov. apply elem_of_union_list. eauto. }
  assert (Hpart : partition_of P Q) by done.
  assert (HE : E qi qj).
  { intros w.
    assert (Hoi : outcome sigma d qi w = outcome sigma m i w).
    { apply (quotient_outcome sigma d m P w qi i); try done;
        [by apply HQ|by eapply state_mapping_lookup]. }
    assert (Hoj : outcome sigma d qj w = outcome sigma m j w).
    { apply (quotient_outcome sigma d m P w qj j); try done;
        [by apply HQ|by eapply state_mapping_lookup]. }
    rewrite Hoi, Hoj. apply Hsame. }
  eapply Forall_forall in Hsat; [|exact HBi'].
  specialize (Hsat qi qj Hqi HqjQ HE).
  by eapply pairwise_disjoint_lookup.
Qed.

(** X10: [minimize_dfa] merges all the states it can: two distinct states of
    the minimized automaton are told apart by some input, which from one
    of them is read to its end and from the other is not, or ends in a
    final state from one and in a non-final state from the other. *)
Theorem minimized_dfa_reduced (regex : list N) (order : list N) (fuel : nat)
    (final : RegexToDFA) :
  process fuel (init regex order) = Ok final →
  ∃ m, minimized_dfa final = Some m ∧
       ∀ i j, i < states m → j < states m →
         (∀ w, outcome (alphabet final) m i w = outcome (alphabet final) m j w) →
         i = j.
Proof.
  intros H.
  apply process_stages in H
    as (postfix & root & built & tree & fp & st & d & m &
        _ & _ & _ & _ & Hst & Hd & Hm & Hal & ->).
  exists m. split; [done|]. simpl. rewrite Hal.
  assert (Hwf : wf_dfa d) by (subst d; by eapply construct_states_wf).
  assert (HF : ∀ q, q ∈ final_states d → q < states d).
  { apply construct_states_cinv in Hst as (I & e & popped & _ & _ & Hinv & _).
    subst d. simpl.
    intros q (S & HS & _)%(ci_final _ _ _ _ _ _ _ Hinv). by eapply cinv_id_lt. }
  intros i j. by eapply minimize_reduced.
Qed.

(** ** The translation to postfix of a written expression *)

Lemma insert_concat_app s1 c1 c2 s2 :
  insert_concat (s1 ++ c1 :: c2 :: s2) =
  insert_concat (s1 ++ [c1]) ++
  (if concat_between c1 c2 then [c_dot] else []) ++ insert_concat (c2 :: s2).
Proof.
  induction s1 as [|c0 s1 IH].
  - change (insert_concat ([] ++ c1 :: c2 :: s2)) with
      (if concat_between c1 c2 then c1 :: c_dot :: insert_concat (c2 :: s2)
       else c1 :: insert_concat (c2 :: s2)).
    by destruct (concat_between c1 c2).
  - destruct s1 as [|c' s1].
    + change (insert_concat ([c0] ++ c1 :: c2 :: s2)) with
        (if concat_between c0 c1
         then c0 :: c_dot :: insert_concat ([] ++ c1 :: c2 :: s2)
         else c0 :: insert_concat ([] ++ c1 :: c2 :: s2)).
      change (insert_concat ([c0] ++ [c1])) with
        (if concat_between c0 c1 then c0 :: c_dot :: insert_concat ([] ++ [c1])
         else c0 :: insert_concat ([] ++ [c1])).
      rewrite IH. by destruct (concat_between c0 c1).
    + change (insert_concat ((c0 :: c' :: s1) ++ c1 :: c2 :: s2)) with
        (if concat_between c0 c'
         then c0 :: c_dot :: insert_concat ((c' :: s1) ++ c1 :: c2 :: s2)
         else c0 :: insert_concat ((c' :: s1) ++ c1 :: c2 :: s2)).
      change (insert_concat ((c0 :: c' :: s1) ++ [c1])) with
        (if concat_between c0 c'
         then c0 :: c_dot :: insert_concat ((c' :: s1) ++ [c1])
         else c0 :: insert_concat ((c' :: s1) ++ [c1])).
      rewrite IH. by destruct (concat_between c0 c').
Qed.

(** A written expression does not begin with a character that forbids a
    concatenation operator before it, nor end with one that forbids it
    after. *)
Lemma written_ends l s r :
  written l s r →
  ∃ c1 s' s'' c2, s = c1 :: s' ∧ s = s'' ++ [c2] ∧
    (∀ c, concat_between c c1 =
          negb (bool_decide (c = c_lparen) || bool_decide (c = c_bar))) ∧
    (∀ c, concat_between c2 c =
          negb (bool_decide (c = c_rparen) || bool_decide (c = c_bar) ||
                bool_decide (c = c_star) || bool_decide (c = c_plus) ||
                bool_decide (c = c_qmark))).
Proof.
  induction 1 as [|c Hc|s r _ _|s r _ IH|s r _ IH|s r _ IH
                 |s1 r1 s2 r2 _ IH1 _ IH2|s1 r1 s2 r2 _ IH1 _ IH2|l s r _ IH].
  - exists c_eps, [], [], c_eps. split_and!; try done.
    intros c. unfold concat_between. by rewrite andb_true_r.
  - exists c, [], [], c. unfold symbol in Hc. rewrite !not_elem_of_cons in Hc.
    destruct Hc as (? & ? & ? & ? & ? & ? & ? & ? & ? & _).
    split_and!; try done; intros c'; unfold concat_between.
    + rewrite !(bool_decide_eq_false_2 (c = _)) by done. simpl.
      by rewrite andb_true_r.
    + by rewrite !(bool_decide_eq_false_2 (c = _)) by done.
  - exists c_lparen, (s ++ [c_rparen]), (c_lparen :: s), c_rparen.
    split_and!; try done.
    intros c. unfold concat_between. by rewrite andb_true_r.
  - destruct IH as (c1 & s' & s'' & c2 & -> & Hs & H1 & H2).
    exists c1, (s' ++ [c_star]), (c1 :: s'), c_star. split_and!; try done.
  - destruct IH as (c1 & s' & s'' & c2 & -> & Hs & H1 & H2).
    exists c1, (s' ++ [c_plus]), (c1 :: s'), c_plus. split_and!; try done.
  - destruct IH as (c1 & s' & s'' & c2 & -> & Hs & H1 & H2).
    exists c1, (s' ++ [c_qmark]), (c1 :: s'), c_qmark. split_and!; try done.
  - destruct IH1 as (c1 & s1' & _ & _ & -> & _ & H1 & _).
    destruct IH2 as (_ & _ & s2'' & c2 & _ & -> & _ & H2).
    exists c1, (s1' ++ s2'' ++ [c2]), ((c1 :: s1') ++ s2''), c2.
    split_and!; try done. by rewrite <- app_assoc.
  - destruct IH1 as (c1 & s1' & _ & _ & -> & _ & H1 & _).
    destruct IH2 as (_ & _ & s2'' & c2 & _ & -> & _ & H2).
    exists c1, (s1' ++ [c_bar] ++ s2'' ++ [c2]),
      ((c1 :: s1') ++ [c_bar] ++ s2''), c2.
    split_and!; try done. by rewrite <- !app_assoc.
  - done.
Qed.

Lemma insert_concat_snoc l s r c :
  written l s r →
  insert_concat (s ++ [c]) =
  insert_concat s ++
  (if negb (bool_decide (c = c_rparen) || bool_decide (c = c_bar) ||
            bool_decide (c = c_star) || bool_decide (c = c_plus) ||
            bool_decide (c = c_qmark)) then [c_dot] else []) ++ [c].
Proof.
  intros (_ & _ & s'' & c2 & _ & -> & _ & H2)%written_ends.
  rewrite <- app_assoc. cbn [app].
  by rewrite (insert_concat_app s'' c2 c []), H2.
Qed.

Lemma insert_concat_paren l s r :
  written l s r →
  insert_concat ([c_lparen] ++ s ++ [c_rparen])
  = c_lparen :: insert_concat s ++ [c_rparen].
Proof.
  intros Hs. pose proof (insert_concat_snoc _ _ _ c_rparen Hs) as Hsnoc.
  destruct (written_ends _ _ _ Hs) as (c1 & s' & _ & _ & -> & _ & H1 & _).
  pose proof (insert_concat_app [] c_lparen c1 (s' ++ [c_rparen])) as H.
  cbn [app] in H. cbn [app]. rewrite H, H1. cbn [app] in Hsnoc.
  rewrite Hsnoc. reflexivity.
Qed.

Lemma insert_concat_join l1 s1 r1 l2 s2 r2 :
  written l1 s1 r1 → written l2 s2 r2 →
  insert_concat (s1 ++ s2) = insert_concat s1 ++ c_dot :: insert_concat s2.
Proof.
  intros (_ & _ & s'' & c2 & _ & -> & _ & H2)%written_ends
         (c1 & s' & _ & _ & -> & _ & H1 & _)%written_ends.
  rewrite <- app_assoc. cbn [app].
  rewrite (insert_concat_app s'' c2 c1 s'), H1.
  specialize (H2 c_lparen). unfold concat_between in H2 |- *.
  simpl in H2. rewrite andb_true_r in H2. by rewrite H2.
Qed.

Lemma written_nonempty l s r : written l s r → s ≠ [].
Proof. by intros (c1 & s' & _ & _ & -> & _)%written_ends. Qed.

Lemma pop_higher_all c Y output stack :
  Forall (λ y, y ≠ c_lparen ∧ precedence c ≤ precedence y) Y →
  low (precedence c) stack →
  pop_higher c output (Y ++ stack) = (output ++ Y, stack).
Proof.
  intros HY Hlow. revert output.
  induction HY as [|y Y [Hy1 Hy2] _ IH]; intros output.
  - rewrite app_nil_r. destruct stack as [|top rest]; [done|]. simpl in *.
    destruct (decide (top = c_lparen)); [done|].
    destruct (decide (precedence c ≤ precedence top)); [|done].
    destruct Hlow; [done|lia].
  - simpl. rewrite decide_False by done. rewrite decide_True by done.
    rewrite IH. by rewrite <- app_assoc.
Qed.

Lemma pop_to_paren_all Y output stack :
  Forall (λ y, y ≠ c_lparen) Y →
  pop_to_paren output (Y ++ c_lparen :: stack)
  = (output ++ Y, c_lparen :: stack).
Proof.
  intros HY. revert output. induction HY as [|y Y Hy _ IH]; intros output.
  - by rewrite app_nil_r.
  - simpl. rewrite decide_False by done. rewrite IH. by rewrite <- app_assoc.
Qed.

Lemma shunt_step_lparen output stack :
  shunt_step (output, stack) c_lparen = (output, c_lparen :: stack).
Proof. reflexivity. Qed.

Lemma shunt_step_rparen output Y stack :
  Forall (λ y, y ≠ c_lparen) Y →
  shunt_step (output, Y ++ c_lparen :: stack) c_rparen = (output ++ Y, stack).
Proof.
  intros HY. unfold shunt_step.
  change (in_str c_rparen (of_string "()|*+?" ++ [c_dot])) with true.
  cbn [negb]. rewrite decide_False by done. rewrite decide_True by done.
  rewrite pop_to_paren_all by done. by rewrite decide_True.
Qed.

Lemma shunt_step_operator c output Y stack :
  c ∈ [c_bar; c_dot; c_star; c_plus; c_qmark] →
  Forall (λ y, y ≠ c_lparen ∧ precedence c ≤ precedence y) Y →
  low (precedence c) stack →
  shunt_step (output, Y ++ stack) c = (output ++ Y, c :: stack).
Proof.
  intros Hc HY Hlow. unfold shunt_step.
  assert (Hin : in_str c (of_string "()|*+?" ++ [c_dot]) = true).
  { revert Hc. rewrite !elem_of_cons, elem_of_nil.
    intros [->|[->|[->|[->|[->|[]]]]]]; reflexivity. }
  rewrite Hin. cbn [negb].
  assert (c ≠ c_lparen ∧ c ≠ c_rparen) as [? ?].
  { revert Hc. rewrite !elem_of_cons, elem_of_nil.
    intros [->|[->|[->|[->|[->|[]]]]]]; done. }
  rewrite decide_False by done. rewrite decide_False by done.
  by rewrite pop_higher_all.
Qed.

Lemma shunt_step_operand c output stack :
  c ∉ [c_lparen; c_rparen; c_bar; c_star; c_plus; c_qmark; c_dot] →
  shunt_step (output, stack) c = (output ++ [c], stack).
Proof.
  intros Hc. unfold shunt_step.
  change (of_string "()|*+?" ++ [c_dot])
    with [c_lparen; c_rparen; c_bar; c_star; c_plus; c_qmark; c_dot].
  apply in_str_false in Hc. by rewrite Hc.
Qed.

Lemma low_mono l l' stack : l ≤ l' → low l stack → low l' stack.
Proof. intros Hl. destruct stack; [done|]. simpl. intros [?|?]; [auto|right; lia]. Qed.

Lemma symbol_operand c :
  symbol c → c ∉ [c_lparen; c_rparen; c_bar; c_star; c_plus; c_qmark; c_dot].
Proof. unfold symbol. rewrite !not_elem_of_cons. tauto. Qed.

Lemma precedence_dot : precedence c_dot = 2.
Proof. reflexivity. Qed.

Lemma precedence_bar : precedence c_bar = 1.
Proof. reflexivity. Qed.

Lemma eps_operand :
  c_eps ∉ [c_lparen; c_rparen; c_bar; c_star; c_plus; c_qmark; c_dot].
Proof. apply (bool_decide_unpack _). reflexivity. Qed.

(** Reading a written expression moves its postfix form to the output,
    but for the operators [Y] that close it, left on the stack. *)
Lemma shunt_written l s r :
  written l s r →
  ∀ output stack, low l stack →
  ∃ X Y,
    foldl shunt_step (output, stack) (insert_concat s)
      = (output ++ X, Y ++ stack) ∧
    X ++ Y = post r ∧
    Forall (λ y, y ≠ c_lparen ∧ l ≤ precedence y) Y.
Proof.
  induction 1 as [|c Hc|s r Hs IH|s r Hs IH|s r Hs IH|s r Hs IH
                 |s1 r1 s2 r2 Hs1 IH1 Hs2 IH2|s1 r1 s2 r2 Hs1 IH1 Hs2 IH2
                 |l s r Hs IH]; intros output stack Hlow.
  - exists [c_eps], []. split_and!; [|done|by constructor].
    cbn [insert_concat foldl app].
    by rewrite shunt_step_operand by apply eps_operand.
  - exists [c], []. split_and!; [|done|by constructor].
    cbn [insert_concat foldl app].
    by rewrite shunt_step_operand by by apply symbol_operand.
  - destruct (IH output (c_lparen :: stack)) as (X & Y & Hrun & Hpost & HY);
      [by left|].
    exists (X ++ Y), []. split_and!; [|by rewrite app_nil_r|by constructor].
    rewrite (insert_concat_paren _ _ _ Hs).
    cbn [foldl]. rewrite shunt_step_lparen, foldl_app, Hrun. cbn [foldl].
    rewrite shunt_step_rparen.
    + by rewrite app_assoc.
    + eapply Forall_impl; [exact HY|]. by intros y [? _].
  - destruct (IH output stack Hlow) as (X & Y & Hrun & Hpost & HY).
    exists (X ++ Y), [c_star]. split_and!.
    + rewrite (insert_concat_snoc _ _ _ _ Hs). simpl bool_decide.
      cbn [negb orb app]. rewrite foldl_app, Hrun. cbn [foldl].
      rewrite shunt_step_operator; [by rewrite app_assoc| |done|done].
      apply (bool_decide_unpack _). reflexivity.
    + simpl. by rewrite Hpost.
    + constructor; [|done]. split; [done|]. reflexivity.
  - destruct (IH output stack Hlow) as (X & Y & Hrun & Hpost & HY).
    exists (X ++ Y), [c_plus]. split_and!.
    + rewrite (insert_concat_snoc _ _ _ _ Hs). simpl bool_decide.
      cbn [negb orb app]. rewrite foldl_app, Hrun. cbn [foldl].
      rewrite shunt_step_operator; [by rewrite app_assoc| |done|done].
      apply (bool_decide_unpack _). reflexivity.
    + simpl. by rewrite Hpost.
    + constructor; [|done]. split; [done|]. reflexivity.
  - destruct (IH output stack Hlow) as (X & Y & Hrun & Hpost & HY).
    exists (X ++ Y), [c_qmark]. split_and!.
    + rewrite (insert_concat_snoc _ _ _ _ Hs). simpl bool_decide.
      cbn [negb orb app]. rewrite foldl_app, Hrun. cbn [foldl].
      rewrite shunt_step_operator; [by rewrite app_assoc| |done|done].
      apply (bool_decide_unpack _). reflexivity.
    + simpl. by rewrite Hpost.
    + constructor; [|done]. split; [done|]. reflexivity.
  - destruct (IH1 output stack Hlow) as (X1 & Y1 & Hrun1 & Hpost1 & HY1).
    destruct (IH2 (output ++ X1 ++ Y1) (c_dot :: stack))
      as (X2 & Y2 & Hrun2 & Hpost2 & HY2);
      [right; rewrite precedence_dot; lia|].
    exists (X1 ++ Y1 ++ X2), (Y2 ++ [c_dot]). split_and!.
    + rewrite (insert_concat_join _ _ _ _ _ _ Hs1 Hs2).
      rewrite foldl_app, Hrun1. cbn [foldl].
      rewrite shunt_step_operator; [|apply (bool_decide_unpack _); reflexivity|done|done].
      rewrite <- app_assoc, Hrun2. by rewrite <- !app_assoc.
    + simpl. rewrite <- Hpost1, <- Hpost2. by rewrite <- !app_assoc.
    + apply Forall_app. split.
      * eapply Forall_impl; [exact HY2|]. intros y [? ?]. split; [done|lia].
      * constructor; [|done]. split; [done|]. reflexivity.
  - destruct (IH1 output stack Hlow) as (X1 & Y1 & Hrun1 & Hpost1 & HY1).
    destruct (IH2 (output ++ X1 ++ Y1) (c_bar :: stack))
      as (X2 & Y2 & Hrun2 & Hpost2 & HY2);
      [right; rewrite precedence_bar; lia|].
    exists (X1 ++ Y1 ++ X2), (Y2 ++ [c_bar]). split_and!.
    + assert (Hic : insert_concat (s1 ++ [c_bar] ++ s2)
                    = insert_concat s1 ++ c_bar :: insert_concat s2).
      { rewrite app_assoc.
        destruct (written_ends _ _ _ Hs2) as (c1 & s' & _ & _ & -> & _ & H1 & _).
        destruct (written_ends _ _ _ Hs1) as (_ & _ & s'' & c2 & _ & -> & _ & H2).
        rewrite <- !app_assoc. cbn [app].
        rewrite (insert_concat_app s'' c2 c_bar (c1 :: s')), H2.
        simpl bool_decide. cbn [negb orb app].
        pose proof (insert_concat_app [] c_bar c1 s') as H. cbn [app] in H.
        by rewrite H, H1. }
      rewrite Hic, foldl_app, Hrun1. cbn [foldl].
      rewrite shunt_step_operator; [|apply (bool_decide_unpack _); reflexivity|done|done].
      rewrite <- app_assoc, Hrun2. by rewrite <- !app_assoc.
    + simpl. rewrite <- Hpost1, <- Hpost2. by rewrite <- !app_assoc.
    + apply Forall_app. split.
      * eapply Forall_impl; [exact HY2|]. intros y [? ?]. split; [done|lia].
      * constructor; [|done]. split; [done|]. reflexivity.
  - destruct (IH output stack) as (X & Y & Hrun & Hpost & HY).
    { eapply low_mono; [|done]. lia. }
    exists X, Y. split_and!; [done..|].
    eapply Forall_impl; [exact HY|]. intros y [? ?]. split; [done|lia].
Qed.

Lemma precedence_le c : precedence c ≤ 3.
Proof. unfold precedence. repeat case_match; lia. Qed.

(** X11: on an expression written in the usual syntax [infix_to_postfix]
    returns the postfix form of the expression: the operands in order,
    each operator after its operands, no parenthesis. *)
Theorem written_postfix (l : nat) (s : list N) (r : re) :
  written l s r → infix_to_postfix s = Ok (post r).
Proof.
  intros Hs. rewrite infix_to_postfix_nonempty by by eapply written_nonempty.
  destruct (shunt_written _ _ _ Hs [] []) as (X & Y & -> & <- & _); [done|].
  simpl. by rewrite app_nil_r.
Qed.

Lemma augmented_postfix s r order :
  written 1 s r →
  infix_to_postfix (augmented_regex (init s order))
  = Ok (post (Cat r (Sym c_hash))).
Proof.
  intros Hs. rewrite infix_to_postfix_nonempty by done.
  assert (Haug : augmented_regex (init s order)
                 = ([c_lparen] ++ s ++ [c_rparen]) ++ [c_hash]).
  { cbn [augmented_regex init]. rewrite <- !app_assoc. reflexivity. }
  rewrite Haug. clear Haug.
  pose proof (written_paren _ _ Hs) as Hp.
  rewrite (insert_concat_snoc _ _ _ c_hash Hp). simpl bool_decide.
  cbn [negb orb]. rewrite foldl_app.
  destruct (shunt_written _ _ _ Hp [] []) as (X & Y & -> & Hpost & HY); [done|].
  assert (Y = []) as ->.
  { destruct Y as [|y Y]; [done|]. apply Forall_cons in HY as [[_ Hy] _].
    pose proof (precedence_le y). lia. }
  rewrite app_nil_r in Hpost. subst X. cbn [app foldl].
  pose proof (shunt_step_operator c_dot (post r) [] []) as Hdot.
  cbn [app] in Hdot. rewrite app_nil_r in Hdot.
  rewrite Hdot; [|apply (bool_decide_unpack _); reflexivity|done|done].
  rewrite shunt_step_operand by (apply (bool_decide_unpack _); reflexivity).
  cbn [fst snd post]. by rewrite <- app_assoc.
Qed.

(** ** The tree built from a postfix form *)

Lemma build_step_leaf stack self c :
  leafy c →
  build_step (stack, self) c
  = Ok (Obj c PyNone PyNone None ∅ ∅ (Some (next_pos self)) :: stack,
        with_position self c).
Proof.
  intros [Hop Heps]. unfold build_step.
  change (of_string "*+?") with [c_star; c_plus; c_qmark].
  rewrite !not_elem_of_cons in Hop.
  destruct Hop as (? & ? & ? & ? & ? & _).
  assert (in_str c [c_star; c_plus; c_qmark] = false) as ->.
  { apply in_str_false. rewrite !not_elem_of_cons. split_and!; try done.
    apply not_elem_of_nil. }
  assert (in_str c [c_bar; c_dot] = false) as ->.
  { apply in_str_false. rewrite !not_elem_of_cons. split_and!; try done.
    apply not_elem_of_nil. }
  by rewrite decide_True.
Qed.

Lemma build_post r stack self :
  Forall leafy (syms r) →
  ∃ self',
    for_each build_step (stack, self) (post r)
      = Ok (bare (next_pos self) r :: stack, self') ∧
    next_pos self' = next_pos self + length (syms r).
Proof.
  revert stack self.
  induction r as [|c|r1 IH1 r2 IH2|r1 IH1 r2 IH2|r IH|r IH|r IH];
    intros stack self Hsyms; simpl in Hsyms.
  - exists self. split; [done|]. simpl. lia.
  - rewrite Forall_singleton in Hsyms. exists (with_position self c).
    cbn [post for_each]. rewrite build_step_leaf by done. split; [done|].
    simpl. lia.
  - apply Forall_app in Hsyms as [H1 H2].
    destruct (IH1 stack self H1) as (self1 & Hrun1 & Hn1).
    destruct (IH2 (bare (next_pos self) r1 :: stack) self1 H2)
      as (self2 & Hrun2 & Hn2).
    exists self2. split.
    + cbn [post]. rewrite for_each_app, Hrun1. simpl.
      rewrite for_each_app, Hrun2. simpl. by rewrite Hn1.
    + simpl. rewrite length_app. lia.
  - apply Forall_app in Hsyms as [H1 H2].
    destruct (IH1 stack self H1) as (self1 & Hrun1 & Hn1).
    destruct (IH2 (bare (next_pos self) r1 :: stack) self1 H2)
      as (self2 & Hrun2 & Hn2).
    exists self2. split.
    + cbn [post]. rewrite for_each_app, Hrun1. simpl.
      rewrite for_each_app, Hrun2. simpl. by rewrite Hn1.
    + simpl. rewrite length_app. lia.
  - destruct (IH stack self Hsyms) as (self1 & Hrun1 & Hn1).
    exists self1. split; [|done].
    cbn [post]. by rewrite for_each_app, Hrun1.
  - destruct (IH stack self Hsyms) as (self1 & Hrun1 & Hn1).
    exists self1. split; [|done].
    cbn [post]. by rewrite for_each_app, Hrun1.
  - destruct (IH stack self Hsyms) as (self1 & Hrun1 & Hn1).
    exists self1. split; [|done].
    cbn [post]. by rewrite for_each_app, Hrun1.
Qed.

(** ** The attribute evaluator computes the textbook attributes *)

Lemma deco_attributes k r :
  get_nullable (deco k r) = Ok (Some (re_null r)) ∧
  get_firstpos (deco k r) = Ok (re_first k r) ∧
  get_lastpos (deco k r) = Ok (re_last k r).
Proof. by destruct r. Qed.

Lemma fits_children sigma r1 r2 :
  (fits sigma (Alt r1 r2) → fits sigma r1 ∧ fits sigma r2) ∧
  (fits sigma (Cat r1 r2) → fits sigma r1 ∧ fits sigma r2).
Proof.
  split; intros [Hops Hs]; simpl in Hs; apply Forall_app in Hs as [? ?]; done.
Qed.

Lemma calculate_tree_properties_bare sigma k r :
  fits sigma r →
  calculate_tree_properties sigma (bare k r) = Ok (deco k r).
Proof.
  revert k. induction r as [|c|r1 IH1 r2 IH2|r1 IH1 r2 IH2|r IH|r IH|r IH];
    intros k Hfit.
  - reflexivity.
  - destruct Hfit as [_ Hs]. simpl in Hs. rewrite Forall_singleton in Hs.
    destruct Hs as [Hc Heps]. cbn [bare calculate_tree_properties].
    rewrite !bind_Ok_l.
    assert (Hin : in_str c sigma || bool_decide (c = c_hash) = true).
    { destruct Hc as [Hc| ->].
      - apply in_str_true in Hc. by rewrite Hc.
      - by rewrite orb_true_r. }
    unfold calc_nullable, calc_firstpos, calc_lastpos.
    destruct (decide (c = c_eps)); [done|]. rewrite Hin. reflexivity.
  - destruct (proj1 (fits_children _ _ _) Hfit) as [H1 H2].
    destruct Hfit as [Hops _].
    assert (Hbar : in_str c_bar sigma = false).
    { apply in_str_false, Hops. apply (bool_decide_unpack _). reflexivity. }
    cbn [bare calculate_tree_properties]. rewrite IH1, IH2 by done.
    rewrite !bind_Ok_l.
    destruct (deco_attributes k r1) as (Hn1 & Hf1 & Hl1).
    destruct (deco_attributes (k + length (syms r1)) r2) as (Hn2 & Hf2 & Hl2).
    unfold calc_nullable, calc_firstpos, calc_lastpos. rewrite Hbar.
    cbn [orb bool_decide]. simpl decide.
    rewrite Hn1, Hn2, Hf1, Hf2, Hl1, Hl2. rewrite !bind_Ok_l.
    simpl. by destruct (re_null r1).
  - destruct (proj2 (fits_children _ _ _) Hfit) as [H1 H2].
    destruct Hfit as [Hops _].
    assert (Hdot : in_str c_dot sigma = false).
    { apply in_str_false, Hops. apply (bool_decide_unpack _). reflexivity. }
    cbn [bare calculate_tree_properties]. rewrite IH1, IH2 by done.
    rewrite !bind_Ok_l.
    destruct (deco_attributes k r1) as (Hn1 & Hf1 & Hl1).
    destruct (deco_attributes (k + length (syms r1)) r2) as (Hn2 & Hf2 & Hl2).
    unfold calc_nullable, calc_firstpos, calc_lastpos. rewrite Hdot.
    cbn [orb bool_decide]. simpl decide.
    rewrite Hn1, Hn2, Hf1, Hf2, Hl1, Hl2. rewrite !bind_Ok_l.
    simpl. by destruct (re_null r1), (re_null r2).
  - destruct Hfit as [Hops Hs].
    assert (Hstar : in_str c_star sigma = false).
    { apply in_str_false, Hops. apply (bool_decide_unpack _). reflexivity. }
    cbn [bare calculate_tree_properties]. rewrite IH by done.
    rewrite !bind_Ok_l.
    destruct (deco_attributes k r) as (Hn1 & Hf1 & Hl1).
    unfold calc_nullable, calc_firstpos, calc_lastpos. rewrite Hstar.
    cbn [orb bool_decide]. simpl decide. simpl in_str.
    rewrite Hf1, Hl1. reflexivity.
  - destruct Hfit as [Hops Hs].
    assert (Hplus : in_str c_plus sigma = false).
    { apply in_str_false, Hops. apply (bool_decide_unpack _). reflexivity. }
    cbn [bare calculate_tree_properties]. rewrite IH by done.
    rewrite !bind_Ok_l.
    destruct (deco_attributes k r) as (Hn1 & Hf1 & Hl1).
    unfold calc_nullable, calc_firstpos, calc_lastpos. rewrite Hplus.
    cbn [orb bool_decide]. simpl decide. simpl in_str.
    rewrite Hn1, Hf1, Hl1. reflexivity.
  - destruct Hfit as [Hops Hs].
    assert (Hq : in_str c_qmark sigma = false).
    { apply in_str_false, Hops. apply (bool_decide_unpack _). reflexivity. }
    cbn [bare calculate_tree_properties]. rewrite IH by done.
    rewrite !bind_Ok_l.
    destruct (deco_attributes k r) as (Hn1 & Hf1 & Hl1).
    unfold calc_nullable, calc_firstpos, calc_lastpos. rewrite Hq.
    cbn [orb bool_decide]. simpl decide. simpl in_str.
    rewrite Hf1, Hl1. reflexivity.
Qed.

(** ** The followpos table is the textbook followpos *)

Lemma fp_get_insert fp (x i : option nat) v :
  fp_get (<[ x := v ]> fp) i = if decide (x = i) then v else fp_get fp i.
Proof.
  unfold fp_get. destruct (decide (x = i)) as [->|Hne].
  - by rewrite lookup_insert_eq.
  - by rewrite lookup_insert_ne.
Qed.

Lemma fp_add_loop t l fp :
  ∃ fp', for_each (λ fp i, t' ← Ok t; Ok (<[ i := fp_get fp i ∪ t' ]> fp)) fp l
         = Ok fp' ∧
         ∀ i, fp_get fp' i = fp_get fp i ∪ (if decide (i ∈ l) then t else ∅).
Proof.
  revert fp. induction l as [|x l IH]; intros fp.
  - exists fp. split; [done|]. intros i.
    rewrite decide_False by apply not_elem_of_nil. set_solver.
  - destruct (IH (<[ x := fp_get fp x ∪ t ]> fp)) as (fp' & Hrun & Hget).
    exists fp'. split; [by rewrite for_each_cons|].
    intros i. rewrite Hget, fp_get_insert.
    destruct (decide (x = i)) as [->|Hne].
    + rewrite (decide_True (P := i ∈ i :: l)) by apply list_elem_of_here.
      destruct (decide (i ∈ l)); set_solver.
    + destruct (decide (i ∈ l)) as [Hi|Hi].
      * rewrite decide_True by (by apply list_elem_of_further). done.
      * rewrite decide_False; [done|].
        rewrite not_elem_of_cons. split; [congruence|done].
Qed.

Lemma fp_add_all_spec t fp from :
  ∃ fp', fp_add_all (Ok t) fp from = Ok fp' ∧
         ∀ i, fp_get fp' i = fp_get fp i ∪ (if decide (i ∈ from) then t else ∅).
Proof.
  destruct (fp_add_loop t (elements from) fp) as (fp' & Hrun & Hget).
  exists fp'. split; [done|]. intros i. rewrite Hget.
  destruct (decide (i ∈ from)) as [Hi|Hi].
  - by rewrite decide_True by (by apply elem_of_elements).
  - by rewrite decide_False by (by rewrite elem_of_elements).
Qed.

Lemma fits_leafy sigma r : fits sigma r → Forall leafy (syms r).
Proof.
  intros [Hops Hs]. eapply Forall_impl; [exact Hs|]. simpl.
  intros c [[Hc| ->] Heps].
  - split; [|done]. intros Hop. by apply Hops in Hop.
  - split; [|done]. apply (bool_decide_unpack _). reflexivity.
Qed.

Lemma calculate_followpos_deco k r fp :
  Forall leafy (syms r) →
  ∃ fp', calculate_followpos fp (deco k r) = Ok fp' ∧
         ∀ i, fp_get fp' i = fp_get fp i ∪ re_follow k r i.
Proof.
  revert k fp. induction r as [|c|r1 IH1 r2 IH2|r1 IH1 r2 IH2|r IH|r IH|r IH];
    intros k fp Hsyms; simpl in Hsyms;
    try (apply Forall_app in Hsyms as [Hsyms1 Hsyms2]);
    try specialize (IH1 k); try specialize (IH k).
  - exists fp. split; [done|]. intros i. simpl. set_solver.
  - exists fp. rewrite Forall_singleton in Hsyms. destruct Hsyms as [Hop _].
    rewrite !not_elem_of_cons in Hop. destruct Hop as (? & ? & ? & ? & ? & _).
    split.
    + cbn [deco calculate_followpos].
      destruct (decide (c = c_dot)); [done|].
      change (of_string "*+") with [c_star; c_plus].
      assert (in_str c [c_star; c_plus] = false) as ->; [|done].
      apply in_str_false. rewrite !not_elem_of_cons. split_and!; try done.
      apply not_elem_of_nil.
    + intros i. simpl. set_solver.
  - destruct (IH1 fp) as (fp1 & Hrun1 & Hget1); [done|].
    destruct (IH2 (k + length (syms r1)) fp1) as (fp2 & Hrun2 & Hget2); [done|].
    exists fp2. split.
    + cbn [deco calculate_followpos]. rewrite decide_False by done.
      change (in_str c_bar (of_string "*+")) with false. cbv iota.
      rewrite !bind_Ok_l, Hrun1, bind_Ok_l. done.
    + intros i. rewrite Hget2, Hget1. cbn [re_follow]. set_solver.
  - destruct (deco_attributes k r1) as (_ & _ & Hl1).
    destruct (deco_attributes (k + length (syms r1)) r2) as (_ & Hf2 & _).
    destruct (fp_add_all_spec (re_first (k + length (syms r1)) r2) fp
                (re_last k r1)) as (fp0 & Hrun0 & Hget0).
    destruct (IH1 fp0) as (fp1 & Hrun1 & Hget1); [done|].
    destruct (IH2 (k + length (syms r1)) fp1) as (fp2 & Hrun2 & Hget2); [done|].
    exists fp2. split.
    + cbn [deco calculate_followpos]. rewrite decide_True by done.
      change (in_str c_dot (of_string "*+")) with false. cbv iota.
      rewrite Hl1, Hf2, bind_Ok_l, Hrun0, !bind_Ok_l, Hrun1, bind_Ok_l.
      done.
    + intros i. rewrite Hget2, Hget1, Hget0. cbn [re_follow]. set_solver.
  - destruct (fp_add_all_spec (re_first k r) fp (re_last k r))
      as (fp0 & Hrun0 & Hget0).
    destruct (IH fp0) as (fp1 & Hrun1 & Hget1); [done|].
    exists fp1. split.
    + cbn [deco calculate_followpos]. rewrite decide_False by done.
      change (in_str c_star (of_string "*+")) with true. cbv iota.
      cbn [re_first re_last].
      rewrite !bind_Ok_l, Hrun0, bind_Ok_l, Hrun1, bind_Ok_l. done.
    + intros i. rewrite Hget1, Hget0. cbn [re_follow]. set_solver.
  - destruct (fp_add_all_spec (re_first k r) fp (re_last k r))
      as (fp0 & Hrun0 & Hget0).
    destruct (IH fp0) as (fp1 & Hrun1 & Hget1); [done|].
    exists fp1. split.
    + cbn [deco calculate_followpos]. rewrite decide_False by done.
      change (in_str c_plus (of_string "*+")) with true. cbv iota.
      cbn [re_first re_last].
      rewrite !bind_Ok_l, Hrun0, bind_Ok_l, Hrun1, bind_Ok_l. done.
    + intros i. rewrite Hget1, Hget0. cbn [re_follow]. set_solver.
  - destruct (IH fp) as (fp1 & Hrun1 & Hget1); [done|].
    exists fp1. split.
    + cbn [deco calculate_followpos]. rewrite decide_False by done.
      change (in_str c_qmark (of_string "*+")) with false. cbv iota.
      rewrite !bind_Ok_l, Hrun1, bind_Ok_l. done.
    + intros i. rewrite Hget1. cbn [re_follow]. done.
Qed.

(** ** Concatenations of words *)

Lemma app_eq_mid {A} (a b x y : list A) p :
  a ++ b = x ++ p :: y →
  (∃ y1, a = x ++ p :: y1 ∧ y = y1 ++ b) ∨
  (∃ x2, x = a ++ x2 ∧ b = x2 ++ p :: y).
Proof.
  revert x. induction a as [|c a IH]; intros x H.
  - right. exists x. done.
  - destruct x as [|c' x]; simpl in H.
    + injection H as -> <-. left. by exists a.
    + injection H as -> H. destruct (IH _ H) as [(y1 & -> & ->)|(x2 & -> & ->)].
      * left. by exists y1.
      * right. by exists x2.
Qed.

Lemma app_eq_pair {A} (a b x y : list A) p q :
  a ++ b = x ++ p :: q :: y →
  (∃ y1, a = x ++ p :: q :: y1 ∧ y = y1 ++ b) ∨
  (a = x ++ [p] ∧ b = q :: y) ∨
  (∃ x2, x = a ++ x2 ∧ b = x2 ++ p :: q :: y).
Proof.
  intros [(y1 & -> & Hy)|(x2 & -> & ->)]%app_eq_mid.
  - destruct y1 as [|q' y1]; simpl in Hy.
    + right. left. by subst.
    + injection Hy as <- ->. left. by exists y1.
  - right. right. by exists x2.
Qed.

Section star.
Context {A : Type} (L : list A → Prop).

Lemma star_of_one u : L u → star_of L u.
Proof. intros H. rewrite <- (app_nil_r u). apply star_app; [done|constructor]. Qed.

Lemma star_of_app a b : star_of L a → star_of L b → star_of L (a ++ b).
Proof.
  induction 1 as [|u v Hu Hv IH]; intros Hb; [done|].
  rewrite <- app_assoc. apply star_app; auto.
Qed.

Lemma star_of_split x p y :
  star_of L (x ++ p :: y) →
  ∃ a x2 y1 b, x = a ++ x2 ∧ y = y1 ++ b ∧
               star_of L a ∧ L (x2 ++ p :: y1) ∧ star_of L b.
Proof.
  intros H. remember (x ++ p :: y) as w eqn:Hw. revert x Hw.
  induction H as [|u v Hu Hv IH]; intros x Hw.
  - by destruct x.
  - apply app_eq_mid in Hw as [(y1 & -> & ->)|(x2 & -> & ->)].
    + exists [], x, y1, v. split_and!; [done..|constructor|done|done].
    + destruct (IH x2 eq_refl) as (a & x3 & y1 & b & -> & -> & Ha & Hm & Hb).
      exists (u ++ a), x3, y1, b. rewrite <- app_assoc.
      split_and!; [done..| |done|done]. by apply star_app.
Qed.

Lemma star_of_head p y :
  star_of L (p :: y) → ∃ y1 b, y = y1 ++ b ∧ L (p :: y1) ∧ star_of L b.
Proof.
  intros H. destruct (star_of_split [] p y H)
    as (a & x2 & y1 & b & Hx & -> & _ & Hm & Hb).
  symmetry in Hx. apply app_eq_nil in Hx as [-> ->]. eauto.
Qed.

Lemma star_of_last x p :
  star_of L (x ++ [p]) → ∃ a x2, x = a ++ x2 ∧ star_of L a ∧ L (x2 ++ [p]).
Proof.
  intros H. destruct (star_of_split x p [] H)
    as (a & x2 & y1 & b & -> & Hy & Ha & Hm & _).
  symmetry in Hy. apply app_eq_nil in Hy as [-> ->]. eauto.
Qed.

Lemma star_of_pair x p q y :
  star_of L (x ++ p :: q :: y) →
  ∃ a x2 y1 b, x = a ++ x2 ∧ y = y1 ++ b ∧ star_of L a ∧ star_of L b ∧
    (L (x2 ++ p :: q :: y1) ∨ (L (x2 ++ [p]) ∧ L (q :: y1))).
Proof.
  intros H. remember (x ++ p :: q :: y) as w eqn:Hw. revert x Hw.
  induction H as [|u v Hu Hv IH]; intros x Hw.
  - by destruct x.
  - apply app_eq_pair in Hw as [(y1 & -> & ->)|[[-> ->]|(x2 & -> & ->)]].
    + exists [], x, y1, v. split_and!; [done..|constructor|done|by left].
    + apply star_of_head in Hv as (y1 & b & -> & Hq & Hb).
      exists [], x, y1, b. split_and!; [done..|constructor|done|by right].
    + destruct (IH x2 eq_refl) as (a & x3 & y1 & b & -> & -> & Ha & Hb & Hm).
      exists (u ++ a), x3, y1, b. rewrite <- app_assoc.
      split_and!; [done..| |done|done]. by apply star_app.
Qed.

Lemma plus_star u :
  u ≠ [] → (∃ a b, u = a ++ b ∧ L a ∧ star_of L b) ↔ star_of L u.
Proof.
  intros Hne. split.
  - intros (a & b & -> & Ha & Hb). by apply star_app.
  - intros H. destruct H as [|a b Ha Hb]; [done|]. by exists a, b.
Qed.
End star.

(** ** The words of positions of an expression *)

Lemma marked_range k r u p :
  marked k r u → p ∈ u → k ≤ p < k + length (syms r).
Proof.
  revert k u. induction r as [|c|r1 IH1 r2 IH2|r1 IH1 r2 IH2|r IH|r IH|r IH];
    intros k u; simpl.
  - by intros -> ?%elem_of_nil.
  - intros -> ->%list_elem_of_singleton. lia.
  - rewrite length_app. intros [H|H] Hp.
    + apply (IH1 _ _ H) in Hp. lia.
    + apply (IH2 _ _ H) in Hp. lia.
  - rewrite length_app. intros (a & b & -> & Ha & Hb) [Hp|Hp]%elem_of_app.
    + apply (IH1 _ _ Ha) in Hp. lia.
    + apply (IH2 _ _ Hb) in Hp. lia.
  - induction 1 as [|a b Ha Hb IHs]; [by intros ?%elem_of_nil|].
    intros [Hp|Hp]%elem_of_app; [by eapply IH|auto].
  - intros (a & b & -> & Ha & Hb) [Hp|Hp]%elem_of_app; [by eapply IH|].
    induction Hb as [|a' b' Ha' Hb' IHs]; [by apply elem_of_nil in Hp|].
    apply elem_of_app in Hp as [Hp|Hp]; [by eapply IH|auto].
  - intros [->|H]; [by intros ?%elem_of_nil|by eapply IH].
Qed.

Lemma marked_inhabited k r : ∃ u, marked k r u.
Proof.
  revert k. induction r as [|c|r1 IH1 r2 IH2|r1 IH1 r2 IH2|r IH|r IH|r IH];
    intros k; simpl.
  - by exists [].
  - by exists [k].
  - destruct (IH1 k) as [u Hu]. exists u. by left.
  - destruct (IH1 k) as [a Ha], (IH2 (k + length (syms r1))) as [b Hb].
    exists (a ++ b), a, b. done.
  - exists []. constructor.
  - destruct (IH k) as [a Ha]. exists (a ++ []), a, []. split_and!; [done..|].
    constructor.
  - exists []. by left.
Qed.

Lemma null_marked k r : re_null r = true ↔ marked k r [].
Proof.
  revert k. induction r as [|c|r1 IH1 r2 IH2|r1 IH1 r2 IH2|r IH|r IH|r IH];
    intros k; simpl.
  - done.
  - done.
  - rewrite orb_true_iff, IH1, IH2. done.
  - rewrite andb_true_iff, (IH1 k), (IH2 (k + length (syms r1))). split.
    + intros [? ?]. by exists [], [].
    + intros (a & b & Hab & Ha & Hb). symmetry in Hab.
      apply app_eq_nil in Hab as [-> ->]. done.
  - split; [constructor|done].
  - rewrite (IH k). split.
    + intros ?. exists [], []. split_and!; [done..|constructor].
    + intros (a & b & Hab & Ha & Hb). symmetry in Hab.
      apply app_eq_nil in Hab as [-> ->]. done.
  - split; [by left|done].
Qed.

Lemma first_marked k r p :
  Some p ∈ re_first k r ↔ ∃ y, marked k r (p :: y).
Proof.
  revert k. induction r as [|c|r1 IH1 r2 IH2|r1 IH1 r2 IH2|r IH|r IH|r IH];
    intros k; cbn [re_first marked].
  - split; [by intros ?%elem_of_empty|by intros [? ?]].
  - rewrite elem_of_singleton. split.
    + intros [= ->]. by exists [].
    + by intros (y & [= -> ->]).
  - rewrite elem_of_union, IH1, IH2. split.
    + intros [[y ?]|[y ?]]; exists y; auto.
    + intros (y & [?|?]); eauto.
  - split.
    + intros Hp.
      assert (Hcase : Some p ∈ re_first k r1 ∨
                (re_null r1 = true ∧ Some p ∈ re_first (k + length (syms r1)) r2)).
      { destruct (re_null r1); [|by left].
        apply elem_of_union in Hp as [?|?]; auto. }
      destruct Hcase as [[y Hy]%IH1|[Hn [y Hy]%IH2]].
      * destruct (marked_inhabited (k + length (syms r1)) r2) as [b Hb].
        exists (y ++ b), (p :: y), b. done.
      * apply (null_marked k) in Hn. exists y, [], (p :: y). done.
    + intros (y & a & b & Hab & Ha & Hb). destruct a as [|p' a].
      * simpl in Hab. subst b. apply null_marked in Ha. rewrite Ha.
        apply elem_of_union_r, IH2. eauto.
      * injection Hab as <- ->.
        assert (Some p ∈ re_first k r1) by (apply IH1; eauto).
        destruct (re_null r1); [by apply elem_of_union_l|done].
  - rewrite IH. split.
    + intros [y Hy]. exists y. by apply star_of_one.
    + intros [y (y1 & b & -> & Hy & _)%star_of_head]. eauto.
  - rewrite IH. split.
    + intros [y Hy]. exists y, (p :: y), []. rewrite app_nil_r.
      split_and!; [done..|constructor].
    + intros (y & a & b & Hab & Ha & Hb). destruct a as [|p' a].
      * simpl in Hab. subst b.
        apply star_of_head in Hb as (y1 & b & -> & Hy & _). eauto.
      * injection Hab as <- ->. eauto.
  - rewrite IH. split.
    + intros [y Hy]. exists y. by right.
    + intros (y & [?|?]); [done|eauto].
Qed.

Lemma last_marked k r p :
  Some p ∈ re_last k r ↔ ∃ x, marked k r (x ++ [p]).
Proof.
  revert k. induction r as [|c|r1 IH1 r2 IH2|r1 IH1 r2 IH2|r IH|r IH|r IH];
    intros k; cbn [re_last marked].
  - split; [by intros ?%elem_of_empty|]. intros [x Hx]. by destruct x.
  - rewrite elem_of_singleton. split.
    + intros [= ->]. by exists [].
    + intros (x & Hx). destruct x as [|? [|? ?]]; simpl in Hx; by simplify_eq.
  - rewrite elem_of_union, IH1, IH2. split.
    + intros [[y ?]|[y ?]]; exists y; auto.
    + intros (y & [?|?]); eauto.
  - split.
    + intros Hp.
      assert (Hcase : Some p ∈ re_last (k + length (syms r1)) r2 ∨
                (re_null r2 = true ∧ Some p ∈ re_last k r1)).
      { destruct (re_null r2); [|by left].
        apply elem_of_union in Hp as [?|?]; auto. }
      destruct Hcase as [[x Hx]%IH2|[Hn [x Hx]%IH1]].
      * destruct (marked_inhabited k r1) as [a Ha].
        exists (a ++ x), a, (x ++ [p]). by rewrite <- app_assoc.
      * apply (null_marked (k + length (syms r1))) in Hn.
        exists x, (x ++ [p]), []. by rewrite app_nil_r.
    + intros (x & a & b & Hab & Ha & Hb).
      destruct (decide (b = [])) as [->|Hne].
      * rewrite app_nil_r in Hab. subst a. apply null_marked in Hb. rewrite Hb.
        apply elem_of_union_l, IH1. eauto.
      * assert (∃ b', b = b' ++ [p]) as [b' ->].
        { destruct (exists_last Hne) as (b' & p' & ->).
          rewrite app_assoc in Hab. apply app_inj_tail in Hab as [_ ->]. eauto. }
        assert (Some p ∈ re_last (k + length (syms r1)) r2)
          by (apply IH2; eauto).
        destruct (re_null r2); [by apply elem_of_union_r|done].
  - rewrite IH. split.
    + intros [y Hy]. exists y. by apply star_of_one.
    + intros [x (a & x2 & -> & _ & Hx)%star_of_last]. eauto.
  - rewrite IH. split.
    + intros [x Hx]. exists x, (x ++ [p]), []. rewrite app_nil_r.
      split_and!; [done..|constructor].
    + intros (x & a & b & Hab & Ha & Hb).
      assert (Hs : star_of (marked k r) (x ++ [p])).
      { rewrite Hab. by apply star_app. }
      apply star_of_last in Hs as (a' & x2 & -> & _ & Hx). eauto.
  - rewrite IH. split.
    + intros [y Hy]. exists y. by right.
    + intros (y & [?|?]); [by destruct y|eauto].
Qed.

Lemma mid_not_nil {A} (x y : list A) p : x ++ p :: y ≠ [].
Proof. by destruct x. Qed.

Lemma follow_marked k r p q :
  Some q ∈ re_follow k r (Some p) ↔ ∃ x y, marked k r (x ++ p :: q :: y).
Proof.
  revert k. induction r as [|c|r1 IH1 r2 IH2|r1 IH1 r2 IH2|r IH|r IH|r IH];
    intros k; cbn [re_follow marked].
  - split; [by intros ?%elem_of_empty|]. intros (x & y & H). by destruct x.
  - split; [by intros ?%elem_of_empty|]. intros (x & y & H).
    destruct x as [|? [|? ?]]; by simplify_eq.
  - rewrite elem_of_union, IH1, IH2. split.
    + intros [(x & y & ?)|(x & y & ?)]; exists x, y; auto.
    + intros (x & y & [?|?]); eauto.
  - rewrite !elem_of_union, IH1, IH2. split.
    + intros [[Hc|(x & y & H)]|(x & y & H)].
      * destruct (decide (Some p ∈ re_last k r1)) as [Hp|]; [|set_solver].
        apply last_marked in Hp as [x Hx]. apply first_marked in Hc as [y Hy].
        exists x, y, (x ++ [p]), (q :: y). by rewrite <- app_assoc.
      * destruct (marked_inhabited (k + length (syms r1)) r2) as [b Hb].
        exists x, (y ++ b), (x ++ p :: q :: y), b.
        by rewrite <- app_assoc.
      * destruct (marked_inhabited k r1) as [a Ha].
        exists (a ++ x), y, a, (x ++ p :: q :: y). by rewrite <- app_assoc.
    + intros (x & y & a & b & Hab & Ha & Hb). symmetry in Hab.
      apply app_eq_pair in Hab as [(y1 & -> & ->)|[[-> ->]|(x2 & -> & ->)]].
      * left. right. eauto.
      * left. left. rewrite decide_True by (apply last_marked; eauto).
        apply first_marked. eauto.
      * right. eauto.
  - rewrite elem_of_union, IH. split.
    + intros [Hc|(x & y & H)].
      * destruct (decide (Some p ∈ re_last k r)) as [Hp|]; [|set_solver].
        apply last_marked in Hp as [x Hx]. apply first_marked in Hc as [y Hy].
        exists x, y. replace (x ++ p :: q :: y) with ((x ++ [p]) ++ q :: y)
          by (by rewrite <- app_assoc).
        apply star_app; [done|]. by apply star_of_one.
      * exists x, y. by apply star_of_one.
    + intros (x & y & (a & x2 & y1 & b & -> & -> & _ & _ & Hm)%star_of_pair).
      destruct Hm as [Hm|[Hp Hq]].
      * right. eauto.
      * left. rewrite decide_True by (apply last_marked; eauto).
        apply first_marked. eauto.
  - rewrite elem_of_union, IH. split.
    + intros [Hc|(x & y & H)].
      * destruct (decide (Some p ∈ re_last k r)) as [Hp|]; [|set_solver].
        apply last_marked in Hp as [x Hx]. apply first_marked in Hc as [y Hy].
        exists x, y, (x ++ [p]), (q :: y). rewrite <- app_assoc.
        split_and!; [done..|]. by apply star_of_one.
      * exists x, y, (x ++ p :: q :: y), []. rewrite app_nil_r.
        split_and!; [done..|]. constructor.
    + intros (x & y & H). apply plus_star in H; [|apply mid_not_nil].
      apply star_of_pair in H
        as (a & x2 & y1 & b & -> & -> & _ & _ & [Hm|[Hp Hq]]).
      * right. eauto.
      * left. rewrite decide_True by (apply last_marked; eauto).
        apply first_marked. eauto.
  - rewrite IH. split.
    + intros (x & y & H). exists x, y. by right.
    + intros (x & y & [H|H]); [by destruct x|eauto].
Qed.

(** Two words through the same position can be joined at it. *)
Lemma marked_splice k r x p y x' y' :
  marked k r (x ++ p :: y) → marked k r (x' ++ p :: y') →
  marked k r (x ++ p :: y').
Proof.
  revert k x y x' y'.
  induction r as [|c|r1 IH1 r2 IH2|r1 IH1 r2 IH2|r IH|r IH|r IH];
    intros k x y x' y'; cbn [marked].
  - intros H. by destruct x.
  - intros H1 H2. destruct x as [|? [|? ?]], x' as [|? [|? ?]]; by simplify_eq.
  - intros [H1|H1] [H2|H2].
    + left. by eapply IH1.
    + pose proof (marked_range _ _ _ p H1) as R1.
      pose proof (marked_range _ _ _ p H2) as R2.
      rewrite !elem_of_app, !elem_of_cons in R1, R2. lia.
    + pose proof (marked_range _ _ _ p H1) as R1.
      pose proof (marked_range _ _ _ p H2) as R2.
      rewrite !elem_of_app, !elem_of_cons in R1, R2. lia.
    + right. by eapply IH2.
  - intros (a & b & Hab & Ha & Hb) (a' & b' & Hab' & Ha' & Hb').
    symmetry in Hab, Hab'.
    apply app_eq_mid in Hab as [(y1 & -> & ->)|(x2 & -> & ->)];
      apply app_eq_mid in Hab' as [(y1' & -> & ->)|(x2' & -> & ->)].
    + exists (x ++ p :: y1'), b'. rewrite <- app_assoc.
      split_and!; [done| |done]. by eapply IH1.
    + pose proof (marked_range _ _ _ p Ha) as R1.
      pose proof (marked_range _ _ _ p Hb') as R2.
      rewrite !elem_of_app, !elem_of_cons in R1, R2. lia.
    + pose proof (marked_range _ _ _ p Hb) as R1.
      pose proof (marked_range _ _ _ p Ha') as R2.
      rewrite !elem_of_app, !elem_of_cons in R1, R2. lia.
    + exists a, (x2 ++ p :: y'). rewrite <- app_assoc.
      split_and!; [done..|]. by eapply IH2.
  - intros (a & x2 & y1 & b & -> & -> & Ha & Hm & Hb)%star_of_split
           (a' & x2' & y1' & b' & -> & -> & Ha' & Hm' & Hb')%star_of_split.
    replace ((a ++ x2) ++ p :: y1' ++ b')
      with (a ++ (x2 ++ p :: y1') ++ b')
      by (by rewrite <- !app_assoc).
    apply star_of_app; [done|]. apply star_app; [|done]. by eapply IH.
  - intros H1 H2. apply plus_star; [apply mid_not_nil|].
    apply plus_star in H1; [|apply mid_not_nil].
    apply plus_star in H2; [|apply mid_not_nil].
    revert H1 H2.
    intros (a & x2 & y1 & b & -> & -> & Ha & Hm & Hb)%star_of_split
           (a' & x2' & y1' & b' & -> & -> & Ha' & Hm' & Hb')%star_of_split.
    replace ((a ++ x2) ++ p :: y1' ++ b')
      with (a ++ (x2 ++ p :: y1') ++ b')
      by (by rewrite <- !app_assoc).
    apply star_of_app; [done|]. apply star_app; [|done]. by eapply IH.
  - intros [H1|H1] [H2|H2]; [by destruct x|by destruct x|by destruct x'|].
    right. by eapply IH.
Qed.

(** ** Strings matched and words of positions *)

Lemma labelled_children table k r1 r2 :
  (labelled table k (Alt r1 r2) →
   labelled table k r1 ∧ labelled table (k + length (syms r1)) r2) ∧
  (labelled table k (Cat r1 r2) →
   labelled table k r1 ∧ labelled table (k + length (syms r1)) r2).
Proof.
  assert (H : ∀ s1 s2 : list N,
    (∀ i c, (s1 ++ s2) !! i = Some c → dict_get table (k + i) = Some c) →
    (∀ i c, s1 !! i = Some c → dict_get table (k + i) = Some c) ∧
    (∀ i c, s2 !! i = Some c → dict_get table (k + length s1 + i) = Some c)).
  { intros s1 s2 H. split; intros i c Hi.
    - apply H. by apply lookup_app_l_Some.
    - rewrite <- Nat.add_assoc. apply H.
      rewrite lookup_app_r by lia. by replace (length s1 + i - length s1) with i by lia. }
  split; intros Hl; apply (H (syms r1) (syms r2)); exact Hl.
Qed.

Lemma spells_app table u1 u2 w1 w2 :
  spells table u1 w1 → spells table u2 w2 → spells table (u1 ++ u2) (w1 ++ w2).
Proof. apply Forall2_app. Qed.

Lemma spells_app_inv_l table u1 u2 w :
  spells table (u1 ++ u2) w →
  ∃ w1 w2, w = w1 ++ w2 ∧ spells table u1 w1 ∧ spells table u2 w2.
Proof.
  intros (w1 & w2 & ? & ? & ->)%Forall2_app_inv_l. by exists w1, w2.
Qed.

Lemma star_lift (L : list N → Prop) (M : list nat → Prop) table :
  (∀ w, L w ↔ ∃ u, M u ∧ spells table u w) →
  ∀ w, star_of L w ↔ ∃ u, star_of M u ∧ spells table u w.
Proof.
  intros HLM w. split.
  - induction 1 as [|w1 w2 H1 H2 (u2 & Hu2 & Hs2)].
    + exists []. split; constructor.
    + apply HLM in H1 as (u1 & Hu1 & Hs1).
      exists (u1 ++ u2). split; [by apply star_app|by apply spells_app].
  - intros (u & Hu & Hs). revert w Hs.
    induction Hu as [|u1 u2 H1 H2 IHs]; intros w Hs.
    + apply Forall2_nil_inv_l in Hs as ->. constructor.
    + apply spells_app_inv_l in Hs as (w1 & w2 & -> & Hs1 & Hs2).
      apply star_app; [|by apply IHs]. apply HLM. eauto.
Qed.

Lemma matches_marked table k r w :
  labelled table k r →
  matches r w ↔ ∃ u, marked k r u ∧ spells table u w.
Proof.
  revert k w. induction r as [|c|r1 IH1 r2 IH2|r1 IH1 r2 IH2|r IH|r IH|r IH];
    intros k w Hl; cbn [matches marked].
  - split.
    + intros ->. exists []. split; [done|constructor].
    + intros (u & -> & Hs). by apply Forall2_nil_inv_l in Hs.
  - assert (Hk : dict_get table k = Some c).
    { rewrite <- (Nat.add_0_r k). by apply Hl. }
    split.
    + intros ->. exists [k]. split; [done|].
      constructor; [done|constructor].
    + intros (u & -> & Hs). apply Forall2_cons_inv_l in Hs
        as (c' & w' & Hc & Hw & ->).
      apply Forall2_nil_inv_l in Hw as ->. congruence.
  - destruct (proj1 (labelled_children _ _ _ _) Hl) as [Hl1 Hl2].
    rewrite (IH1 k w Hl1), (IH2 _ w Hl2). split.
    + intros [(u & ? & ?)|(u & ? & ?)]; exists u; auto.
    + intros (u & [?|?] & ?); eauto.
  - destruct (proj2 (labelled_children _ _ _ _) Hl) as [Hl1 Hl2]. split.
    + intros (w1 & w2 & -> & (a & Ha & Hsa)%(IH1 k _ Hl1)
                             & (b & Hb & Hsb)%(IH2 _ _ Hl2)).
      exists (a ++ b). split; [by exists a, b|by apply spells_app].
    + intros (u & (a & b & -> & Ha & Hb)
                & (w1 & w2 & -> & Hsa & Hsb)%spells_app_inv_l).
      exists w1, w2. split; [done|]. split.
      * apply (IH1 k _ Hl1). eauto.
      * apply (IH2 _ _ Hl2). eauto.
  - apply star_lift. intros w'. by apply IH.
  - pose proof (star_lift _ _ table (λ w', IH k w' Hl)) as Hstar. split.
    + intros (w1 & w2 & -> & (a & Ha & Hsa)%(IH k _ Hl)
                             & (b & Hb & Hsb)%Hstar).
      exists (a ++ b). split; [by exists a, b|by apply spells_app].
    + intros (u & (a & b & -> & Ha & Hb)
                & (w1 & w2 & -> & Hsa & Hsb)%spells_app_inv_l).
      exists w1, w2. split; [done|]. split.
      * apply (IH k _ Hl). eauto.
      * apply Hstar. eauto.
  - rewrite (IH k w Hl). split.
    + intros [->|(u & ? & ?)].
      * exists []. split; [by left|constructor].
      * exists u. split; [by right|done].
    + intros (u & [->|?] & Hs).
      * apply Forall2_nil_inv_l in Hs as ->. by left.
      * right. eauto.
Qed.

Lemma matches_syms r w : matches r w → Forall (λ c, c ∈ syms r) w.
Proof.
  revert w. induction r as [|c|r1 IH1 r2 IH2|r1 IH1 r2 IH2|r IH|r IH|r IH];
    intros w; cbn [matches syms].
  - by intros ->.
  - intros ->. constructor; [apply list_elem_of_here|constructor].
  - intros [H|H]; [apply IH1 in H|apply IH2 in H];
      (eapply Forall_impl; [exact H|]); intros c ?; apply elem_of_app; auto.
  - intros (u & v & -> & Hu%IH1 & Hv%IH2). apply Forall_app. split.
    + eapply Forall_impl; [exact Hu|]. intros c ?. apply elem_of_app. auto.
    + eapply Forall_impl; [exact Hv|]. intros c ?. apply elem_of_app. auto.
  - induction 1 as [|u v Hu Hv IHs]; [constructor|].
    apply Forall_app. auto.
  - intros (u & v & -> & Hu%IH & Hv). apply Forall_app. split; [done|].
    induction Hv as [|u' v' Hu' Hv' IHs]; [constructor|].
    apply Forall_app. auto.
  - intros [->|?]; [constructor|auto].
Qed.

(** ** The table and the end marker of a built tree *)

Lemma bare_not_None k r : bare k r ≠ PyNone.
Proof. by destruct r. Qed.

Lemma leaves_bare k r :
  table_of (leaves (bare k r)) = zip (seq k (length (syms r))) (syms r).
Proof.
  revert k. induction r as [|c|r1 IH1 r2 IH2|r1 IH1 r2 IH2|r IH|r IH|r IH];
    intros k; cbn [bare syms].
  - done.
  - done.
  - rewrite leaves_binary by apply bare_not_None.
    rewrite table_of_app, IH1, IH2, length_app, seq_app.
    by rewrite zip_with_app by by rewrite length_seq.
  - rewrite leaves_binary by apply bare_not_None.
    rewrite table_of_app, IH1, IH2, length_app, seq_app.
    by rewrite zip_with_app by by rewrite length_seq.
  - rewrite leaves_unary by apply bare_not_None. apply IH.
  - rewrite leaves_unary by apply bare_not_None. apply IH.
  - rewrite leaves_unary by apply bare_not_None. apply IH.
Qed.

Lemma dict_get_zip_seq (s : list N) k i :
  dict_get (zip (seq k (length s)) s) (k + i) = s !! i.
Proof.
  revert k i. induction s as [|c s IH]; intros k i; [done|]. simpl.
  destruct i as [|i].
  - by rewrite Nat.add_0_r, decide_True.
  - rewrite decide_False by lia.
    replace (k + S i) with (S k + i) by lia. apply IH.
Qed.

Lemma labelled_zip k r : labelled (zip (seq k (length (syms r))) (syms r)) k r.
Proof. intros i c Hi. by rewrite dict_get_zip_seq. Qed.

Lemma find_end_pos_zip (s : list N) k :
  c_hash ∉ s →
  find_end_pos (zip (seq k (length (s ++ [c_hash]))) (s ++ [c_hash]))
  = Some (k + length s).
Proof.
  revert k. induction s as [|c s IH]; intros k Hs.
  - simpl. by rewrite Nat.add_0_r.
  - apply not_elem_of_cons in Hs as [Hc Hs]. simpl.
    rewrite decide_False by done.
    rewrite (IH (S k)) by done. f_equal. lia.
Qed.

(** ** The runs of the constructed automaton *)

Lemma construct_states_table self fuel st :
  construct_states fuel self = Ok st →
  ∃ initial_state end_pos,
    get_firstpos (syntax_tree self) = Ok initial_state ∧
    find_end_pos (pos_to_symbol self) = Some end_pos ∧
    dict_get (c_states st) initial_state = Some 0 ∧
    (∀ S q, dict_get (c_states st) S = Some q →
            (q ∈ c_final st ↔ Some end_pos ∈ S)) ∧
    (∀ S q s, dict_get (c_states st) S = Some q → s ∈ alphabet self →
       if decide (move self S s = ∅)
       then dict_get (c_transitions st) (q, s) = None
       else ∃ q', dict_get (c_states st) (move self S s) = Some q' ∧
                  dict_get (c_transitions st) (q, s) = Some q').
Proof.
  intros (I & e & popped & HI & He & Hinv & Hun)%construct_states_cinv.
  exists I, e. split; [done|]. split; [done|]. split; [apply Hinv|].
  assert (Hinj : ∀ S S' q, dict_get (c_states st) S = Some q →
                           dict_get (c_states st) S' = Some q → S = S')
    by (intros S S' q; by eapply cinv_id_inj).
  assert (Hnone : ∀ S, S ∉ c_unmarked st)
    by (intros S; rewrite Hun; apply not_elem_of_nil).
  split.
  - intros S q HS. rewrite (ci_final _ _ _ _ _ _ _ Hinv). split.
    + intros (S' & HS' & _ & He'). by rewrite (Hinj _ _ _ HS HS').
    + intros He'. by exists S.
  - intros S q s HS Hs.
    assert (Hready : ready self I (alphabet self) st S s) by done.
    destruct (decide (move self S s = ∅)) as [Hm|Hm].
    + destruct (dict_get (c_transitions st) (q, s)) as [q'|] eqn:Hq; [|done].
      apply (ci_trans _ _ _ _ _ _ _ Hinv) in Hq as (S' & HS' & _ & Hm' & _).
      by rewrite (Hinj _ _ _ HS' HS) in Hm'.
    + by eapply (ci_expanded _ _ _ _ _ _ _ Hinv).
Qed.

Lemma move_empty self s : move self ∅ s = ∅.
Proof.
  apply set_eq. intros x. rewrite elem_of_move. split.
  - intros (p & ?%elem_of_empty & _). done.
  - by intros ?%elem_of_empty.
Qed.

Lemma after_empty self w : after self ∅ w = ∅.
Proof.
  unfold after. induction w as [|c w IH]; [done|]. simpl.
  by rewrite move_empty.
Qed.

Lemma outcome_after self fuel st end_pos w S q :
  construct_states fuel self = Ok st →
  find_end_pos (pos_to_symbol self) = Some end_pos →
  dict_get (c_states st) S = Some q →
  outcome (alphabet self)
    (Automaton (length (c_states st)) 0 (c_final st) (c_transitions st)) q w
    = Some true ↔
  Forall (λ c, c ∈ alphabet self) w ∧ Some end_pos ∈ after self S w.
Proof.
  intros (I & e & _ & He & _ & Hfin & Htr)%construct_states_table He'.
  assert (e = end_pos) as -> by congruence. clear He He'.
  revert S q. induction w as [|c w IH]; intros S q HS.
  - unfold outcome. simpl. rewrite <- (Hfin S q HS). split.
    + intros [= H%bool_decide_eq_true]. split; [constructor|done].
    + intros [_ H]. by rewrite bool_decide_eq_true_2.
  - rewrite outcome_cons. cbn [transitions]. unfold after. cbn [foldl].
    fold (after self (move self S c) w).
    destruct (in_str c (alphabet self)) eqn:Hc.
    2:{ apply in_str_false in Hc. split; [done|].
        intros [[? _]%Forall_cons _]. done. }
    apply in_str_true in Hc. specialize (Htr S q c HS Hc).
    destruct (decide (move self S c = ∅)) as [Hm|Hm].
    + rewrite Htr, Hm, after_empty. split; [done|].
      intros [_ ?%elem_of_empty]. done.
    + destruct Htr as (q' & Hq' & ->). rewrite (IH _ _ Hq').
      rewrite Forall_cons. tauto.
Qed.

(** ** The states of the automaton as sets of positions *)

Section positions.
Context (self : RegexToDFA) (R : re).
Hypothesis Hfollow : ∀ i, fp_get (followpos self) i = re_follow 1 R i.

Lemma move_marked v S c :
  (∀ p, Some p ∈ S ↔
        ∃ x y, marked 1 R (x ++ p :: y) ∧ spells (pos_to_symbol self) x v) →
  ∀ q, Some q ∈ move self S c ↔
       ∃ x y, marked 1 R (x ++ q :: y) ∧
              spells (pos_to_symbol self) x (v ++ [c]).
Proof using Hfollow.
  intros HS q. rewrite elem_of_move. split.
  - intros ([p|] & Hp & Hsym & Hq); [|done]. simpl in Hsym.
    apply HS in Hp as (x & y & Hm & Hs).
    rewrite Hfollow in Hq. apply follow_marked in Hq as (x' & y' & Hm').
    exists (x ++ [p]), y'. split.
    + rewrite <- app_assoc. by eapply marked_splice.
    + apply spells_app; [done|]. constructor; [done|constructor].
  - intros (x' & y & Hm & Hs).
    apply Forall2_app_inv_r in Hs as (x & t & Hx & Ht & ->).
    apply Forall2_cons_inv_r in Ht as (p & t' & Hp & Ht' & ->).
    apply Forall2_nil_inv_r in Ht' as ->.
    rewrite <- app_assoc in Hm. cbn [app] in Hm.
    exists (Some p). split; [|split; [done|]].
    + apply HS. eauto.
    + rewrite Hfollow. apply follow_marked. eauto.
Qed.

Lemma after_marked w v S :
  (∀ p, Some p ∈ S ↔
        ∃ x y, marked 1 R (x ++ p :: y) ∧ spells (pos_to_symbol self) x v) →
  ∀ p, Some p ∈ after self S w ↔
       ∃ x y, marked 1 R (x ++ p :: y) ∧
              spells (pos_to_symbol self) x (v ++ w).
Proof using Hfollow.
  revert v S. induction w as [|c w IH]; intros v S HS p.
  - by rewrite app_nil_r.
  - unfold after. cbn [foldl]. fold (after self (move self S c) w).
    rewrite (IH (v ++ [c]) (move self S c)).
    + by rewrite <- app_assoc.
    + by apply move_marked.
Qed.

Lemma after_first w p :
  Some p ∈ after self (re_first 1 R) w ↔
  ∃ x y, marked 1 R (x ++ p :: y) ∧ spells (pos_to_symbol self) x w.
Proof using Hfollow.
  apply (after_marked w []). intros p'. rewrite first_marked. split.
  - intros [y Hy]. exists [], y. split; [done|constructor].
  - intros (x & y & Hm & ->%Forall2_nil_inv_r). eauto.
Qed.
End positions.

(** ** The automaton of a written expression accepts what it matches *)

Lemma written_syms l s r :
  written l s r → Forall (λ c, symbol c ∧ c ∈ s) (syms r).
Proof.
  induction 1 as [|c Hc|s r _ IH|s r _ IH|s r _ IH|s r _ IH
                 |s1 r1 s2 r2 _ IH1 _ IH2|s1 r1 s2 r2 _ IH1 _ IH2|l s r _ IH];
    cbn [syms]; try done.
  - constructor; [|done]. split; [done|apply list_elem_of_here].
  - eapply Forall_impl; [exact IH|]. intros c [? ?]. split; [done|].
    rewrite !elem_of_app. auto.
  - eapply Forall_impl; [exact IH|]. intros c [? ?]. split; [done|].
    rewrite !elem_of_app. auto.
  - eapply Forall_impl; [exact IH|]. intros c [? ?]. split; [done|].
    rewrite !elem_of_app. auto.
  - eapply Forall_impl; [exact IH|]. intros c [? ?]. split; [done|].
    rewrite !elem_of_app. auto.
  - apply Forall_app. split.
    + eapply Forall_impl; [exact IH1|]. intros c [? ?]. split; [done|].
      rewrite !elem_of_app. auto.
    + eapply Forall_impl; [exact IH2|]. intros c [? ?]. split; [done|].
      rewrite !elem_of_app. auto.
  - apply Forall_app. split.
    + eapply Forall_impl; [exact IH1|]. intros c [? ?]. split; [done|].
      rewrite !elem_of_app. auto.
    + eapply Forall_impl; [exact IH2|]. intros c [? ?]. split; [done|].
      rewrite !elem_of_app. auto.
Qed.

Lemma symbol_alphabet s c : symbol c → c ∈ s → c ∈ alphabet_chars s.
Proof.
  intros Hc Hs. unfold alphabet_chars. apply list_elem_of_filter.
  split; [|done]. apply in_str_false.
  change (of_string "()*|+?" ++ [c_dot; c_hash])
    with [c_lparen; c_rparen; c_star; c_bar; c_plus; c_qmark; c_dot; c_hash].
  unfold symbol in Hc. rewrite !not_elem_of_cons in Hc.
  rewrite !not_elem_of_cons. tauto.
Qed.

Lemma written_fits l s r order :
  written l s r → set_order (alphabet_chars s) order →
  fits order (Cat r (Sym c_hash)) ∧
  Forall (λ c, c ∈ order) (syms r) ∧ c_hash ∉ syms r.
Proof.
  intros Hs [_ Horder]. pose proof (written_syms _ _ _ Hs) as Hsyms.
  assert (Hin : Forall (λ c, c ∈ order) (syms r)).
  { eapply Forall_impl; [exact Hsyms|]. intros c [? ?].
    by apply Horder, symbol_alphabet. }
  split_and!; [split| |].
  - intros c Hop Hc%Horder%alphabet_chars_not_meta.
    rewrite !not_elem_of_cons in Hc. rewrite !elem_of_cons, elem_of_nil in Hop.
    destruct Hc as (? & ? & ? & ? & ? & ? & ? & ? & _).
    destruct Hop as [?|[?|[?|[?|[?|[]]]]]]; done.
  - cbn [syms]. apply Forall_app. split.
    + rewrite Forall_forall in Hsyms, Hin. apply Forall_forall. intros c Hc.
      split; [left; auto|]. destruct (Hsyms c Hc) as [Hsym _].
      unfold symbol in Hsym. rewrite !not_elem_of_cons in Hsym. tauto.
    + constructor; [|done]. split; [by right|done].
  - done.
  - intros Hh. rewrite Forall_forall in Hsyms.
    destruct (Hsyms _ Hh) as [Hsym _].
    unfold symbol in Hsym. rewrite !not_elem_of_cons in Hsym. tauto.
Qed.

Lemma marked_end k r x y :
  marked k (Cat r (Sym c_hash)) (x ++ (k + length (syms r)) :: y) ↔
  marked k r x ∧ y = [].
Proof.
  cbn [marked]. split.
  - intros (a & b & Hab & Ha & ->). symmetry in Hab.
    apply app_eq_mid in Hab as [(y1 & -> & _)|(x2 & -> & Hx2)].
    + pose proof (marked_range _ _ _ (k + length (syms r)) Ha) as Hr.
      rewrite elem_of_app, elem_of_cons in Hr. lia.
    + destruct x2 as [|? [|? ?]]; simpl in Hx2; simplify_eq.
      by rewrite app_nil_r.
  - intros [Hx ->]. by exists x, [k + length (syms r)].
Qed.

Lemma accepts_matches self r w :
  pos_to_symbol self
    = zip (seq 1 (length (syms (Cat r (Sym c_hash))))) (syms (Cat r (Sym c_hash))) →
  (∀ i, fp_get (followpos self) i = re_follow 1 (Cat r (Sym c_hash)) i) →
  Some (1 + length (syms r))
    ∈ after self (re_first 1 (Cat r (Sym c_hash))) w ↔
  matches r w.
Proof.
  intros Htable Hfollow.
  rewrite (after_first self (Cat r (Sym c_hash)) Hfollow).
  assert (Hl : labelled (pos_to_symbol self) 1 r).
  { rewrite Htable.
    apply (proj2 (labelled_children _ 1 r (Sym c_hash))), labelled_zip. }
  rewrite (matches_marked _ 1 r w Hl). split.
  - intros (x & y & [Hx ->]%marked_end & Hs). eauto.
  - intros (u & Hu & Hs). exists u, []. split; [|done]. by apply marked_end.
Qed.

Lemma parse_written s r order :
  written 1 s r → set_order (alphabet_chars s) order →
  ∃ built fp,
    parse_regex (init s order)
      = Ok (with_tree built (deco 1 (Cat r (Sym c_hash))) fp) ∧
    for_each build_step ([], init s order) (post (Cat r (Sym c_hash)))
      = Ok ([bare 1 (Cat r (Sym c_hash))], built) ∧
    alphabet built = order ∧
    (∀ i, fp_get fp i = fp_get (followpos built) i
                        ∪ re_follow 1 (Cat r (Sym c_hash)) i).
Proof.
  intros Hs Horder. destruct (written_fits _ _ _ _ Hs Horder) as (Hfit & _ & _).
  destruct (build_post (Cat r (Sym c_hash)) [] (init s order))
    as (built & Hbuild & _); [by eapply fits_leafy|].
  change (next_pos (init s order)) with 1 in Hbuild.
  pose proof (build_loop_alphabet _ _ _ Hbuild) as Hal. simpl in Hal.
  destruct (calculate_followpos_deco 1 (Cat r (Sym c_hash)) (followpos built))
    as (fp & Hfp & Hget); [by eapply fits_leafy|].
  exists built, fp. split_and!; [|done..].
  unfold parse_regex. rewrite (augmented_postfix _ _ _ Hs), bind_Ok_l.
  unfold build_syntax_tree. rewrite Hbuild, !bind_Ok_l. rewrite Hal.
  rewrite (calculate_tree_properties_bare _ _ _ Hfit), bind_Ok_l.
  by rewrite Hfp.
Qed.

(** X12: for every regular expression written in the usual syntax --
    symbols, the empty-string marker, parentheses, [|], juxtaposition,
    and the postfix [*], [+], [?], with the usual precedences -- when
    [process] returns, [simulate_dfa] accepts exactly the strings that the
    expression matches, on the minimized automaton and on the one it was
    computed from. *)
Theorem process_recognizes (regex : list N) (r : re) (order : list N)
    (fuel : nat) (final : RegexToDFA) :
  written 1 regex r → set_order (alphabet_chars regex) order →
  process fuel (init regex order) = Ok final →
  ∀ w minimized, simulate_dfa final w minimized = Ok true ↔ matches r w.
Proof.
  intros Hs Horder Hrun w minimized.
  destruct (written_fits _ _ _ _ Hs Horder) as (Hfit & Hin & Hhash).
  destruct (parse_written _ _ _ Hs Horder) as (built0 & fp0 & Hparse & Hb0 & _).
  apply process_stages in Hrun
    as (postfix & root & built & tree & fp & st & d & m &
        Hpost & Hbuild & Htree & Hfp & Hst & Hd & Hm & Hal & ->).
  rewrite (augmented_postfix _ _ _ Hs) in Hpost.
  assert (postfix = post (Cat r (Sym c_hash))) as -> by congruence.
  rewrite Hb0 in Hbuild.
  assert (root = bare 1 (Cat r (Sym c_hash)) ∧ built = built0) as [-> ->]
    by (split; congruence).
  rewrite (calculate_tree_properties_bare _ _ _ Hfit) in Htree.
  assert (tree = deco 1 (Cat r (Sym c_hash))) as -> by congruence.
  destruct (calculate_followpos_deco 1 (Cat r (Sym c_hash)) ∅)
    as (fp' & Hfp' & Hget); [by eapply fits_leafy|].
  assert (fp' = fp) as -> by congruence.
  pose proof (build_loop_inv [] _ _ _ (build_inv_init regex order) Hb0)
    as (_ & Hleaves & Htable & _).
  cbn [fst snd app] in Hleaves, Htable.
  unfold stack_leaves in Hleaves. cbn [reverse fmap concat] in Hleaves.
  assert (Htbl : pos_to_symbol built0
                 = zip (seq 1 (length (syms (Cat r (Sym c_hash)))))
                       (syms (Cat r (Sym c_hash)))).
  { rewrite Htable, <- Hleaves.
    change (concat (leaves <$> reverse [bare 1 (Cat r (Sym c_hash))]))
      with (leaves (bare 1 (Cat r (Sym c_hash))) ++ []).
    rewrite app_nil_r. apply leaves_bare. }
  set (self := with_tree built0 (deco 1 (Cat r (Sym c_hash))) fp) in *.
  assert (Hwf : wf_dfa d) by (subst d; by eapply construct_states_wf).
  assert (Hsim : simulate_dfa
                   (with_minimized (with_dfa self d) m) w minimized
                 = Ok (simulate order d w)).
  { unfold simulate_dfa, chosen_dfa. cbn. rewrite Hal.
    destruct minimized; cbn; [|done].
    by rewrite (minimize_preserves _ _ _ _ Hwf Hm). }
  rewrite Hsim.
  assert (Hend : find_end_pos (pos_to_symbol self) = Some (1 + length (syms r))).
  { cbn [self pos_to_symbol with_tree]. rewrite Htbl. cbn [syms].
    by apply find_end_pos_zip. }
  destruct (construct_states_table _ _ _ Hst)
    as (I & e & HI & _ & HI0 & _). cbn in HI. injection HI as <-.
  assert (Hout : simulate order d w = true ↔
                 Forall (λ c, c ∈ order) w ∧
                 Some (1 + length (syms r))
                   ∈ after self (re_first 1 (Cat r (Sym c_hash))) w).
  { pose proof (outcome_after self fuel st _ w _ 0 Hst Hend HI0) as Hout.
    change (alphabet self) with (alphabet built0) in Hout.
    rewrite Hal in Hout. rewrite simulate_outcome. by subst d. }
  assert (Hacc : Some (1 + length (syms r))
                   ∈ after self (re_first 1 (Cat r (Sym c_hash))) w ↔
                 matches r w).
  { apply accepts_matches; [done|]. intros i. cbn. rewrite Hget.
    unfold fp_get at 1. rewrite lookup_empty. simpl. set_solver. }
  split.
  - intros [= Ht]. apply Hacc, Hout, Ht.
  - intros Hmatch. f_equal. apply Hout. split; [|by apply Hacc].
    apply matches_syms in Hmatch. rewrite Forall_forall in Hmatch, Hin.
    apply Forall_forall. auto.
Qed.

(** ** What the parser computes for a written expression *)

Lemma build_loop_followpos st l st' :
  for_each build_step st l = Ok st' → followpos st'.2 = followpos st.2.
Proof.
  revert st. induction l as [|c l IH]; intros st H.
  - simpl in H. by simplify_eq.
  - rewrite for_each_cons in H. inv_bind H. rewrite (IH _ H).
    destruct st as [stack self]. unfold build_step in H0.
    repeat case_match; by simplify_eq.
Qed.

Lemma re_first_positions k r : None ∉ re_first k r.
Proof.
  revert k. induction r as [|c|r1 IH1 r2 IH2|r1 IH1 r2 IH2|r IH|r IH|r IH];
    intros k; cbn [re_first]; auto.
  - apply not_elem_of_empty.
  - by intros ?%elem_of_singleton.
  - rewrite not_elem_of_union. auto.
  - destruct (re_null r1); [rewrite not_elem_of_union|]; auto.
Qed.

Lemma re_last_positions k r : None ∉ re_last k r.
Proof.
  revert k. induction r as [|c|r1 IH1 r2 IH2|r1 IH1 r2 IH2|r IH|r IH|r IH];
    intros k; cbn [re_last]; auto.
  - apply not_elem_of_empty.
  - by intros ?%elem_of_singleton.
  - rewrite not_elem_of_union. auto.
  - destruct (re_null r2); [rewrite not_elem_of_union|]; auto.
Qed.

Lemma re_follow_positions k r i : None ∉ re_follow k r i.
Proof.
  revert k. induction r as [|c|r1 IH1 r2 IH2|r1 IH1 r2 IH2|r IH|r IH|r IH];
    intros k; cbn [re_follow]; auto.
  - apply not_elem_of_empty.
  - apply not_elem_of_empty.
  - rewrite not_elem_of_union. auto.
  - rewrite !not_elem_of_union. split_and!; [|auto..].
    destruct (decide _); [apply re_first_positions|apply not_elem_of_empty].
  - rewrite !not_elem_of_union. split_and!; [|auto..].
    destruct (decide _); [apply re_first_positions|apply not_elem_of_empty].
  - rewrite !not_elem_of_union. split_and!; [|auto..].
    destruct (decide _); [apply re_first_positions|apply not_elem_of_empty].
Qed.

(** X13: when [parse_regex] returns on a written expression, it leaves in
    the object the tree of the expression followed by the end marker, its
    symbols numbered from 1 in the order they are written, with the
    textbook [nullable], [firstpos] and [lastpos] on every node; the table
    of these symbols; and the textbook [followpos]. *)
Theorem parse_regex_written (regex : list N) (r : re) (order : list N)
    (parsed : RegexToDFA) :
  written 1 regex r →
  set_order (alphabet_chars regex) order →
  parse_regex (init regex order) = Ok parsed →
  syntax_tree parsed = deco 1 (Cat r (Sym c_hash)) ∧
  pos_to_symbol parsed
    = zip (seq 1 (length (syms r ++ [c_hash]))) (syms r ++ [c_hash]) ∧
  next_pos parsed = length (syms r) + 2 ∧
  ∀ i, fp_get (followpos parsed) i = re_follow 1 (Cat r (Sym c_hash)) i.
Proof.
  intros Hs Horder Hrun.
  destruct (parse_written _ _ _ Hs Horder) as (built & fp & Hparse & Hb & _ & Hget).
  assert (parsed = with_tree built (deco 1 (Cat r (Sym c_hash))) fp) as ->
    by congruence.
  split; [done|].
  pose proof (build_loop_inv [] _ _ _ (build_inv_init regex order) Hb)
    as (_ & Hleaves & Htable & Hnext).
  cbn [fst snd app] in Hleaves, Htable, Hnext.
  assert (Htbl : pos_to_symbol built
                 = zip (seq 1 (length (syms (Cat r (Sym c_hash)))))
                       (syms (Cat r (Sym c_hash)))).
  { rewrite Htable, <- Hleaves. unfold stack_leaves.
    change (concat (leaves <$> reverse [bare 1 (Cat r (Sym c_hash))]))
      with (leaves (bare 1 (Cat r (Sym c_hash))) ++ []).
    rewrite app_nil_r. apply leaves_bare. }
  split_and!.
  - exact Htbl.
  - cbn [next_pos with_tree]. rewrite Hnext, Htbl.
    rewrite length_zip_with, length_seq. cbn [syms].
    rewrite length_app. simpl. lia.
  - intros i. cbn [followpos with_tree]. rewrite Hget.
    apply build_loop_followpos in Hb. simpl in Hb. rewrite Hb.
    unfold fp_get at 1. rewrite lookup_empty. simpl. set_solver.
Qed.

(** ** What the attributes mean *)



(** ** Every state of the minimized automaton is reachable *)

Lemma quotient_path sigma d dm P w q q' i :
  wf_dfa d →
  partition_of P (set_seq 0 (states d) ∪ final_states d) →
  (∀ C c, C ∈ P → c ∈ sigma → stable (transitions d) (states d) P C c) →
  remap_transitions (state_mapping P) (transitions d) = Ok (transitions dm) →
  path sigma d q w q' →
  q < states d → state_mapping P !! q = Some i →
  ∃ i', path sigma dm i w i' ∧ state_mapping P !! q' = Some i' ∧ q' < states d.
Proof.
  intros Hwf Hpart Hstable Htrans Hp. revert i.
  induction Hp as [q|q c q1 w q2 Hc Ht Hp IH]; intros i Hq Hi.
  - exists i. split; [constructor|done].
  - pose proof (quotient_step sigma d dm P Hwf Hpart Hstable Htrans q i c
                  Hq Hi Hc) as Hstep.
    rewrite Ht in Hstep. destruct Hstep as (j & Hj & Hq1 & Hlt).
    destruct (IH j Hlt Hq1) as (i' & Hp' & Hi' & Hlt').
    exists i'. split; [|done]. by eapply path_cons.
Qed.

Lemma minimize_reachable fuel sigma d m :
  wf_dfa d → (∀ q, q ∈ final_states d → q < states d) →
  minimize fuel sigma d = Ok m →
  (∀ q, q < states d → ∃ w, path sigma d (initial d) w q) →
  ∀ i, i < states m → ∃ w, path sigma m (initial m) w i.
Proof.
  intros Hwf HF (P & Hloop & Ht & Hf & Hi & Hn)%minimize_inv Hreach i Hlt.
  pose proof Hwf as (Hkeys & Hrange & Hinit).
  destruct (refine_loop_stable (transitions d) (states d) sigma Hrange
              _ _ _ _ Hloop) as (Hstable & Href & Hpart).
  { intros P' _ HW C c HC Hc. by apply HW. }
  specialize (Hpart _ (initial_partitions_partition _ _)).
  rewrite Hn in Hlt. destruct (lookup_lt_is_Some_2 P i Hlt) as [B HB].
  pose proof Hpart as (Hne & Hdis & Hcov).
  assert (HB' : B ∈ P) by (by eapply list_elem_of_lookup_2).
  destruct (set_choose_L B (Hne _ HB')) as [q Hq].
  assert (Hqlt : q < states d).
  { assert (Hin : q ∈ ⋃ P) by (apply elem_of_union_list; eauto).
    rewrite Hcov in Hin.
    apply elem_of_union in Hin as [?%elem_of_set_seq|?%HF]; lia. }
  destruct (Hreach q Hqlt) as [w Hw]. exists w.
  destruct (quotient_path sigma d m P w _ _ _ Hwf Hpart Hstable Ht Hw Hinit Hi)
    as (i' & Hp & Hi' & _).
  assert (Hqi : state_mapping P !! q = Some i)
    by (by eapply state_mapping_lookup).
  by assert (i' = i) as -> by congruence.
Qed.

(** X16: every state of the minimized automaton is reached from its
    initial state by some string over the alphabet. *)
Theorem minimized_dfa_reachable (regex : list N) (order : list N) (fuel : nat)
    (final : RegexToDFA) :
  process fuel (init regex order) = Ok final →
  ∃ m, minimized_dfa final = Some m ∧
       ∀ i, i < states m → ∃ w, path (alphabet final) m (initial m) w i.
Proof.
  intros H.
  apply process_stages in H
    as (postfix & root & built & tree & fp & st & d & m &
        _ & _ & _ & _ & Hst & Hd & Hm & Hal & ->).
  exists m. split; [done|]. simpl. rewrite Hal.
  assert (Hwf : wf_dfa d) by (subst d; by eapply construct_states_wf).
  assert (HF : ∀ q, q ∈ final_states d → q < states d).
  { pose proof Hst as Hst'.
    apply construct_states_cinv in Hst' as (I & e & popped & _ & _ & Hinv & _).
    subst d. simpl.
    intros q (S & HS & _)%(ci_final _ _ _ _ _ _ _ Hinv). by eapply cinv_id_lt. }
  eapply minimize_reachable; [done..|].
  intros q Hq. subst d. simpl in *.
  destruct (construct_states_reachable _ _ _ q Hst Hq) as [w Hw].
  exists w. change (alphabet (with_tree built tree fp)) with (alphabet built) in Hw.
  by rewrite Hal in Hw.
Qed.

(** ** From every state some string is accepted *)

Lemma re_follow_None k r : re_follow k r None = ∅.
Proof.
  revert k. induction r as [|c|r1 IH1 r2 IH2|r1 IH1 r2 IH2|r IH|r IH|r IH];
    intros k; cbn [re_follow]; auto.
  - by rewrite IH1, IH2, union_empty_l_L.
  - rewrite decide_False by apply re_last_positions.
    by rewrite IH1, IH2, !union_empty_l_L.
  - rewrite decide_False by apply re_last_positions.
    by rewrite IH, union_empty_l_L.
  - rewrite decide_False by apply re_last_positions.
    by rewrite IH, union_empty_l_L.
Qed.

Lemma spells_total table k r u :
  labelled table k r →
  (∀ p, p ∈ u → k ≤ p < k + length (syms r)) →
  ∃ w, spells table u w ∧ Forall (λ c, c ∈ syms r) w.
Proof.
  intros Hl. induction u as [|p u IH]; intros Hu.
  - exists []. split; constructor.
  - destruct IH as (w & Hs & Hw).
    { intros p' Hp'. apply Hu. by apply list_elem_of_further. }
    destruct (Hu p) as [H1 H2]; [apply list_elem_of_here|].
    destruct (lookup_lt_is_Some_2 (syms r) (p - k)) as [c Hc]; [lia|].
    exists (c :: w). split.
    + constructor; [|done]. specialize (Hl _ _ Hc).
      by replace (k + (p - k)) with p in Hl by lia.
    + constructor; [|done]. by eapply list_elem_of_lookup_2.
Qed.

Section live.
Context (self : RegexToDFA) (r : re).
Hypothesis Htable :
  pos_to_symbol self
  = zip (seq 1 (length (syms (Cat r (Sym c_hash))))) (syms (Cat r (Sym c_hash))).
Hypothesis Hfollow :
  ∀ i, fp_get (followpos self) i = re_follow 1 (Cat r (Sym c_hash)) i.

Lemma walk_to_end t x S p w :
  marked 1 (Cat r (Sym c_hash)) (x ++ (p :: t) ++ [1 + length (syms r)]) →
  Some p ∈ S →
  spells (pos_to_symbol self) (p :: t) w →
  Some (1 + length (syms r)) ∈ after self S w.
Proof using Hfollow.
  revert x S p w. induction t as [|q t IH]; intros x S p w Hm Hp Hs.
  - apply Forall2_cons_inv_l in Hs as (c & w' & Hc & Hw & ->).
    apply Forall2_nil_inv_l in Hw as ->. unfold after. cbn [foldl].
    apply elem_of_move. exists (Some p). split; [done|]. split; [done|].
    rewrite Hfollow. apply follow_marked. exists x, []. exact Hm.
  - apply Forall2_cons_inv_l in Hs as (c & w' & Hc & Hw & ->).
    unfold after. cbn [foldl]. fold (after self (move self S c) w').
    apply (IH (x ++ [p]) (move self S c) q w');
      [by rewrite <- app_assoc| |done].
    apply elem_of_move. exists (Some p). split; [done|]. split; [done|].
    rewrite Hfollow. apply follow_marked. exists x, (t ++ [1 + length (syms r)]).
    exact Hm.
Qed.

Lemma universe_word i :
  i ∈ universe self (re_first 1 (Cat r (Sym c_hash))) →
  ∃ p x y, i = Some p ∧ marked 1 (Cat r (Sym c_hash)) (x ++ p :: y).
Proof using Hfollow.
  unfold universe. intros [Hi|Hi]%elem_of_union.
  - destruct i as [p|]; [|by apply re_first_positions in Hi].
    apply first_marked in Hi as [y Hy]. by exists p, [], y.
  - apply elem_of_union_list in Hi as (v & Hv & Hi).
    apply list_elem_of_fmap in Hv as ([j v'] & -> & Hv).
    apply elem_of_map_to_list in Hv. simpl in Hi.
    assert (Hget : fp_get (followpos self) j = v')
      by (unfold fp_get; by rewrite Hv).
    rewrite Hfollow in Hget. subst v'.
    destruct j as [p0|]; [|by rewrite re_follow_None in Hi].
    destruct i as [p|]; [|by apply re_follow_positions in Hi].
    apply follow_marked in Hi as (x & y & Hm).
    exists p, (x ++ [p0]), y. split; [done|]. by rewrite <- app_assoc.
Qed.

Lemma live S :
  S ≠ ∅ → S ⊆ universe self (re_first 1 (Cat r (Sym c_hash))) →
  ∃ w, Forall (λ c, c ∈ syms r) w ∧
       Some (1 + length (syms r)) ∈ after self S w.
Proof using Htable Hfollow.
  intros [i Hi]%set_choose_L Hsub.
  destruct (universe_word i (Hsub _ Hi)) as (p & x & y & -> & Hm).
  pose proof Hm as Hm'. cbn [marked] in Hm'.
  destruct Hm' as (a & b & Hab & Ha & ->). symmetry in Hab.
  assert (Hl : labelled (pos_to_symbol self) 1 r).
  { rewrite Htable.
    apply (proj2 (labelled_children _ 1 r (Sym c_hash))), labelled_zip. }
  apply app_eq_mid in Hab as [(y1 & -> & ->)|(x2 & -> & Hx2)].
  - destruct (spells_total _ 1 r (p :: y1) Hl) as (w & Hs & Hw).
    { intros p' Hp'. apply (marked_range _ _ _ p' Ha).
      apply elem_of_app. by right. }
    exists w. split; [done|]. by apply (walk_to_end y1 x S p w).
  - destruct x2 as [|? [|? ?]]; simpl in Hx2; simplify_eq.
    exists []. split; [constructor|done].
Qed.
End live.

Lemma outcome_app sigma d q w v :
  outcome sigma d q (w ++ v) =
  match for_return (simulate_step sigma d) q w with
  | Return _ => None
  | Continue q' => outcome sigma d q' v
  end.
Proof.
  revert q. induction w as [|c w IH]; intros q; [done|].
  cbn [app]. rewrite outcome_cons. cbn [for_return].
  unfold simulate_step at 1.
  destruct (in_str c sigma); cbn [negb]; [|done].
  destruct (dict_get (transitions d) (q, c)) as [q'|]; [apply IH|done].
Qed.

Lemma run_range sigma d q w q' :
  (∀ q s q', dict_get (transitions d) (q, s) = Some q' →
             q < states d ∧ q' < states d) →
  q < states d →
  for_return (simulate_step sigma d) q w = Continue q' → q' < states d.
Proof.
  intros Hrange. revert q. induction w as [|c w IH]; intros q Hq; simpl.
  - by intros [= <-].
  - unfold simulate_step at 1. destruct (in_str c sigma); simpl; [|done].
    destruct (dict_get (transitions d) (q, c)) as [q1|] eqn:Ht; [|done].
    apply IH. by apply Hrange in Ht as [_ ?].
Qed.

(** When a string is accepted from every state, two states that accept
    the same strings read the same strings to their end. *)
Lemma accepted_outcome sigma d i j :
  (∀ q s q', dict_get (transitions d) (q, s) = Some q' →
             q < states d ∧ q' < states d) →
  (∀ q, q < states d → ∃ v, outcome sigma d q v = Some true) →
  i < states d → j < states d →
  (∀ w, outcome sigma d i w = Some true ↔ outcome sigma d j w = Some true) →
  ∀ w, outcome sigma d i w = outcome sigma d j w.
Proof.
  intros Hrange Hlive Hi Hj Hacc w.
  destruct (for_return (simulate_step sigma d) i w) as [ri|qi] eqn:Hri;
    destruct (for_return (simulate_step sigma d) j w) as [rj|qj] eqn:Hrj.
  - unfold outcome. by rewrite Hri, Hrj.
  - exfalso. destruct (Hlive qj) as [v Hv];
      [by apply (run_range sigma d j w qj)|].
    assert (H1 : outcome sigma d j (w ++ v) = Some true)
      by (by rewrite outcome_app, Hrj).
    apply Hacc in H1. by rewrite outcome_app, Hri in H1.
  - exfalso. destruct (Hlive qi) as [v Hv];
      [by apply (run_range sigma d i w qi)|].
    assert (H1 : outcome sigma d i (w ++ v) = Some true)
      by (by rewrite outcome_app, Hri).
    apply Hacc in H1. by rewrite outcome_app, Hrj in H1.
  - specialize (Hacc w). unfold outcome in *. rewrite Hri, Hrj in *.
    destruct (bool_decide (qi ∈ final_states d)),
      (bool_decide (qj ∈ final_states d)); try done.
    + by destruct (proj1 Hacc eq_refl).
    + by destruct (proj2 Hacc eq_refl).
Qed.

Lemma minimize_live fuel sigma d m :
  wf_dfa d → (∀ q, q ∈ final_states d → q < states d) →
  minimize fuel sigma d = Ok m →
  (∀ q, q < states d → ∃ v, outcome sigma d q v = Some true) →
  ∀ i, i < states m → ∃ v, outcome sigma m i v = Some true.
Proof.
  intros Hwf HF (P & Hloop & Ht & Hf & Hi & Hn)%minimize_inv Hlive i Hlt.
  pose proof Hwf as (Hkeys & Hrange & Hinit).
  destruct (refine_loop_stable (transitions d) (states d) sigma Hrange
              _ _ _ _ Hloop) as (Hstable & Href & Hpart).
  { intros P' _ HW C c HC Hc. by apply HW. }
  specialize (Hpart _ (initial_partitions_partition _ _)).
  assert (Hfinal : ∀ B, B ∈ P → B ⊆ final_states d ∨ B ## final_states d).
  { intros B HB. destruct (Href B HB) as (B0 & HB0 & Hsub).
    destruct (initial_partitions_final _ _ _ HB0); [left|right]; set_solver. }
  rewrite Hn in Hlt. destruct (lookup_lt_is_Some_2 P i Hlt) as [B HB].
  pose proof Hpart as (Hne & Hdis & Hcov).
  assert (HB' : B ∈ P) by (by eapply list_elem_of_lookup_2).
  destruct (set_choose_L B (Hne _ HB')) as [q Hq].
  assert (Hqlt : q < states d).
  { assert (Hin : q ∈ ⋃ P) by (apply elem_of_union_list; eauto).
    rewrite Hcov in Hin.
    apply elem_of_union in Hin as [?%elem_of_set_seq|?%HF]; lia. }
  destruct (Hlive q Hqlt) as [v Hv]. exists v. rewrite <- Hv. symmetry.
  apply (quotient_outcome sigma d m P v q i); try done.
  by eapply state_mapping_lookup.
Qed.

Lemma written_stages regex r order fuel final :
  written 1 regex r → set_order (alphabet_chars regex) order →
  process fuel (init regex order) = Ok final →
  ∃ built fp st d m,
    pos_to_symbol built
      = zip (seq 1 (length (syms (Cat r (Sym c_hash)))))
            (syms (Cat r (Sym c_hash))) ∧
    (∀ i, fp_get fp i = re_follow 1 (Cat r (Sym c_hash)) i) ∧
    construct_states fuel (with_tree built (deco 1 (Cat r (Sym c_hash))) fp)
      = Ok st ∧
    d = Automaton (length (c_states st)) 0 (c_final st) (c_transitions st) ∧
    minimize fuel order d = Ok m ∧
    alphabet built = order ∧
    final = with_minimized
              (with_dfa (with_tree built (deco 1 (Cat r (Sym c_hash))) fp) d) m.
Proof.
  intros Hs Horder Hrun.
  destruct (written_fits _ _ _ _ Hs Horder) as (Hfit & Hin & Hhash).
  destruct (parse_written _ _ _ Hs Horder) as (built0 & fp0 & Hparse & Hb0 & _).
  apply process_stages in Hrun
    as (postfix & root & built & tree & fp & st & d & m &
        Hpost & Hbuild & Htree & Hfp & Hst & Hd & Hm & Hal & ->).
  rewrite (augmented_postfix _ _ _ Hs) in Hpost.
  assert (postfix = post (Cat r (Sym c_hash))) as -> by congruence.
  rewrite Hb0 in Hbuild.
  assert (root = bare 1 (Cat r (Sym c_hash)) ∧ built = built0) as [-> ->]
    by (split; congruence).
  rewrite (calculate_tree_properties_bare _ _ _ Hfit) in Htree.
  assert (tree = deco 1 (Cat r (Sym c_hash))) as -> by congruence.
  destruct (calculate_followpos_deco 1 (Cat r (Sym c_hash)) ∅)
    as (fp' & Hfp' & Hget); [by eapply fits_leafy|].
  assert (fp' = fp) as -> by congruence.
  pose proof (build_loop_inv [] _ _ _ (build_inv_init regex order) Hb0)
    as (_ & Hleaves & Htable & _).
  cbn [fst snd app] in Hleaves, Htable.
  exists built0, fp, st, d, m. split_and!; try done.
  - rewrite Htable, <- Hleaves. unfold stack_leaves.
    change (concat (leaves <$> reverse [bare 1 (Cat r (Sym c_hash))]))
      with (leaves (bare 1 (Cat r (Sym c_hash))) ++ []).
    rewrite app_nil_r. apply leaves_bare.
  - intros i. rewrite Hget. unfold fp_get at 1. rewrite lookup_empty.
    simpl. set_solver.
Qed.

Lemma first_nonempty r : re_first 1 (Cat r (Sym c_hash)) ≠ ∅.
Proof.
  destruct (marked_inhabited 1 (Cat r (Sym c_hash))) as [u Hu].
  destruct u as [|p y].
  - cbn [marked] in Hu. destruct Hu as (a & b & Hab & _ & ->).
    by destruct a.
  - intros Hempty.
    assert (Hp : Some p ∈ re_first 1 (Cat r (Sym c_hash)))
      by (apply first_marked; eauto).
    rewrite Hempty in Hp. by apply elem_of_empty in Hp.
Qed.

Lemma constructed_live self r fuel st q :
  pos_to_symbol self
    = zip (seq 1 (length (syms (Cat r (Sym c_hash)))))
          (syms (Cat r (Sym c_hash))) →
  (∀ i, fp_get (followpos self) i = re_follow 1 (Cat r (Sym c_hash)) i) →
  get_firstpos (syntax_tree self) = Ok (re_first 1 (Cat r (Sym c_hash))) →
  Forall (λ c, c ∈ alphabet self) (syms r) → c_hash ∉ syms r →
  construct_states fuel self = Ok st →
  q < length (c_states st) →
  ∃ v, outcome (alphabet self)
         (Automaton (length (c_states st)) 0 (c_final st) (c_transitions st))
         q v = Some true.
Proof.
  intros Htable Hfollow Hfirst Hin Hhash Hst Hq.
  pose proof (construct_states_rinv _ _ _ Hst) as Hr.
  destruct (construct_states_cinv _ _ _ Hst)
    as (I & e & popped & HI & He & Hinv & Hun).
  assert (I = re_first 1 (Cat r (Sym c_hash))) as -> by congruence.
  assert (Hend : find_end_pos (pos_to_symbol self)
                 = Some (1 + length (syms r))).
  { rewrite Htable. cbn [syms]. by apply find_end_pos_zip. }
  assert (HinS : q ∈ (c_states st).*2).
  { rewrite (ci_ids _ _ _ _ _ _ _ Hinv). apply elem_of_seq. lia. }
  apply list_elem_of_fmap in HinS as ([S q'] & -> & HinS). simpl in *.
  pose proof HinS as HS. apply dict_get_elem in HS; [|apply Hinv].
  assert (Hne : S ≠ ∅).
  { destruct (decide (q' = 0)) as [->|Hq0].
    - assert (S = re_first 1 (Cat r (Sym c_hash))) as ->.
      { eapply cinv_id_inj; [done..|apply Hinv]. }
      apply first_nonempty.
    - destruct (Hr S q' HS Hq0) as (q0 & s & _ & _ & Ht).
      apply (ci_trans _ _ _ _ _ _ _ Hinv) in Ht as (S0 & _ & _ & Hm & HS0).
      assert (S = move self S0 s) as -> by (by eapply cinv_id_inj). done. }
  assert (Hsub : S ⊆ universe self (re_first 1 (Cat r (Sym c_hash)))).
  { apply (ci_universe _ _ _ _ _ _ _ Hinv).
    apply list_elem_of_fmap. by exists (S, q'). }
  destruct (live self r Htable Hfollow S Hne Hsub) as (v & Hv & Hacc).
  exists v. apply (outcome_after self fuel st _ v S q' Hst Hend HS).
  split; [|done]. rewrite Forall_forall in Hv, Hin. apply Forall_forall. auto.
Qed.

(** X17: for a written expression the minimized automaton is minimal: two
    distinct states of it are told apart by a string that is accepted
    from one and not from the other. *)
Theorem minimized_dfa_minimal (regex : list N) (r : re) (order : list N)
    (fuel : nat) (final : RegexToDFA) :
  written 1 regex r →
  set_order (alphabet_chars regex) order →
  process fuel (init regex order) = Ok final →
  ∃ m, minimized_dfa final = Some m ∧
       ∀ i j, i < states m → j < states m →
         (∀ w, outcome (alphabet final) m i w = Some true ↔
               outcome (alphabet final) m j w = Some true) →
         i = j.
Proof.
  intros Hs Horder Hrun.
  destruct (written_fits _ _ _ _ Hs Horder) as (Hfit & Hin & Hhash).
  destruct (written_stages _ _ _ _ _ Hs Horder Hrun)
    as (built & fp & st & d & m & Htbl & Hget & Hst & Hd & Hm & Hal & ->).
  exists m. split; [done|]. cbn [alphabet with_minimized with_dfa with_tree].
  rewrite Hal.
  assert (Hwf : wf_dfa d) by (subst d; by eapply construct_states_wf).
  assert (HF : ∀ q, q ∈ final_states d → q < states d).
  { destruct (construct_states_cinv _ _ _ Hst)
      as (I & e & popped & _ & _ & Hinv & _).
    subst d. simpl.
    intros q (S & HS & _)%(ci_final _ _ _ _ _ _ _ Hinv). by eapply cinv_id_lt. }
  assert (Hlive : ∀ q, q < states d → ∃ v, outcome order d q v = Some true).
  { intros q Hq. subst d. rewrite <- Hal.
    apply (constructed_live
             (with_tree built (deco 1 (Cat r (Sym c_hash))) fp) r fuel st q);
      try done.
    cbn [alphabet with_tree]. by rewrite Hal. }
  destruct (minimize_wf _ _ _ _ Hwf HF Hm) as ((_ & Hrange & _) & _).
  intros i j Hi Hj Hacc.
  eapply (minimize_reduced fuel order d m); try done.
  apply accepted_outcome; try done.
  by eapply minimize_live.
Qed.

(** ** The further properties at concrete inputs *)

Lemma classic_written : written 1 (of_string "(a|b)*abb") classic_re.
Proof.
  assert (Ha : symbol 97%N) by (apply (bool_decide_unpack _); reflexivity).
  assert (Hb : symbol 98%N) by (apply (bool_decide_unpack _); reflexivity).
  do 1 apply written_up.
  change (of_string "(a|b)*abb")
    with ((((([c_lparen] ++ ([97%N] ++ [c_bar] ++ [98%N]) ++ [c_rparen])
              ++ [c_star]) ++ [97%N]) ++ [98%N]) ++ [98%N]).
  unfold classic_re.
  repeat (apply written_cat; [|apply written_up, written_sym; assumption]).
  apply written_up, written_star, written_up, written_paren, written_alt.
  - do 3 apply written_up. by apply written_sym.
  - do 2 apply written_up. by apply written_sym.
Qed.

Lemma classic_postfix :
  infix_to_postfix (of_string "(a|b)*abb") = Ok (post classic_re).
Proof. vm_compute. reflexivity. Qed.

Lemma classic_balanced : balanced 0 (of_string "(a|b)*abb") = true.
Proof. vm_compute. reflexivity. Qed.

Lemma classic_build :
  build_syntax_tree (init (of_string "(a|b)*abb") (of_string "ab"))
    (post (Cat classic_re (Sym c_hash)))
  = Ok (classic_tree.1, classic_tree.2).
Proof. vm_compute. reflexivity. Qed.


Lemma infix_to_postfix_operands_witness :
  infix_to_postfix (of_string "(a|b)*abb") = Ok (post classic_re) ∧
  filter operand (post classic_re) = filter operand (of_string "(a|b)*abb").
Proof.
  split; [exact classic_postfix|].
  exact (infix_to_postfix_operands _ _ classic_postfix).
Defined.

Lemma infix_to_postfix_rearranges_witness :
  infix_to_postfix (of_string "(a|b)*abb") = Ok (post classic_re) ∧
  (c_rparen ∉ post classic_re) ∧
  filter not_paren (post classic_re)
    ≡ₚ filter not_paren (insert_concat (of_string "(a|b)*abb")).
Proof.
  split; [exact classic_postfix|].
  exact (infix_to_postfix_rearranges _ _ classic_postfix).
Defined.

Lemma infix_to_postfix_balanced_witness :
  infix_to_postfix (of_string "(a|b)*abb") = Ok (post classic_re) ∧
  balanced 0 (of_string "(a|b)*abb") = true ∧
  (c_lparen ∉ post classic_re) ∧ (c_rparen ∉ post classic_re) ∧
  post classic_re ≡ₚ filter not_paren (insert_concat (of_string "(a|b)*abb")).
Proof.
  split; [exact classic_postfix|]. split; [exact classic_balanced|].
  exact (infix_to_postfix_balanced _ _ classic_postfix classic_balanced).
Defined.

Lemma written_postfix_witness :
  written 1 (of_string "(a|b)*abb") classic_re ∧
  infix_to_postfix (of_string "(a|b)*abb") = Ok (post classic_re).
Proof.
  split; [exact classic_written|].
  exact (written_postfix 1 _ _ classic_written).
Defined.

Lemma build_syntax_tree_postorder_witness :
  build_syntax_tree (init (of_string "(a|b)*abb") (of_string "ab"))
    (post (Cat classic_re (Sym c_hash)))
  = Ok (classic_tree.1, classic_tree.2) ∧
  shaped classic_tree.1 ∧
  postorder classic_tree.1 = post (Cat classic_re (Sym c_hash)).
Proof.
  split; [exact classic_build|].
  exact (build_syntax_tree_postorder _ _ _ _ classic_build).
Defined.

Lemma construct_dfa_well_formed_witness :
  construct_dfa 4 classic_parsed = Ok classic_built ∧
  ∃ d, dfa classic_built = Some d ∧
       initial d = 0 ∧ 0 < states d ∧
       (∀ q s q', dict_get (transitions d) (q, s) = Some q' →
                  q < states d ∧ q' < states d ∧ s ∈ alphabet classic_parsed) ∧
       (∀ q, q ∈ final_states d → q < states d).
Proof.
  split; [exact classic_construct|].
  exact (construct_dfa_well_formed _ _ 4 classic_construct).
Defined.

Lemma construct_dfa_reachable_witness :
  construct_dfa 4 classic_parsed = Ok classic_built ∧
  ∃ d, dfa classic_built = Some d ∧
       ∀ q, q < states d →
            ∃ w, path (alphabet classic_parsed) d (initial d) w q.
Proof.
  split; [exact classic_construct|].
  exact (construct_dfa_reachable _ _ 4 classic_construct).
Defined.

Lemma minimize_dfa_well_formed_witness :
  process 4 (init (of_string "(a|b)*abb") (of_string "ab")) = Ok classic_final ∧
  ∃ d m,
    dfa classic_final = Some d ∧ minimized_dfa classic_final = Some m ∧
    0 < states m ≤ states d ∧
    initial m < states m ∧
    (∀ q, q ∈ final_states m → q < states m) ∧
    (∀ i s j, dict_get (transitions m) (i, s) = Some j →
              i < states m ∧ j < states m ∧
              ∃ q q', dict_get (transitions d) (q, s) = Some q').
Proof.
  split; [exact classic_process|].
  exact (minimize_dfa_well_formed _ _ 4 classic_final classic_process).
Defined.

Lemma minimized_dfa_reduced_witness :
  process 4 (init (of_string "(a|b)*abb") (of_string "ab")) = Ok classic_final ∧
  ∃ m, minimized_dfa classic_final = Some m ∧
       ∀ i j, i < states m → j < states m →
         (∀ w, outcome (alphabet classic_final) m i w
               = outcome (alphabet classic_final) m j w) →
         i = j.
Proof.
  split; [exact classic_process|].
  exact (minimized_dfa_reduced _ _ 4 classic_final classic_process).
Defined.

Lemma minimized_dfa_reachable_witness :
  process 4 (init (of_string "(a|b)*abb") (of_string "ab")) = Ok classic_final ∧
  ∃ m, minimized_dfa classic_final = Some m ∧
       ∀ i, i < states m →
            ∃ w, path (alphabet classic_final) m (initial m) w i.
Proof.
  split; [exact classic_process|].
  exact (minimized_dfa_reachable _ _ 4 classic_final classic_process).
Defined.

Lemma minimized_dfa_minimal_witness :
  written 1 (of_string "(a|b)*abb") classic_re ∧
  set_order (alphabet_chars (of_string "(a|b)*abb")) (of_string "ab") ∧
  process 4 (init (of_string "(a|b)*abb") (of_string "ab")) = Ok classic_final ∧
  ∃ m, minimized_dfa classic_final = Some m ∧
       ∀ i j, i < states m → j < states m →
         (∀ w, outcome (alphabet classic_final) m i w = Some true ↔
               outcome (alphabet classic_final) m j w = Some true) →
         i = j.
Proof.
  split; [exact classic_written|]. split; [exact classic_order|].
  split; [exact classic_process|].
  exact (minimized_dfa_minimal _ _ _ 4 classic_final
           classic_written classic_order classic_process).
Defined.

Lemma process_recognizes_witness :
  written 1 (of_string "(a|b)*abb") classic_re ∧
  set_order (alphabet_chars (of_string "(a|b)*abb")) (of_string "ab") ∧
  process 4 (init (of_string "(a|b)*abb") (of_string "ab")) = Ok classic_final ∧
  ∀ w minimized,
    simulate_dfa classic_final w minimized = Ok true ↔ matches classic_re w.
Proof.
  split; [exact classic_written|]. split; [exact classic_order|].
  split; [exact classic_process|].
  exact (process_recognizes _ _ _ 4 classic_final
           classic_written classic_order classic_process).
Defined.

Lemma parse_regex_written_witness :
  written 1 (of_string "(a|b)*abb") classic_re ∧
  set_order (alphabet_chars (of_string "(a|b)*abb")) (of_string "ab") ∧
  parse_regex (init (of_string "(a|b)*abb") (of_string "ab")) = Ok classic_parsed ∧
  syntax_tree classic_parsed = deco 1 (Cat classic_re (Sym c_hash)) ∧
  pos_to_symbol classic_parsed
    = zip (seq 1 (length (syms classic_re ++ [c_hash])))
          (syms classic_re ++ [c_hash]) ∧
  next_pos classic_parsed = length (syms classic_re) + 2 ∧
  ∀ i, fp_get (followpos classic_parsed) i
       = re_follow 1 (Cat classic_re (Sym c_hash)) i.
Proof.
  split; [exact classic_written|]. split; [exact classic_order|].
  split; [exact classic_parse|].
  exact (parse_regex_written _ _ _ classic_parsed
           classic_written classic_order classic_parse).
Defined.



Lemma process_after_parse_witness :
  parse_regex (init (of_string "(a|b)*abb") (of_string "ab")) = Ok classic_parsed ∧
  ∃ fuel0, ∀ fuel, fuel0 ≤ fuel →
    ∃ built final,
      construct_dfa fuel classic_parsed = Ok built ∧
      minimize_dfa fuel built = Ok final ∧
      process fuel (init (of_string "(a|b)*abb") (of_string "ab")) = Ok final.
Proof.
  split; [exact classic_parse|].
  exact (process_after_parse _ _ classic_parsed classic_parse).
Defined.
